(** * KResearch: key rotation, retrying executors, web-search aggregation
      and the planner debate loop

    A shallow embedding of the TypeScript sources
      - the key service     (class [ApiKeyService])
      - the model client    ([executeWithRetry], [executeOpenRouterWithRetry])
      - the web search      ([processSearchQuery], [searchEngineFetcher],
                             [performWebSearch])
      - the planner         ([sanitizePlannerTurn],
                             [runDynamicConversationalPlanner])
    followed by the properties proved about them.

    Conventions.  A JavaScript string is modelled by the [string] of its
    bytes in UTF-8 (a lone surrogate, which UTF-8 leaves out, takes the
    three bytes the same scheme gives it).  Numbers that the code only
    uses as integers are [Z].  Everything that the code obtains from the
    outside world (HTTP replies, model replies, search-engine replies) is
    an explicit input of the model, so that every function below is a
    total, executable Rocq function. *)

From Stdlib Require Import ZArith Lia List String Ascii Bool Permutation Sorted.
From stdpp Require Import base list strings pretty.
Import ListNotations.

Local Open Scope string_scope.
Local Open Scope Z_scope.

(** ** Host string primitives *)

Module JsString.

Definition chars (s : string) : list ascii := list_ascii_of_string s.
Definition of_chars (l : list ascii) : string := string_of_list_ascii l.

(** The one-byte members of the [\s] class: TAB, LF, VT, FF, CR and
    SPACE. *)
Definition is_space (c : ascii) : bool :=
  let n := nat_of_ascii c in
  ((9 <=? n)%nat && (n <=? 13)%nat) || (n =? 32)%nat.

Definition is_digit (c : ascii) : bool :=
  let n := nat_of_ascii c in (48 <=? n)%nat && (n <=? 57)%nat.

Definition is_upper (c : ascii) : bool :=
  let n := nat_of_ascii c in (65 <=? n)%nat && (n <=? 90)%nat.

Definition is_lower (c : ascii) : bool :=
  let n := nat_of_ascii c in (97 <=? n)%nat && (n <=? 122)%nat.

(** [\w] is [[A-Za-z0-9_]]. *)
Definition is_word (c : ascii) : bool :=
  is_upper c || is_lower c || is_digit c || (nat_of_ascii c =? 95)%nat.

Fixpoint drop_while {A} (p : A -> bool) (l : list A) : list A :=
  match l with
  | [] => []
  | x :: l' => if p x then drop_while p l' else l
  end.

Fixpoint prefix_chars (p l : list ascii) : bool :=
  match p, l with
  | [], _ => true
  | _ :: _, [] => false
  | a :: p', b :: l' => Ascii.eqb a b && prefix_chars p' l'
  end.

(** The characters [trim] strips, the white space and the line
    terminators of the language, each by its bytes: U+0009 to U+000D,
    U+0020, U+00A0, U+1680, U+2000 to U+200A, U+2028, U+2029, U+202F,
    U+205F, U+3000 and U+FEFF. *)
Definition WHITE_SPACE : list (list ascii) :=
  map (map ascii_of_nat)
      [ [9]; [10]; [11]; [12]; [13]; [32];
        [194; 160];
        [225; 154; 128];
        [226; 128; 128]; [226; 128; 129]; [226; 128; 130]; [226; 128; 131];
        [226; 128; 132]; [226; 128; 133]; [226; 128; 134]; [226; 128; 135];
        [226; 128; 136]; [226; 128; 137]; [226; 128; 138];
        [226; 128; 168]; [226; 128; 169];
        [226; 128; 175];
        [226; 129; 159];
        [227; 128; 128];
        [239; 187; 191] ]%nat.

(** What follows the one of [tokens] that [l] starts with. *)
Definition strip (tokens : list (list ascii)) (l : list ascii)
  : option (list ascii) :=
  option_map (fun t => skipn (length t) l)
             (List.find (fun t => prefix_chars t l) tokens).

(** [l] without the [tokens] it starts with; [fuel] bounds their
    number. *)
Fixpoint drop_tokens (tokens : list (list ascii)) (fuel : nat)
         (l : list ascii) : list ascii :=
  match fuel with
  | O => l
  | S fuel' =>
      match strip tokens l with
      | Some rest => drop_tokens tokens fuel' rest
      | None => l
      end
  end.

Definition trimStart_chars (l : list ascii) : list ascii :=
  drop_tokens WHITE_SPACE (length l) l.

Definition trimEnd_chars (l : list ascii) : list ascii :=
  rev (drop_tokens (map (@rev ascii) WHITE_SPACE) (length l) (rev l)).

Definition trim_chars (l : list ascii) : list ascii :=
  trimEnd_chars (trimStart_chars l).

(** [s.trim()] *)
Definition trim (s : string) : string := of_chars (trim_chars (chars s)).

(** [s.split(/[sep]+/)]: the separators are maximal runs of characters
    of the class [sep]; a run at either end yields an empty piece. *)
Fixpoint split_go (sep : ascii -> bool) (in_sep : bool)
         (cur : list ascii) (l : list ascii) : list (list ascii) :=
  match l with
  | [] => [rev cur]
  | c :: l' =>
      if sep c
      then if in_sep then split_go sep true [] l'
           else rev cur :: split_go sep true [] l'
      else split_go sep false (c :: cur) l'
  end.

Definition split_runs (sep : ascii -> bool) (s : string) : list string :=
  map of_chars (split_go sep false [] (chars s)).

Definition lower_char (c : ascii) : ascii :=
  if is_upper c then ascii_of_nat (nat_of_ascii c + 32) else c.

(** The lower-casing of the host, as far as ASCII goes: the letters A to
    Z, and the two characters outside ASCII whose lower case has an ASCII
    letter in it, the Kelvin sign U+212A (k) and the dotted capital I
    U+0130 (i followed by U+0307).  Every other character is left as it
    is: the host maps it to characters outside ASCII again. *)
Fixpoint lower_chars (l : list ascii) : list ascii :=
  match l with
  | [] => []
  | c :: r =>
      let plain := lower_char c :: lower_chars r in
      match nat_of_ascii c, r with
      | 226%nat, c1 :: c2 :: r2 =>
          if (nat_of_ascii c1 =? 132)%nat && (nat_of_ascii c2 =? 170)%nat
          then ascii_of_nat 107 :: lower_chars r2
          else plain
      | 196%nat, c1 :: r1 =>
          if (nat_of_ascii c1 =? 176)%nat
          then ascii_of_nat 105 :: ascii_of_nat 204 :: ascii_of_nat 135
                 :: lower_chars r1
          else plain
      | _, _ => plain
      end
  end.

(** [s.toLowerCase()], exact on every string for what the code below
    does with it: [sanitizePlannerTurn] compares the result with three
    ASCII names and [processSearchQuery] keeps its [\w] characters only.
    The comparisons of [performWebSearch] take the host's function as a
    parameter. *)
Definition toLowerCase (s : string) : string :=
  of_chars (lower_chars (chars s)).

Fixpoint includes_chars (p l : list ascii) : bool :=
  prefix_chars p l ||
  match l with
  | [] => false
  | _ :: l' => includes_chars p l'
  end.

(** [s.includes(p)] *)
Definition includes (s p : string) : bool :=
  includes_chars (chars p) (chars s).

(** [l.join(sep)] *)
Fixpoint join (sep : string) (l : list string) : string :=
  match l with
  | [] => ""
  | [x] => x
  | x :: l' => x ++ sep ++ join sep l'
  end.

(** A string is falsy exactly when it is empty. *)
Definition truthy (s : string) : bool :=
  match s with EmptyString => false | _ => true end.

(** The bytes that follow the first byte [c] of a character. *)
Definition continuation_bytes (c : ascii) : nat :=
  let n := nat_of_ascii c in
  if (n <? 192)%nat then 0%nat
  else if (n <? 224)%nat then 1%nat
  else if (n <? 240)%nat then 2%nat
  else 3%nat.

(** A character of four bytes is a surrogate pair: two code units. *)
Definition code_units (c : ascii) : nat :=
  if (nat_of_ascii c <? 240)%nat then 1%nat else 2%nat.

Definition is_continuation (c : ascii) : bool :=
  let n := nat_of_ascii c in (128 <=? n)%nat && (n <? 192)%nat.

(** The code units of [l]; [skip] is the number of continuation bytes
    the current character still has. *)
Fixpoint count_units (skip : nat) (l : list ascii) : nat :=
  match l with
  | [] => 0%nat
  | c :: r =>
      match skip with
      | S skip' =>
          if is_continuation c then count_units skip' r
          else (code_units c + count_units (continuation_bytes c) r)%nat
      | O => (code_units c + count_units (continuation_bytes c) r)%nat
      end
  end.

(** [s.length]: the number of UTF-16 code units. *)
Definition str_length (s : string) : nat := count_units 0 (chars s).

(** The first of the two code units of the character of four bytes that
    starts with [c] and goes on with [r], a high surrogate, in its three
    bytes. *)
Definition high_surrogate (c : ascii) (r : list ascii) : list ascii :=
  match r with
  | b1 :: b2 :: _ =>
      let h := ((nat_of_ascii c mod 8) * 256 + (nat_of_ascii b1 mod 64) * 4
                + (nat_of_ascii b2 mod 64) / 16 - 64)%nat in
      [ascii_of_nat 237; ascii_of_nat (160 + h / 64);
       ascii_of_nat (128 + h mod 64)]
  | _ => [c]
  end.

(** The first [n] code units of [l]; [skip] as in [count_units].  A
    surrogate pair cut in two leaves its first half. *)
Fixpoint take_units (n skip : nat) (l : list ascii) : list ascii :=
  match l with
  | [] => []
  | c :: r =>
      let character :=
        match n with
        | O => []
        | S n' =>
            if (nat_of_ascii c <? 240)%nat
            then c :: take_units n' (continuation_bytes c) r
            else match n' with
                 | O => high_surrogate c r
                 | S n'' => c :: take_units n'' 3 r
                 end
        end in
      match skip with
      | S skip' =>
          if is_continuation c then c :: take_units n skip' r else character
      | O => character
      end
  end.

(** [A-Za-z0-9] and [-_.!~*'()], which [encodeURIComponent] keeps. *)
Definition is_unreserved (c : ascii) : bool :=
  is_upper c || is_lower c || is_digit c
  || existsb (Nat.eqb (nat_of_ascii c)) [45; 95; 46; 33; 126; 42; 39; 40; 41]%nat.

Definition hex_digit (n : nat) : ascii :=
  ascii_of_nat (if (n <? 10)%nat then 48 + n else 55 + n).

(** [None] is the [URIError] thrown on a lone surrogate. *)
Fixpoint encode_chars (l : list ascii) : option (list ascii) :=
  match l with
  | [] => Some []
  | c :: r =>
      let lone :=
        (nat_of_ascii c =? 237)%nat
        && match r with
           | c1 :: _ => (160 <=? nat_of_ascii c1)%nat
           | [] => false
           end in
      if lone then None
      else
        option_map
          (app (if is_unreserved c then [c]
                else [ascii_of_nat 37; hex_digit (nat_of_ascii c / 16);
                      hex_digit (nat_of_ascii c mod 16)]))
          (encode_chars r)
  end.

(** [encodeURIComponent(s)] *)
Definition encodeURIComponent (s : string) : option string :=
  option_map of_chars (encode_chars (chars s)).

(** The double quote, as a string. *)
Definition dq : string := String (ascii_of_nat 34) EmptyString.

(** The no-break space U+00A0, as a string. *)
Definition nbsp : string := of_chars [ascii_of_nat 194; ascii_of_nat 160].

(** The first maximal run of decimal digits of [s], the capture of
    [s.match(/(\d+)/)]; [None] when [s] has no digit. *)
Fixpoint take_while {A} (p : A -> bool) (l : list A) : list A :=
  match l with
  | [] => []
  | x :: l' => if p x then x :: take_while p l' else []
  end.

Definition first_digits (s : string) : option string :=
  match drop_while (fun c => negb (is_digit c)) (chars s) with
  | [] => None
  | l => Some (of_chars (take_while is_digit l))
  end.

(** [parseInt(s, 10)] on a string of decimal digits. *)
Definition parseInt_digits (s : string) : Z :=
  fold_left (fun acc c => 10 * acc + (Z.of_nat (nat_of_ascii c) - 48))
            (chars s) 0.

End JsString.

(** ** The key service: class [ApiKeyService] *)

Module ApiKeyService.
Import JsString.

Definition GEMINI_DEFAULT_API_BASE_URL : string :=
  "https://generativelanguage.googleapis.com".

(** The mutable fields of the singleton [apiKeyService]. *)
Record t : Type := mk {
  userApiKeys : list string;
  hasEnvKey : bool;
  currentKeyIndex : Z;
  apiBaseUrl : string
}.

Definition is_key_sep (c : ascii) : bool :=
  let n := nat_of_ascii c in (n =? 10)%nat || (n =? 44)%nat.

(** [parseKeys]: split on runs of newlines and commas, trim, drop the
    empty pieces. *)
Definition parseKeys (keysString : string) : list string :=
  if truthy keysString
  then filter (fun k => (0 <? str_length k)%nat = true)
              (map trim (split_runs is_key_sep keysString))
  else [].

(** The constructor: [envKey] is [process.env.API_KEY], [storedKeys] and
    [storedBaseUrl] are the two entries of the local storage, [None]
    when absent or when the storage cannot be read. *)
Definition new (envKey storedKeys storedBaseUrl : option string) : t :=
  let env := match envKey with Some k => truthy k | None => false end in
  {| userApiKeys :=
       if env then parseKeys (default "" envKey)
       else parseKeys (default "" storedKeys);
     hasEnvKey := env;
     currentKeyIndex := -1;
     apiBaseUrl :=
       match storedBaseUrl with
       | Some u => if truthy u then u else GEMINI_DEFAULT_API_BASE_URL
       | None => GEMINI_DEFAULT_API_BASE_URL
       end |}.

Definition getApiKeys (s : t) : list string := userApiKeys s.
Definition isEnvKey (s : t) : bool := hasEnvKey s.
Definition getApiBaseUrl (s : t) : string := apiBaseUrl s.

(** [keys[i]] for an integer [i]: [undefined] outside the array. *)
Definition js_index {A} (keys : list A) (i : Z) : option A :=
  if i <? 0 then None else keys !! Z.to_nat i.

(** [getNextApiKey]: the returned key (or [undefined]) and the new
    state.  [%] is the truncating remainder of the host, [Z.rem]. *)
Definition getNextApiKey (s : t) : option string * t :=
  let keys := getApiKeys s in
  if (length keys =? 0)%nat then (None, s)
  else
    let i := Z.rem (currentKeyIndex s + 1) (Z.of_nat (length keys)) in
    (js_index keys i,
     {| userApiKeys := userApiKeys s; hasEnvKey := hasEnvKey s;
        currentKeyIndex := i; apiBaseUrl := apiBaseUrl s |}).

(** [setApiKeys]: the pool is replaced as a whole, the cursor is left
    where it is; nothing happens when the key comes from the
    environment. *)
Definition setApiKeys (keysString : string) (s : t) : t :=
  if isEnvKey s then s
  else {| userApiKeys := parseKeys keysString; hasEnvKey := hasEnvKey s;
          currentKeyIndex := currentKeyIndex s;
          apiBaseUrl := apiBaseUrl s |}.

Definition reset (s : t) : t :=
  {| userApiKeys := userApiKeys s; hasEnvKey := hasEnvKey s;
     currentKeyIndex := -1; apiBaseUrl := apiBaseUrl s |}.

(** [n] consecutive calls of [getNextApiKey]: the values returned, in
    order, and the final state. *)
Fixpoint nextKeys (n : nat) (s : t) : list (option string) * t :=
  match n with
  | O => ([], s)
  | S n' =>
      let '(k, s1) := getNextApiKey s in
      let '(ks, s2) := nextKeys n' s1 in
      (k :: ks, s2)
  end.

(** The states the service can be in: built by the constructor, then
    changed by its three mutating methods in any order. *)
Inductive reachable : t -> Prop :=
| reach_new envKey storedKeys storedBaseUrl :
    reachable (new envKey storedKeys storedBaseUrl)
| reach_next s : reachable s -> reachable (snd (getNextApiKey s))
| reach_set keysString s : reachable s -> reachable (setApiKeys keysString s)
| reach_reset s : reachable s -> reachable (reset s).

(** How often [key] occurs in a list of returned values. *)
Definition served (key : string) (out : list (option string)) : nat :=
  length (filter (fun o => o = Some key) out).

Definition occurrences (key : string) (pool : list string) : nat :=
  length (filter (fun k => k = key) pool).

(** The position served by the next call. *)
Definition nextPos (s : t) : nat :=
  Z.to_nat (Z.rem (currentKeyIndex s + 1) (Z.of_nat (length (getApiKeys s)))).

(** Three keys, two calls, then the pool is replaced by a single key:
    the cursor (1) is past the end of the new pool. *)
Definition shrunk_service : t :=
  setApiKeys "only"
    (snd (getNextApiKey (snd (getNextApiKey
       (new None (Some "k1,k2
 k3") None))))).

Definition three_keys : t := new None (Some "k1,k2
 k3") None.

End ApiKeyService.

(** ** Untyped values: what [JSON.parse] returns *)

Module Json.

#[local] Set Warnings "-register-all".

Inductive t : Type :=
| JNull
| JBool (b : bool)
| JNum (literal : string)            (* a number, by its JSON text *)
| JStr (s : string)
| JArr (items : list t)
| JObj (fields : list (string * t)). (* own properties, in order *)

(** [o[key]] on the properties of an object: [None] is [undefined]. *)
Fixpoint get (key : string) (fields : list (string * t)) : option t :=
  match fields with
  | [] => None
  | (k, v) :: rest => if String.eqb k key then Some v else get key rest
  end.

(** [raw.key] for any value [raw] that passed [typeof raw === 'object']:
    arrays have no such property. *)
Definition prop (key : string) (raw : t) : option t :=
  match raw with
  | JObj fields => get key fields
  | _ => None
  end.

(** The number a JSON literal denotes is zero: its digits are all 0,
    or it is so small that the nearest double is 0 (at most [2^-1075]). *)
Definition number_is_zero (literal : string) : bool :=
  let cs := JsString.chars literal in
  let cs := match cs with
            | c :: r => if (nat_of_ascii c =? 45)%nat then r else cs
            | [] => cs
            end in
  let int := JsString.take_while JsString.is_digit cs in
  let rest := JsString.drop_while JsString.is_digit cs in
  let frac := match rest with
              | c :: r => if (nat_of_ascii c =? 46)%nat
                          then JsString.take_while JsString.is_digit r else []
              | [] => []
              end in
  let rest := match rest with
              | c :: r => if (nat_of_ascii c =? 46)%nat
                          then JsString.drop_while JsString.is_digit r else rest
              | [] => []
              end in
  let exponent :=
    match rest with
    | _ :: c :: r =>
        if (nat_of_ascii c =? 45)%nat
        then - JsString.parseInt_digits (JsString.of_chars r)
        else if (nat_of_ascii c =? 43)%nat
        then JsString.parseInt_digits (JsString.of_chars r)
        else JsString.parseInt_digits (JsString.of_chars (c :: r))
    | _ => 0
    end in
  let m := JsString.parseInt_digits (JsString.of_chars (int ++ frac)) in
  let e := exponent - Z.of_nat (length frac) in
  (m =? 0) || ((e <? 0) && (m * 2 ^ 1075 <=? 10 ^ (- e))).

(** Whether a parsed value is truthy. *)
Definition to_boolean (v : t) : bool :=
  match v with
  | JNull => false
  | JBool b => b
  | JNum literal => negb (number_is_zero literal)
  | JStr s => JsString.truthy s
  | JArr _ | JObj _ => true
  end.

End Json.

(** ** The model client: the two retrying executors *)

Module Executor.
Import JsString ApiKeyService.

(** The two places of an error reply, [errorData =
    JSON.parse(responseText)], that the executor reads.
    [error_message] is [errorData?.error?.message] when that value is
    truthy, as the text [new Error] makes of it, and [None] when it is
    falsy; [error_details] is [errorData?.error?.details], whatever
    value the reply put there, and [None] when it is [undefined]. *)
Record ErrorBody : Type := mkErrorBody {
  error_message : option string;
  error_details : option Json.t
}.

(** The error objects caught by the retry loops: [error.message],
    [error.status] and the decoded body of the error reply the object
    carries ([error.data] in [executeWithRetry], the only place where it
    is read). *)
Record ApiError : Type := mkApiError {
  message : string;
  status : option Z;
  data : option ErrorBody
}.

Record Response : Type := mkResponse { text : string }.

Inductive Exception : Type :=
| NoApiKeysError
| InvalidRequestError
| AllKeysFailedError (msg : string)
| TypeError.   (* thrown by the host inside the catch block *)

Inductive Event : Type :=
| EvAttempt (attempt : Z) (key : string)   (* one pass through the try block *)
| EvFailed (attempt : Z) (error : ApiError) (* lastError = error *)
| EvSleep (delayMs : Z)                    (* await setTimeout(delayMs) *)
| EvReset.                                 (* apiKeyService.reset() *)

Definition RETRY_INFO : string := "type.googleapis.com/google.rpc.RetryInfo".

(** What one pass through the body of the loop amounts to. *)
Inductive AttemptResult : Type :=
| Succeeded (r : Response)
| Failed (e : ApiError) (sleep : option Z)
| Threw (e : ApiError).   (* the catch block itself throws *)

Section WithHost.
(** [JSON.parse(m)?.error?.message] rendered as text, when [m] parses
    and that field is truthy. *)
Variable json_error_message : string -> option string.

(** [getCleanErrorMessage] on [null] and on the error objects above. *)
Definition getCleanErrorMessage (error : option ApiError) : string :=
  match error with
  | None => "An unknown error occurred."
  | Some e =>
      if truthy (message e)
      then match json_error_message (message e) with
           | Some m => m
           | None => message e
           end
      else message e
  end.

(** [Math.floor((attempt - 1) / keys.length) + 1] *)
Definition currentCycle (attempt keyCount : Z) : Z :=
  (attempt - 1) / keyCount + 1.

(** *** [executeWithRetry] (Gemini, over [fetch]) *)

(** What the network gives back to one [fetch]. *)
Inductive GeminiReply : Type :=
| FetchThrows (msg : string)
    (* fetch or response.text() rejects *)
| HttpError (code : Z) (responseText : string) (errorData : option ErrorBody)
    (* !response.ok; errorData is None when the text is not JSON *)
| HttpOkNotJson (syntaxError : string)
    (* response.ok, JSON.parse(responseText) throws *)
| HttpOk (firstText : option string).
    (* response.ok; result?.candidates?.[0]?.content?.parts?.[0]?.text *)

(** The try block, lines 254-289: a response or the error thrown. *)
Definition gemini_try (r : GeminiReply) : Response + ApiError :=
  match r with
  | FetchThrows msg =>
      inr {| message := msg; status := None; data := None |}
  | HttpError code responseText None =>
      inr {| message := "API Error: " ++ pretty code ++ " - " ++ responseText;
             status := Some code; data := None |}
  | HttpError code _ (Some errorData) =>
      inr {| message :=
               match error_message errorData with
               | Some m => m
               | None => "API Error: " ++ pretty code
               end;
             status := Some code; data := Some errorData |}
  | HttpOkNotJson syntaxError =>
      inr {| message := syntaxError; status := None; data := None |}
  | HttpOk firstText =>
      inl {| text := default "" firstText |}
  end.

(** [d['@type'] === RETRY_INFO]; [None] when reading the property
    throws, which it does on [null]. *)
Definition is_retryInfo (d : Json.t) : option bool :=
  match d with
  | Json.JNull => None
  | Json.JObj fields =>
      Some (match Json.get "@type" fields with
            | Some (Json.JStr s) => String.eqb s RETRY_INFO
            | _ => false
            end)
  | _ => Some false
  end.

(** [details.find(d => d['@type'] === RETRY_INFO)] on an array. *)
Fixpoint find_entry (details : list Json.t) : option (option Json.t) :=
  match details with
  | [] => Some None
  | d :: rest =>
      match is_retryInfo d with
      | None => None
      | Some true => Some (Some d)
      | Some false => find_entry rest
      end
  end.

(** [error.data?.error?.details?.find(d => d['@type'] === RETRY_INFO)]:
    [Some None] is [undefined], [None] a [TypeError]; only an array has
    a [find] to call. *)
Definition find_retryInfo (e : ApiError) : option (option Json.t) :=
  match data e with
  | Some body =>
      match error_details body with
      | None | Some Json.JNull => Some None
      | Some (Json.JArr details) => find_entry details
      | Some _ => None
      end
  | None => Some None
  end.

(** The delay computed in the catch block, lines 298-314; [None] when
    the block throws a [TypeError]: only a string has a [match] to
    call. *)
Definition gemini_delayMs (attempt keyCount : Z) (e : ApiError) : option Z :=
  let delayMs := 2000 * currentCycle attempt keyCount in
  match find_retryInfo e with
  | None => None
  | Some None => Some delayMs
  | Some (Some retryInfo) =>
      match Json.prop "retryDelay" retryInfo with
      | Some retryDelay =>
          if Json.to_boolean retryDelay
          then match retryDelay with
               | Json.JStr rd =>
                   match first_digits rd with
                   | Some secondsMatch =>
                       let delaySeconds := parseInt_digits secondsMatch in
                       Some (delaySeconds * 1000 + 500)
                   | None => Some delayMs
                   end
               | _ => None
               end
          else Some delayMs
      | None => Some delayMs
      end
  end.

Definition gemini_attempt (upstream : Z -> string -> GeminiReply)
           (keyCount : Z) (attempt : Z) (key : string) : AttemptResult :=
  match gemini_try (upstream attempt key) with
  | inl r => Succeeded r
  | inr e =>
      if decide (status e = Some 429)
      then match gemini_delayMs attempt keyCount e with
           | Some delayMs => Failed e (Some delayMs)
           | None => Threw e
           end
      else Failed e None
  end.

(** *** [executeOpenRouterWithRetry] (OpenAI client, then [/completions]) *)

(** What one attempt meets upstream: the chat call answers or throws;
    when it throws, the [/completions] call answers with a text or
    fails in any way (its error is only logged). *)
Inductive OpenRouterReply : Type :=
| ChatOk (content : option string)
| ChatThrows (error : ApiError) (completions : option string).

Definition openrouter_attempt (upstream : Z -> string -> OpenRouterReply)
           (keyCount : Z) (attempt : Z) (key : string) : AttemptResult :=
  match upstream attempt key with
  | ChatOk content => Succeeded {| text := default "" content |}
  | ChatThrows error (Some completionText) =>
      Succeeded {| text := completionText |}
  | ChatThrows error None =>
      Failed error (if decide (status error = Some 429)
                    then Some (2000 * currentCycle attempt keyCount)
                    else None)
  end.

(** *** The loop shared by both executors

    [for (let attempt = 1; attempt <= maxAttempts; attempt++)], with
    [fuel] the number of iterations left. *)
Fixpoint retry_loop (body : Z -> string -> AttemptResult)
         (fuel : nat) (attempt : Z) (svc : ApiKeyService.t)
         (lastError : option ApiError)
  : list Event * (Response + Exception) * ApiKeyService.t :=
  match fuel with
  | O =>
      ([], inr (AllKeysFailedError
                  ("All API keys failed. Last error: "
                     ++ getCleanErrorMessage lastError)), svc)
  | S fuel' =>
      let '(key, svc1) := getNextApiKey svc in
      match key with
      | None => retry_loop body fuel' (attempt + 1) svc1 lastError
      | Some k =>
          if truthy k then
            match body attempt k with
            | Succeeded r =>
                ([EvAttempt attempt k; EvReset], inl r, reset svc1)
            | Failed e sleep =>
                let '(evs, res, svc2) :=
                  retry_loop body fuel' (attempt + 1) svc1 (Some e) in
                (EvAttempt attempt k :: EvFailed attempt e
                   :: match sleep with
                      | Some d => EvSleep d :: evs
                      | None => evs
                      end,
                 res, svc2)
            | Threw e =>
                ([EvAttempt attempt k; EvFailed attempt e], inr TypeError, svc1)
            end
          else retry_loop body fuel' (attempt + 1) svc1 lastError
      end
  end.

Definition maxRetriesPerKeyCycle : nat := 3.

(** The property names every object inherits from [Object.prototype]. *)
Definition OBJECT_PROTOTYPE : list string :=
  [ "constructor"; "hasOwnProperty"; "isPrototypeOf"; "propertyIsEnumerable";
    "toLocaleString"; "toString"; "valueOf"; "__proto__";
    "__defineGetter__"; "__defineSetter__"; "__lookupGetter__";
    "__lookupSetter__" ].

(** [operationToRestMethod[operationName]] is truthy: the table has the
    one own entry and, being a plain object, the inherited ones. *)
Definition has_rest_method (operationName : string) : bool :=
  String.eqb operationName "generateContent"
  || existsb (String.eqb operationName) OBJECT_PROTOTYPE.

Definition executeWithRetry (operationName modelName : string)
           (upstream : Z -> string -> GeminiReply) (svc : ApiKeyService.t)
  : list Event * (Response + Exception) * ApiKeyService.t :=
  let keys := getApiKeys svc in
  if (length keys =? 0)%nat then ([], inr NoApiKeysError, svc)
  else
    let maxAttempts := (length keys * maxRetriesPerKeyCycle)%nat in
    if negb (truthy modelName) || negb (has_rest_method operationName)
    then ([], inr InvalidRequestError, svc)
    else retry_loop (gemini_attempt upstream (Z.of_nat (length keys)))
                    maxAttempts 1 svc None.

Definition executeOpenRouterWithRetry
           (upstream : Z -> string -> OpenRouterReply) (svc : ApiKeyService.t)
  : list Event * (Response + Exception) * ApiKeyService.t :=
  let keys := getApiKeys svc in
  if (length keys =? 0)%nat then ([], inr NoApiKeysError, svc)
  else
    let maxAttempts := (length keys * maxRetriesPerKeyCycle)%nat in
    retry_loop (openrouter_attempt upstream (Z.of_nat (length keys)))
               maxAttempts 1 svc None.

End WithHost.

(** Observations on a trace of events. *)
Definition attempts (evs : list Event) : list (Z * string) :=
  omap (fun ev => match ev with EvAttempt a k => Some (a, k) | _ => None end) evs.

Definition failures (evs : list Event) : list ApiError :=
  omap (fun ev => match ev with EvFailed _ e => Some e | _ => None end) evs.

(** The sleep that follows the failure of attempt [a], if any: the
    event right after [EvFailed a _]. *)
Fixpoint sleep_after (a : Z) (evs : list Event) : option Z :=
  match evs with
  | EvFailed a' _ :: rest =>
      if Z.eqb a a'
      then match rest with EvSleep d :: _ => Some d | _ => None end
      else sleep_after a rest
  | _ :: rest => sleep_after a rest
  | [] => None
  end.

(** The events of a run. *)
Definition events (out : list Event * (Response + Exception) * ApiKeyService.t)
  : list Event := fst (fst out).

(** The whole seconds announced by the [RetryInfo] entry of the payload
    of [e], when there is one and its [retryDelay] has a digit. *)
Definition retry_after_seconds (e : ApiError) : option Z :=
  match find_retryInfo e with
  | Some (Some retryInfo) =>
      match Json.prop "retryDelay" retryInfo with
      | Some (Json.JStr rd) => option_map parseInt_digits (first_digits rd)
      | _ => None
      end
  | _ => None
  end.

(** The backoff in the words of the specification: the announced
    retry-after duration plus 500ms when the payload carries one,
    [2000ms * cycle] otherwise. *)
Definition specified_delayMs (attempt keyCount : Z) (e : ApiError) : Z :=
  match retry_after_seconds e with
  | Some seconds => seconds * 1000 + 500
  | None => 2000 * currentCycle attempt keyCount
  end.


(** An entry of [details] as [google.rpc.Status] has them: an object
    whose [retryDelay], when it has one, is a string. *)
Definition detail_ok (d : Json.t) : bool :=
  match d with
  | Json.JObj fields =>
      match Json.get "retryDelay" fields with
      | Some (Json.JStr _) | None => true
      | Some _ => false
      end
  | _ => false
  end.

(** The payload of [e] has the shape of [google.rpc.Status] where the
    executor reads it: [details] is absent, [null] or an array of such
    entries. *)
Definition retry_info_well_formed (e : ApiError) : bool :=
  match data e with
  | Some body =>
      match error_details body with
      | None | Some Json.JNull => true
      | Some (Json.JArr details) => forallb detail_ok details
      | Some _ => false
      end
  | None => true
  end.


Definition pool_ok (s : ApiKeyService.t) : Prop :=
  -1 <= currentKeyIndex s /\ getApiKeys s <> [] /\
  Forall (fun k => truthy k = true) (getApiKeys s).

Definition last_or (lastError : option ApiError) (errs : list ApiError)
  : option ApiError :=
  match last errs with Some e => Some e | None => lastError end.

Definition no_leading_sleep (evs : list Event) : Prop :=
  match evs with EvSleep _ :: _ => False | _ => True end.

Definition always_429 : Z -> string -> GeminiReply :=
  fun _ _ => HttpError 429 "{}"
               (Some {| error_message := Some "Quota exceeded";
                        error_details := None |}).

Definition chat_always_429 : Z -> string -> OpenRouterReply :=
  fun _ _ => ChatThrows {| message := "429 Rate limited";
                           status := Some 429; data := None |} None.





(** A 429 whose payload announces the retry delay as a number of
    seconds. *)
Definition retry_in_30 : ErrorBody :=
  {| error_message := Some "Resource exhausted";
     error_details :=
       Some (Json.JArr [ Json.JObj [ ("@type", Json.JStr RETRY_INFO);
                                     ("retryDelay", Json.JNum "30") ] ]) |}.

Definition gemini_429_retry_in_30 : Z -> string -> GeminiReply :=
  fun _ _ => HttpError 429 "{...}" (Some retry_in_30).

End Executor.

(** ** The planner *)

Module Planner.
Import JsString Json.

Record PlannerTurn : Type := mkPlannerTurn {
  thought : string;
  action : string;
  queries : option (list string);
  finish_reason : option string
}.

Definition allowed : list string := ["search"; "continue_debate"; "finish"].

Section WithStringify.
(** [JSON.stringify] on parsed JSON values (it neither throws nor
    returns [undefined] on them). *)
Variable stringify : Json.t -> string.

(** [typeof q === 'string' ? q : JSON.stringify(q)] *)
Definition coerce (q : Json.t) : string :=
  match q with
  | JStr s => s
  | _ => stringify q
  end.

(** [sanitizePlannerTurn]; [raw = None] is [null], the value
    [parseJsonFromMarkdown] returns when it finds no JSON. *)
Definition sanitizePlannerTurn (raw : option Json.t) : option PlannerTurn :=
  match raw with
  | Some (JObj _ as raw) | Some (JArr _ as raw) =>
      match prop "thought" raw with
      | None | Some JNull => None
      | Some rawThought =>
          let thought := coerce rawThought in
          let rawAction :=
            match prop "action" raw with
            | Some (JStr a) => toLowerCase (trim a)
            | _ => ""
            end in
          let action :=
            if existsb (String.eqb rawAction) allowed
            then rawAction else "continue_debate" in
          let queries :=
            match prop "queries" raw with
            | Some (JArr qs) =>
                let qs' :=
                  firstn 4
                    (List.filter (fun q => (0 <? str_length q)%nat)
                       (map trim (map coerce qs))) in
                if (length qs' =? 0)%nat then None else Some qs'
            | _ => None
            end in
          let finish_reason :=
            match prop "finish_reason" raw with
            | None | Some JNull => None
            | Some r => Some (coerce r)
            end in
          Some {| thought := thought; action := action;
                  queries := queries; finish_reason := finish_reason |}
      end
  | _ => None   (* !raw || typeof raw !== 'object' *)
  end.

Inductive AgentPersona : Type := Alpha | Beta.

Definition persona_name (p : AgentPersona) : string :=
  match p with Alpha => "Alpha" | Beta => "Beta" end.

(** [(p === 'Alpha') ? 'Beta' : 'Alpha'] *)
Definition other (p : AgentPersona) : AgentPersona :=
  match p with Alpha => Beta | Beta => Alpha end.

Inductive UpdateType : Type := TThought | TSearch | TRead | TOther.

Record ResearchUpdate : Type := mkUpdate {
  id : Z;
  type : UpdateType;
  persona : option AgentPersona;
  content : string
}.

Record ResearchParams : Type := mkParams {
  minCycles : Z;
  maxCycles : Z;
  maxDebateRounds : Z
}.

Record PlannerResult : Type := mkResult {
  search_queries : list string;
  should_finish : bool;
  result_reason : option string        (* finish_reason *)
}.

(** What one turn of the loop gets from outside. *)
Inductive TurnInput : Type :=
| ThrowsBeforeReply
    (* checkSignal() at the top of the loop, generateContent() or the
       checkSignal() after it throws *)
| Reply (text : string) (rawParsed : option Json.t) (cancelled : bool).
    (* response.text || '', parseJsonFromMarkdown of it, and whether
       the checkSignal() that follows the pacing delay throws *)

(** The variables of the loop. *)
Record State : Type := mkState {
  nextPersona : AgentPersona;
  debateTurns : nat;
  consecutiveFinishAttempts : nat;
  currentConversation : list (AgentPersona * string);
  idCounter : Z
}.

(** The call [onUpdate({ id: idCounter.current++, type: 'thought', ... })]. *)
Definition emit (st : State) (p : option AgentPersona) (c : string)
  : ResearchUpdate * State :=
  ({| id := idCounter st; type := TThought; persona := p; content := c |},
   {| nextPersona := nextPersona st; debateTurns := debateTurns st;
      consecutiveFinishAttempts := consecutiveFinishAttempts st;
      currentConversation := currentConversation st;
      idCounter := idCounter st + 1 |}).

Definition say (st : State) (c : string) : ResearchUpdate * State :=
  let '(u, st1) := emit st (Some (nextPersona st)) c in
  (u, {| nextPersona := nextPersona st1; debateTurns := debateTurns st1;
         consecutiveFinishAttempts := consecutiveFinishAttempts st1;
         currentConversation :=
           currentConversation st1 ++ [(nextPersona st, c)];
         idCounter := idCounter st1 |}).

Definition flip (st : State) : State :=
  {| nextPersona := other (nextPersona st); debateTurns := debateTurns st;
     consecutiveFinishAttempts := consecutiveFinishAttempts st;
     currentConversation := currentConversation st;
     idCounter := idCounter st |}.

Definition set_finishes (n : nat) (st : State) : State :=
  {| nextPersona := nextPersona st; debateTurns := debateTurns st;
     consecutiveFinishAttempts := n;
     currentConversation := currentConversation st;
     idCounter := idCounter st |}.

Definition count_turn (st : State) : State :=
  {| nextPersona := nextPersona st; debateTurns := S (debateTurns st);
     consecutiveFinishAttempts := consecutiveFinishAttempts st;
     currentConversation := currentConversation st;
     idCounter := idCounter st |}.

Inductive Step : Type :=
| Continue (st : State)
| Return (r : PlannerResult) (st : State)
| Throw (st : State).

Definition step_state (s : Step) : State :=
  match s with Continue st | Return _ st | Throw st => st end.

Definition TIMED_OUT : string := "Planning debate timed out.".

(** Lines 330-336: count the consecutive [finish] decisions. *)
Definition count_finish (action : string) (st : State) : State :=
  if String.eqb action "finish"
  then set_finishes (S (consecutiveFinishAttempts st)) st
  else set_finishes 0 st.

(** Lines 338-348, the minimum-cycle rule: the notice emitted, the
    effective action and the state. *)
Definition enforce_min_cycles (params : ResearchParams) (searchCycles : Z)
           (action : string) (st : State)
  : list ResearchUpdate * string * State :=
  if String.eqb action "finish" && (searchCycles <? minCycles params)
  then
    if (2 <=? consecutiveFinishAttempts st)%nat
    then
      let '(n, st1) :=
        emit st None
          "Agent consensus to finish has been detected. Overriding the minimum cycle rule to conclude research." in
      ([n], action, st1)
    else
      let '(n, st1) :=
        emit st (Some (nextPersona st))
          ("Rule violation: Cannot finish before "
             ++ pretty (minCycles params)
             ++ " search cycles. Forcing debate to continue.") in
      ([n], "continue_debate", st1)
  else ([], action, st).

(** Lines 350-359: return or go on with the other persona. *)
Definition act (parsed : PlannerTurn) (effectiveAction : string) (st : State)
  : Step :=
  if String.eqb effectiveAction "finish" then
    Return {| search_queries := []; should_finish := true;
              result_reason :=
                Some (match finish_reason parsed with
                      | Some r =>
                          if truthy r then r
                          else persona_name (nextPersona st)
                                 ++ " decided to finish."
                      | None => persona_name (nextPersona st)
                                  ++ " decided to finish."
                      end) |} st
  else
    match String.eqb effectiveAction "search", queries parsed with
    | true, Some (q :: qs) =>
        Return {| search_queries := q :: qs; should_finish := false;
                  result_reason := None |} st
    | _, _ => Continue (flip st)
    end.

(** Line 314: the decision is used only when it has a thought and an
    action. *)
Definition usable (parsed : option PlannerTurn) : option PlannerTurn :=
  match parsed with
  | Some parsed =>
      if truthy (thought parsed) && truthy (action parsed)
      then Some parsed else None
  | None => None
  end.

(** The body of the [while] loop, lines 260-359: the updates it emits
    and how it ends. *)
Definition planner_turn (params : ResearchParams) (searchCycles : Z)
           (st : State) (input : TurnInput) : list ResearchUpdate * Step :=
  let st := count_turn st in
  match input with
  | ThrowsBeforeReply => ([], Throw st)
  | Reply text rawParsed cancelled =>
      match usable (sanitizePlannerTurn rawParsed) with
      | None =>
          let fallbackThought :=
            if truthy (trim text) then trim text
            else "Agent " ++ persona_name (nextPersona st)
                   ++ " produced non-JSON output. Proceeding with debate." in
          let '(u, st1) := say st fallbackThought in
          if cancelled then ([u], Throw st1)
          else ([u], Continue (flip st1))
      | Some parsed =>
          let '(u, st1) := say st (thought parsed) in
          if cancelled then ([u], Throw st1) else
          let st2 := count_finish (action parsed) st1 in
          let '(notice, effectiveAction, st3) :=
            enforce_min_cycles params searchCycles (action parsed) st2 in
          (u :: notice, act parsed effectiveAction st3)
      end
  end.

(** [while (debateTurns < maxDebateRounds)], with [fuel] the number of
    iterations the condition still allows, and what follows the loop.
    [inputs t] is what turn number [t] receives. *)
Fixpoint planner_loop (params : ResearchParams) (searchCycles : Z)
         (inputs : nat -> TurnInput) (fuel : nat) (st : State)
  : list ResearchUpdate * Step :=
  match fuel with
  | O =>
      let '(u, st1) :=
        emit st None
          "Debate reached maximum turns without a decision. Forcing research to conclude." in
      ([u], Return {| search_queries := []; should_finish := true;
                      result_reason := Some TIMED_OUT |} st1)
  | S fuel' =>
      let '(us, step) :=
        planner_turn params searchCycles st (inputs (S (debateTurns st))) in
      match step with
      | Continue st1 =>
          let '(us', step') :=
            planner_loop params searchCycles inputs fuel' st1 in
          ((us ++ us')%list, step')
      | _ => (us, step)
      end
  end.

(** The reconstruction of the conversation from the tail of the log,
    lines 241-253: the longest suffix of persona-attributed thoughts. *)
Definition is_turn (u : ResearchUpdate) : option (AgentPersona * string) :=
  match type u, persona u with
  | TThought, Some p => Some (p, content u)
  | _, _ => None
  end.

Fixpoint tail_rev (rev_history : list ResearchUpdate)
  : list (AgentPersona * string) :=
  match rev_history with
  | [] => []
  | u :: rest =>
      match is_turn u with
      | Some t => t :: tail_rev rest
      | None => []
      end
  end.

Definition reconstruct (researchHistory : list ResearchUpdate)
  : list (AgentPersona * string) :=
  rev (tail_rev (rev researchHistory)).

(** [lastPersona]: the persona of the last entry of the tail. *)
Definition lastPersona (researchHistory : list ResearchUpdate)
  : option AgentPersona :=
  option_map fst (head (tail_rev (rev researchHistory))).

Definition initial (researchHistory : list ResearchUpdate) (idCounter0 : Z)
  : State :=
  let currentConversation := reconstruct researchHistory in
  {| nextPersona :=
       match lastPersona researchHistory with
       | Some Alpha => Beta
       | _ => Alpha
       end;
     debateTurns := length currentConversation;
     consecutiveFinishAttempts := 0;
     currentConversation := currentConversation;
     idCounter := idCounter0 |}.

(** The iterations [while (debateTurns < maxDebateRounds)] allows from
    [debateTurns] on. *)
Definition rounds_left (params : ResearchParams) (debateTurns : nat) : nat :=
  Z.to_nat (maxDebateRounds params - Z.of_nat debateTurns).

Definition runDynamicConversationalPlanner
           (researchHistory : list ResearchUpdate) (idCounter0 : Z)
           (params : ResearchParams) (searchCycles : Z)
           (inputs : nat -> TurnInput)
  : list ResearchUpdate * Step :=
  let st := initial researchHistory idCounter0 in
  planner_loop params searchCycles inputs
               (rounds_left params (debateTurns st)) st.

End WithStringify.

(** Observations on a run. *)

(** The turns made by the call: the iterations of the loop entered. *)
Definition turns_made (researchHistory : list ResearchUpdate)
           (out : list ResearchUpdate * Step) : nat :=
  debateTurns (step_state (snd out)) - length (reconstruct researchHistory).

(** The personas of the persona-attributed thoughts of a stream. *)
Definition speakers (us : list ResearchUpdate) : list AgentPersona :=
  omap (fun u => match type u with TThought => persona u | _ => None end) us.

(** No two neighbours are equal. *)
Fixpoint alternating (ps : list AgentPersona) : Prop :=
  match ps with
  | p :: ((q :: _) as rest) => p <> q /\ alternating rest
  | _ => True
  end.

(** The shape of a sanitized list of queries. *)
Definition queries_ok (qs : option (list string)) : Prop :=
  match qs with
  | None => True
  | Some l =>
      (1 <= length l <= 4)%nat /\
      Forall (fun q => q <> "" /\ trim q = q) l
  end.

(** The action the decision asks for, when it names one of the three. *)
Definition recognized (raw : Json.t) : option string :=
  match prop "action" raw with
  | Some (JStr a) =>
      if existsb (String.eqb (toLowerCase (trim a))) allowed
      then Some (toLowerCase (trim a)) else None
  | _ => None
  end.

(** The four normalisations, one by one. *)
Definition rawAction (raw : Json.t) : string :=
  match prop "action" raw with
  | Some (JStr a) => toLowerCase (trim a)
  | _ => ""
  end.

Definition timed_out : PlannerResult :=
  {| search_queries := []; should_finish := true;
     result_reason := Some "Planning debate timed out." |}.

(** A turn that decides [continue_debate]: the reply parses, sanitizes to
    a decision with a non-empty thought and that action, and the run is
    not cancelled. *)
Definition decides_continue (stringify : Json.t -> string) (input : TurnInput)
  : Prop :=
  exists text raw d,
    input = Reply text raw false /\
    sanitizePlannerTurn stringify raw = Some d /\
    truthy (thought d) = true /\ action d = "continue_debate".

(** Twenty rounds, an empty log, two agents that always want to go on. *)
Definition default_params : ResearchParams :=
  {| minCycles := 7; maxCycles := 20; maxDebateRounds := 20 |}.

Definition keep_going : nat -> TurnInput :=
  fun _ => Reply "{...}"
             (Some (JObj [("thought", JStr "More evidence is needed.");
                          ("action", JStr "continue_debate")]))
             false.

(** The decision a turn acts on: the sanitized reply, when it is usable
    (line 314); a turn that throws or falls back on the raw text has
    none. *)
Definition decision_of (stringify : Json.t -> string) (input : TurnInput)
  : option PlannerTurn :=
  match input with
  | Reply _ rawParsed _ => usable (sanitizePlannerTurn stringify rawParsed)
  | ThrowsBeforeReply => None
  end.

Definition rule_violation (params : ResearchParams) : string :=
  "Rule violation: Cannot finish before " ++ pretty (minCycles params)
    ++ " search cycles. Forcing debate to continue.".

(** The scenario of the specification: [minCycles = 7],
    [searchCycles = 3], two [finish] decisions in a row. *)
Definition finish_json : option Json.t :=
  Some (JObj [("thought", JStr "We know enough.");
              ("action", JStr "finish");
              ("finish_reason", JStr "Sources agree.")]).

Definition finish_decision : PlannerTurn :=
  {| thought := "We know enough."; action := "finish"; queries := None;
     finish_reason := Some "Sources agree." |}.

Definition wants_to_finish : TurnInput := Reply "{...}" finish_json false.

Definition after_first_finish : State :=
  step_state (snd (planner_turn (fun _ => "") default_params 3
                                (initial [] 0) wants_to_finish)).

(** [n] personas in turn, starting with [p]. *)
Fixpoint alt_seq (p : AgentPersona) (n : nat) : list AgentPersona :=
  match n with
  | O => []
  | S n' => p :: alt_seq (other p) n'
  end.

(** The speakers of a stream in which every turn of [ps] is a thought of
    its persona, followed, where the mark says so, by a notice under the
    same persona. *)
Fixpoint expand (ps : list AgentPersona) (marks : list bool)
  : list AgentPersona :=
  match ps, marks with
  | p :: ps', b :: marks' =>
      (if b : bool then [p; p] else [p]) ++ expand ps' marks'
  | _, _ => []
  end.

(** No turn ends the debate: whatever the state, the body of the loop
    falls through to the next iteration. *)
Definition keeps_debating (stringify : Json.t -> string)
           (params : ResearchParams) (searchCycles : Z)
           (inputs : nat -> TurnInput) : Prop :=
  forall t st, exists us st',
    planner_turn stringify params searchCycles st (inputs t)
    = (us, Continue st').

(** The counter [consecutiveFinishAttempts] after the turns numbered
    [first + 1] to [first + k] of a call, when they all went on: it is
    read off the decisions of these turns. *)
Fixpoint finish_attempts (stringify : Json.t -> string)
         (inputs : nat -> TurnInput) (first k : nat) : nat :=
  match k with
  | O => O
  | S k' =>
      match decision_of stringify (inputs (first + S k')%nat) with
      | Some d =>
          if String.eqb (action d) "finish"
          then S (finish_attempts stringify inputs first k')
          else O
      | None => finish_attempts stringify inputs first k'
      end
  end.

(** No exception and no decision ends the debate in this turn: nothing
    throws, and the decision the turn acts on, if it has one, is neither
    a [search] with queries nor a [finish], except a [finish] below the
    floor that follows no other [finish] ([finishesBefore] is the counter
    of [finish] decisions in a row before the turn). *)
Definition hands_over (stringify : Json.t -> string) (params : ResearchParams)
           (searchCycles : Z) (finishesBefore : nat) (input : TurnInput)
  : bool :=
  match input with
  | ThrowsBeforeReply => false
  | Reply _ _ true => false
  | Reply _ _ false =>
      match decision_of stringify input with
      | None => true
      | Some d =>
          if String.eqb (action d) "finish"
          then (searchCycles <? minCycles params) && (finishesBefore =? 0)%nat
          else if String.eqb (action d) "search"
               then match queries d with Some (_ :: _) => false | _ => true end
               else true
      end
  end.

(** Below the floor, one agent wants to finish and the other to go on,
    turn after turn. *)
Definition finish_and_continue : nat -> TurnInput :=
  fun t => if Nat.odd t then wants_to_finish else keep_going t.

(** The sanitized decision of a reply, usable or not. *)
Definition sanitized (stringify : Json.t -> string) (input : TurnInput)
  : option PlannerTurn :=
  match input with
  | Reply _ rawParsed _ => sanitizePlannerTurn stringify rawParsed
  | ThrowsBeforeReply => None
  end.

(** A [finish] decision whose thought is the empty string. *)
Definition finish_without_thought : TurnInput :=
  Reply "{...}"
        (Some (JObj [("thought", JStr ""); ("action", JStr "finish")]))
        false.

Definition thoughtless_finish_first : nat -> TurnInput :=
  fun t => if (t =? 1)%nat then finish_without_thought else wants_to_finish.

(** The escape valve in the words of the specification, for a call on
    an empty log whose first two replies sanitize to [finish]: the second
    one is honored, so the call returns in its second turn. *)
(** The reason a call reports when it returns. *)
Definition result_reason_of (out : list ResearchUpdate * Step)
  : option string :=
  match snd out with
  | Return r _ => result_reason r
  | _ => None
  end.

Definition second_finish_honored (stringify : Json.t -> string)
           (params : ResearchParams) (searchCycles : Z)
           (inputs : nat -> TurnInput) : Prop :=
  let out := runDynamicConversationalPlanner stringify [] 0 params
               searchCycles inputs in
  turns_made [] out = 2%nat
  /\ exists r st, snd out = Return r st /\ should_finish r = true.

End Planner.

(** ** The web search service *)

Module WebSearch.
Import JsString Json.

Record SearchResult : Type := mkSearchResult {
  title : string;
  url : string;
  snippet : string;
  source : string
}.

Record Citation : Type := mkCitation {
  c_source : string;
  c_title : string;
  c_url : string
}.

(** The part of [ProcessedQuery] that [performWebSearch] reads.  The
    search terms of the model path are whatever the model's JSON holds,
    hence untyped values. *)
Record ProcessedQuery : Type := mkProcessedQuery {
  originalQuery : string;
  searchTerms : list Json.t
}.

(** [s.split(' ')]: split at every single space. *)
Fixpoint split_spaces_go (cur : list ascii) (l : list ascii)
  : list (list ascii) :=
  match l with
  | [] => [rev cur]
  | c :: l' =>
      if Ascii.eqb c " "%char then rev cur :: split_spaces_go [] l'
      else split_spaces_go (c :: cur) l'
  end.

Definition split_spaces (s : string) : list string :=
  map of_chars (split_spaces_go [] (chars s)).

(** [s.substring(0, n)] *)
Definition substring0 (n : nat) (s : string) : string :=
  of_chars (take_units n 0 (chars s)).

Definition STOP_WORDS : list string :=
  ["please"; "write"; "prepare"; "create"; "make"; "give"; "provide"; "show";
   "tell"; "explain"; "full"; "complete"; "comprehensive"; "detailed";
   "report"; "analysis"; "how"; "what"; "when"; "where"; "why"; "the"; "and";
   "for"; "with"].

(** The manual extraction of key words, lines 157-161 and 260-264. *)
Definition key_words (query : string) : list string :=
  List.filter (fun word => negb (existsb (String.eqb word) STOP_WORDS))
    (List.filter (fun word => (2 <? str_length word)%nat)
       (split_runs is_space
          (of_chars (map (fun c => if is_word c || is_space c then c
                                   else " "%char)
                         (chars (toLowerCase query)))))).

(** The search terms of the manual fallback, lines 163-176. *)
Definition manual_terms (originalQuery : string) : list string :=
  match key_words originalQuery with
  | [] => [substring0 50 originalQuery]
  | [w0] => [w0]
  | [w0; w1] => [w0; w0 ++ " " ++ w1]
  | w0 :: w1 :: w2 :: _ => [w0; w0 ++ " " ++ w1; w0 ++ " " ++ w2]
  end.

(** [processSearchQuery].  [aiResult] is the value the model path parses
    out of the reply of the model, [None] when the call or the parsing
    throws; it is only looked at for long queries. *)
Definition processSearchQuery (query : string) (aiResult : option Json.t)
  : ProcessedQuery :=
  let originalQuery := trim query in
  if (str_length originalQuery <=? 30)%nat
     && (length (split_spaces originalQuery) <=? 3)%nat
  then {| originalQuery := originalQuery;
          searchTerms := [JStr originalQuery] |}
  else
    match aiResult with
    | Some (JObj fields) =>
        match get "searchTerms" fields with
        | Some (JArr (term :: terms)) =>
            {| originalQuery := originalQuery;
               searchTerms := firstn 4 (term :: terms) |}
        | _ => (* 'Invalid AI response structure' *)
            {| originalQuery := originalQuery;
               searchTerms :=
                 map JStr (manual_terms originalQuery) |}
        end
    | _ =>
        {| originalQuery := originalQuery;
           searchTerms :=
             map JStr (manual_terms originalQuery) |}
    end.

Definition searchEngines : list string :=
  ["Wikipedia"; "Academic"; "DuckDuckGo"; "Bing"; "Reddit"; "Baidu"; "Yandex";
   "News"].

(** What one call [withTimeout(searchEngineFetcher(term, engine), 15000)]
    meets. *)
Inductive EngineOutcome : Type :=
| Found (results : list SearchResult)  (* the body of the fetcher completes *)
| Fails                                (* fetch, HTTP status or parsing throws *)
| TimesOut.                            (* the 15s timer wins the race *)

(** [searchEngineFetcher] for the eight engines: its own [catch]
    (line 518) turns every failure into the empty list. *)
Definition searchEngineFetcher (o : EngineOutcome)
  : option (list SearchResult) :=
  match o with
  | Found results => Some results
  | Fails => Some []
  | TimesOut => None                   (* still pending when the timer fires *)
  end.

(** The wrapper of lines 560-569: a timeout is caught and gives []. *)
Definition engine_results (o : EngineOutcome) : list SearchResult :=
  match searchEngineFetcher o with
  | Some results => results
  | None => []
  end.

(** The terms the ['Fallback'] engine makes links for, lines 260-270. *)
Definition fallback_terms (query : string) : list string :=
  let words := key_words query in
  let searchTerms :=
    match words with
    | [] => [substring0 30 query]
    | w0 :: _ => List.filter truthy [w0; join " " (firstn 2 words)]
    end in
  firstn 2 searchTerms.

Section WithHost.
(** [encodeURIComponent]; [None] when it throws. *)
Variable encodeURIComponent : string -> option string.

(** The two links pushed for every term, lines 271-283; [encoded] is
    [encodeURIComponent(term)]. *)
Definition links (term encoded : string) : list SearchResult :=
  [ {| title := "Search " ++ dq ++ term ++ dq ++ " on Google";
       url := "https://www.google.com/search?q=" ++ encoded;
       snippet := "Direct search for " ++ dq ++ term ++ dq
                    ++ " on Google. This search term was extracted from your original query for better results.";
       source := "Google Search" |};
    {| title := "Search " ++ dq ++ term ++ dq ++ " on Bing";
       url := "https://www.bing.com/search?q=" ++ encoded;
       snippet := "Direct search for " ++ dq ++ term ++ dq
                    ++ " on Bing. Alternative search engine for comprehensive results.";
       source := "Bing Search" |} ].

(** The links pushed for the first term only, lines 285-311. *)
Definition specialized (query primaryTerm term encoded : string)
  : list SearchResult :=
  ((if includes primaryTerm "invest" || includes primaryTerm "gold"
       || includes primaryTerm "stock"
    then [ {| title := "Financial News: " ++ term;
              url := "https://finance.yahoo.com/search?p=" ++ encoded;
              snippet := "Search for financial news and data about " ++ dq
                           ++ term ++ dq ++ " on Yahoo Finance.";
              source := "Yahoo Finance" |};
           {| title := "Market Data: " ++ term;
              url := "https://www.marketwatch.com/search?q=" ++ encoded;
              snippet := "Find market data and analysis for " ++ dq ++ term
                           ++ dq ++ " on MarketWatch.";
              source := "MarketWatch" |} ]
    else [])
   ++
   (if includes primaryTerm "news" || includes query "2025"
       || includes query "current"
    then [ {| title := "Latest News: " ++ term;
              url := "https://news.google.com/search?q=" ++ encoded;
              snippet := "Find the latest news about " ++ dq ++ term
                           ++ dq ++ " on Google News.";
              source := "Google News" |} ]
    else []))%list.

(** [terms.map(encodeURIComponent)], [None] as soon as one call throws. *)
Fixpoint encode_all (terms : list string) : option (list (string * string)) :=
  match terms with
  | [] => Some []
  | term :: terms' =>
      match encodeURIComponent term, encode_all terms' with
      | Some encoded, Some rest => Some ((term, encoded) :: rest)
      | _, _ => None
      end
  end.

(** [searchEngineFetcher(query, 'Fallback')], lines 192-194, 255-315
    and 518-522.  The body runs inside the [try] of the fetcher: when
    [encodeURIComponent] throws, on the query (line 193) or on a term,
    the links made so far are given up and the [catch] returns []. *)
Definition fallback_results (query : string) : list SearchResult :=
  let words := key_words query in
  let primaryTerm :=
    match words with
    | w0 :: _ => w0
    | [] => hd "" (split_spaces query)
    end in
  match encodeURIComponent query, encode_all (fallback_terms query) with
  | Some _, Some ((t0, e0) :: rest) =>
      (links t0 e0 ++ specialized query primaryTerm t0 e0
         ++ flat_map (fun te => links (fst te) (snd te)) rest)%list
  | _, _ => []
  end.

End WithHost.

(** Lines 597-604 and 628-631. *)

(** [l.findIndex(p)]: [None] stands for -1. *)
Fixpoint findIndex {A} (p : A -> bool) (l : list A) : option nat :=
  match l with
  | [] => None
  | x :: l' => if p x then Some 0%nat else option_map S (findIndex p l')
  end.

(** [l.filter((x, index, self) => keep x index self)] *)
Fixpoint filter_indexed_go {A} (keep : A -> nat -> bool) (i : nat) (l : list A)
  : list A :=
  match l with
  | [] => []
  | x :: l' =>
      if keep x i then x :: filter_indexed_go keep (S i) l'
      else filter_indexed_go keep (S i) l'
  end.

Definition filter_indexed {A} (keep : A -> nat -> list A -> bool) (l : list A)
  : list A :=
  filter_indexed_go (fun x i => keep x i l) 0 l.

Definition same_index (found : option nat) (index : nat) : bool :=
  match found with
  | Some i => (i =? index)%nat
  | None => false
  end.

(** How an [async] function ends. *)
Inductive Outcome (A : Type) : Type :=
| Resolved (value : A)
| Rejected (error : string).
Arguments Resolved {A} value.
Arguments Rejected {A} error.

Section WithLowerCase.
(** [String.prototype.toLowerCase]; the properties proved do not depend
    on which case mapping it is. *)
Variable lower : string -> string.

(** The test of the [findIndex] of line 599, [r] against [result]. *)
Definition collides (result r : SearchResult) : bool :=
  String.eqb (url r) (url result)
  || (String.eqb (lower (title r)) (lower (title result))
      && String.eqb (source r) (source result)).

Definition uniqueResults (allResults : list SearchResult) : list SearchResult :=
  filter_indexed
    (fun result index self =>
       let isDuplicate :=
         negb (same_index (findIndex (collides result) self) index) in
       negb isDuplicate)
    allResults.

Definition uniqueCitations (allCitations : list Citation) : list Citation :=
  filter_indexed
    (fun citation index self =>
       same_index
         (findIndex (fun c => String.eqb (c_url c) (c_url citation)) self)
         index)
    allCitations.

(** The relevance computed by the comparator, lines 608-613; [None] is the
    [TypeError] of [term.toLowerCase()] on a term that is not a string. *)
Fixpoint relevance (terms : list Json.t) (score : Z) (r : SearchResult)
  : option Z :=
  match terms with
  | [] => Some score
  | JStr term :: terms' =>
      let termLower := lower term in
      let titleMatch := if includes (lower (title r)) termLower then 2 else 0 in
      let snippetMatch := if includes (lower (snippet r)) termLower then 1 else 0 in
      relevance terms' (score + titleMatch + snippetMatch) r
  | _ :: _ => None
  end.

(** [Array.prototype.sort] with the comparator [bRelevance - aRelevance]:
    a stable insertion sort, greater relevance first; the comparator runs
    (and may throw) as soon as there are two elements. *)
Fixpoint insert_sorted (terms : list Json.t) (a : SearchResult)
         (sorted : list SearchResult) : option (list SearchResult) :=
  match sorted with
  | [] => Some [a]
  | b :: rest =>
      match relevance terms 0 a, relevance terms 0 b with
      | Some aRelevance, Some bRelevance =>
          if 0 <? bRelevance - aRelevance
          then option_map (cons b) (insert_sorted terms a rest)
          else Some (a :: b :: rest)
      | _, _ => None
      end
  end.

Fixpoint sort_by_relevance (terms : list Json.t) (l : list SearchResult)
  : option (list SearchResult) :=
  match l with
  | [] => Some []
  | a :: rest =>
      match sort_by_relevance terms rest with
      | Some sorted => insert_sorted terms a sorted
      | None => None
      end
  end.

Definition formatSearchResults (results : list SearchResult)
  : list SearchResult :=
  map (fun result => {| title := title result; url := url result;
                        snippet := snippet result; source := source result |})
      results.

Definition citation_of (result : SearchResult) : Citation :=
  {| c_source := source result; c_title := title result;
     c_url := url result |}.

Variable encodeURIComponent : string -> option string.

(** Lines 552-584: the results of every engine for each of the first
    three terms, in the order of the terms then of the engines. *)
Definition collect (processedQuery : ProcessedQuery)
           (engines : Json.t -> string -> EngineOutcome) : list SearchResult :=
  flat_map (fun searchTerm =>
              flat_map (fun engine => engine_results (engines searchTerm engine))
                       searchEngines)
           (firstn 3 (searchTerms processedQuery)).

(** [allResults] when the deduplication starts: the fallback links when
    nothing was collected (lines 587-595). *)
Definition allResults (processedQuery : ProcessedQuery)
           (engines : Json.t -> string -> EngineOutcome) : list SearchResult :=
  match collect processedQuery engines with
  | [] => fallback_results encodeURIComponent (originalQuery processedQuery)
  | collected => collected
  end.

Definition allCitations (processedQuery : ProcessedQuery)
           (engines : Json.t -> string -> EngineOutcome) : list Citation :=
  map citation_of (collect processedQuery engines).

(** [performWebSearch].  [aiResult] is the input of [processSearchQuery];
    [engines term engine] is what the call for [term] on [engine] meets. *)
Definition performWebSearch (query : string) (aiResult : option Json.t)
           (engines : Json.t -> string -> EngineOutcome)
  : Outcome (list SearchResult * list Citation) :=
  if negb (truthy query) || (str_length (trim query) =? 0)%nat
  then Resolved ([], [])
  else
    let processedQuery := processSearchQuery query aiResult in
    match sort_by_relevance (searchTerms processedQuery)
                            (uniqueResults (allResults processedQuery engines)) with
    | Some sortedResults =>
        Resolved (formatSearchResults sortedResults,
                  uniqueCitations (allCitations processedQuery engines))
    | None => Rejected "TypeError: term.toLowerCase is not a function"
    end.

End WithLowerCase.

(** "First occurrence wins", in the words of the specification: going
    through the list in order, an element is dropped when one of the
    elements before it (kept or not) is the same as it, kept otherwise.
    [same x y] is the test of [x] against an earlier [y]. *)
Fixpoint first_occurrences {A} (same : A -> A -> bool) (seen l : list A)
  : list A :=
  match l with
  | [] => []
  | x :: l' =>
      if existsb (same x) seen
      then first_occurrences same (seen ++ [x]) l'
      else x :: first_occurrences same (seen ++ [x]) l'
  end.

(** No element is the same as one before it. *)
Fixpoint pairwise_distinct {A} (same : A -> A -> bool) (l : list A) : Prop :=
  match l with
  | [] => True
  | a :: rest =>
      List.Forall (fun b => same b a = false) rest /\ pairwise_distinct same rest
  end.

(** The test of a citation against an earlier one. *)
Definition same_url (citation c : Citation) : bool :=
  String.eqb (c_url c) (c_url citation).

(** The synthetic entry the DuckDuckGo and Reddit adapters build for a
    term when the proxies are not used (lines 322-329 and 410-417). *)
Definition synthetic (engine site : string) (term : string) : SearchResult :=
  {| title := engine ++ " Search: " ++ term;
     url := site ++ term;
     snippet := "Search attempted for " ++ dq ++ term ++ dq
                  ++ " but CORS proxy services are currently unavailable. Please try again later or use direct search engines.";
     source := engine |}.

(** [String(term)] for the terms used below. *)
Definition term_text (term : Json.t) : string :=
  match term with
  | JStr s => s
  | JNum literal => literal
  | _ => "[object Object]"
  end.

(** Wikipedia answers twice with the same article, DuckDuckGo and Reddit
    give their synthetic entry, every other engine fails. *)
Definition offline_engines (term : Json.t) (engine : string) : EngineOutcome :=
  if String.eqb engine "Wikipedia" then
    Found [ {| title := "Gold"; url := "https://en.wikipedia.org/wiki/Gold";
               snippet := "Wikipedia article"; source := "Wikipedia" |};
            {| title := "GOLD"; url := "https://en.wikipedia.org/wiki/Gold_(metal)";
               snippet := "Wikipedia article"; source := "Wikipedia" |} ]
  else if String.eqb engine "DuckDuckGo" then
    Found [synthetic "DuckDuckGo" "https://duckduckgo.com/?q=" (term_text term)]
  else if String.eqb engine "Reddit" then
    Found [synthetic "Reddit" "https://www.reddit.com/search/?q=" (term_text term)]
  else if String.eqb engine "Academic" then TimesOut
  else Fails.

Definition gold_run : Outcome (list SearchResult * list Citation) :=
  performWebSearch toLowerCase encodeURIComponent "gold" None offline_engines.

Definition gold_results : list SearchResult :=
  Eval vm_compute in
    match gold_run with Resolved (results, _) => results | Rejected _ => [] end.

Definition gold_citations : list Citation :=
  Eval vm_compute in
    match gold_run with Resolved (_, citations) => citations | Rejected _ => [] end.

(** A long query for which the model answers with a number among its
    search terms. *)
Definition forecast_query : string :=
  "What will the gold price be in 2025 and why?".

Definition forecast_aiResult : option Json.t :=
  Some (JObj [("searchTerms", JArr [JNum "2025"; JStr "gold price"]);
              ("primaryTerm", JStr "gold");
              ("context", JStr "forecast")]).

Definition is_string (term : Json.t) : bool :=
  match term with JStr _ => true | _ => false end.

End WebSearch.

(** ** Sample upstreams for the executors *)

Module ExecutorSamples.
Import JsString ApiKeyService Executor.

(** The first request fails with a server error, the second succeeds. *)
Definition second_try_works : Z -> string -> GeminiReply :=
  fun attempt _ =>
    if attempt =? 1 then HttpError 500 "Internal error" None
    else HttpOk (Some "hello").

Definition chat_second_try_works : Z -> string -> OpenRouterReply :=
  fun attempt _ =>
    if attempt =? 1
    then ChatThrows {| message := "500 Internal error"; status := Some 500;
                       data := None |} None
    else ChatOk (Some "hello").

(** A key service without keys. *)
Definition no_keys : ApiKeyService.t := new None None None.

(** The errors thrown on the replies [always_429] and
    [chat_always_429]. *)
Definition quota_exceeded : ApiError :=
  {| message := "Quota exceeded"; status := Some 429;
     data := Some {| error_message := Some "Quota exceeded";
                     error_details := None |} |}.

Definition rate_limited : ApiError :=
  {| message := "429 Rate limited"; status := Some 429; data := None |}.

(** What a call that returns a response leaves behind. *)
Definition reset_after_success (svc : ApiKeyService.t)
           (out : list Event * (Response + Exception) * ApiKeyService.t)
  : Prop :=
  forall r, snd (fst out) = inl r ->
    last (events out) = Some EvReset
    /\ currentKeyIndex (snd out) = -1
    /\ fst (getNextApiKey (snd out)) = head (getApiKeys svc).

(** [AllKeysFailedError] is thrown after the whole budget only, and then
    the rotation is where the call found it. *)
Definition thrown_after_budget (svc : ApiKeyService.t)
           (out : list Event * (Response + Exception) * ApiKeyService.t)
  : Prop :=
  forall msg, snd (fst out) = inr (AllKeysFailedError msg) ->
    length (attempts (events out)) = (length (getApiKeys svc) * 3)%nat
    /\ fst (getNextApiKey (snd out)) = fst (getNextApiKey svc).

(** The attempts are numbered from 1 and take the keys in rotation,
    starting with the key the first [getNextApiKey] returns. *)
Definition round_robin_attempts (svc : ApiKeyService.t)
           (out : list Event * (Response + Exception) * ApiKeyService.t)
  : Prop :=
  forall i attempt key,
    attempts (events out) !! i = Some (attempt, key) ->
    attempt = 1 + Z.of_nat i /\
    getApiKeys svc !! ((nextPos svc + i) mod length (getApiKeys svc))%nat
    = Some key.

(** The text [AllKeysFailedError] carries for the error [e]: a fixed
    prefix, then the message of [e], or the [error.message] found inside
    it when the message of [e] is JSON text that has one. *)
Definition reports (json_error_message : string -> option string)
           (e : ApiError) (msg : string) : Prop :=
  exists clean,
    msg = "All API keys failed. Last error: " ++ clean
    /\ (message e = "" -> clean = "")
    /\ (message e <> "" ->
        match json_error_message (message e) with
        | Some inner => clean = inner
        | None => clean = message e
        end).

(** The outcome of an exhausted call, when the attempt numbered [a]
    made with key [k] fails with the error [error_at a k]:
    [keyCount * 3] attempts, taking the keys in rotation, each followed
    by the record of its error, then [AllKeysFailedError] carrying the
    error of the last attempt. *)
Definition exhausted (json_error_message : string -> option string)
           (svc : ApiKeyService.t) (error_at : Z -> string -> ApiError)
           (out : list Event * (Response + Exception) * ApiKeyService.t)
  : Prop :=
  length (attempts (events out)) = (length (getApiKeys svc) * 3)%nat
  /\ round_robin_attempts svc out
  /\ failures (events out)
     = map (fun ak => error_at (fst ak) (snd ak)) (attempts (events out))
  /\ exists a key msg,
       last (attempts (events out)) = Some (a, key)
       /\ snd (fst out) = inr (AllKeysFailedError msg)
       /\ reports json_error_message (error_at a key) msg.

(** A failure with another status than 429 is not followed by a sleep. *)
Definition sleeps_only_after_429
           (out : list Event * (Response + Exception) * ApiKeyService.t)
  : Prop :=
  forall attempt e,
    In (EvFailed attempt e) (events out) -> status e <> Some 429 ->
    sleep_after attempt (events out) = None.

(** The three delays of the default backoff ([2000 * cycle] for the
    cycles 1, 2 and 3). *)
Definition default_backoff (delayMs : Z) : Prop :=
  delayMs = 2000 \/ delayMs = 4000 \/ delayMs = 6000.

End ExecutorSamples.

(** ** The rest of the key service *)

Module KeyServiceMore.
Import JsString ApiKeyService.

Definition OPENROUTER_DEFAULT_API_BASE_URL : string :=
  "https://openrouter.ai/api/v1".

(** [hasKey] *)
Definition hasKey (s : ApiKeyService.t) : bool :=
  (0 <? length (getApiKeys s))%nat.

(** The line feed, as a string. *)
Definition newline : string := String (ascii_of_nat 10) EmptyString.

(** [getApiKeysString]: the keys joined by newlines. *)
Definition getApiKeysString (s : ApiKeyService.t) : string :=
  join newline (userApiKeys s).

(** [isUsingOpenRouter] and [isUsingGemini] *)
Definition isUsingOpenRouter (s : ApiKeyService.t) : bool :=
  includes (apiBaseUrl s) "openrouter.ai".

Definition isUsingGemini (s : ApiKeyService.t) : bool :=
  includes (apiBaseUrl s) "googleapis.com"
  || includes (apiBaseUrl s) "generativelanguage".

(** [setApiBaseUrl], on the state of the service: the new URL is the
    trimmed argument, or the Gemini default when that is empty. *)
Definition setApiBaseUrl (url : string) (s : ApiKeyService.t)
  : ApiKeyService.t :=
  {| userApiKeys := userApiKeys s; hasEnvKey := hasEnvKey s;
     currentKeyIndex := currentKeyIndex s;
     apiBaseUrl := if truthy (trim url) then trim url
                   else GEMINI_DEFAULT_API_BASE_URL |}.

(** Whether [setApiBaseUrl] goes on to clear the incompatible model
    overrides (lines 102-113): not with a key from the environment, not
    when the storage throws ([storage_ok = false]), and only when the URL
    moves into or out of OpenRouter. *)
Definition clears_overrides (storage_ok : bool) (url : string)
           (s : ApiKeyService.t) : bool :=
  negb (isEnvKey s) && storage_ok
  && negb (Bool.eqb (isUsingOpenRouter s)
                    (isUsingOpenRouter (setApiBaseUrl url s))).

(** The states reached from [s0] by the mutating methods, now with
    [setApiBaseUrl]. *)
Inductive reachable_from (s0 : ApiKeyService.t) : ApiKeyService.t -> Prop :=
| from_start : reachable_from s0 s0
| from_next s : reachable_from s0 s -> reachable_from s0 (snd (getNextApiKey s))
| from_set_keys keysString s :
    reachable_from s0 s -> reachable_from s0 (setApiKeys keysString s)
| from_set_url url s :
    reachable_from s0 s -> reachable_from s0 (setApiBaseUrl url s)
| from_reset s : reachable_from s0 s -> reachable_from s0 (reset s).

(** A well-formed key: not empty, trimmed, without comma or newline. *)
Definition well_formed_key (k : string) : Prop :=
  k <> "" /\ trim k = k /\ List.Forall (fun c => is_key_sep c = false) (chars k).

End KeyServiceMore.

(** ** Model selection, provider routing and the model overrides *)

Module Models.
Import JsString.

Inductive AgentRole : Type :=
| planner | searcher | outline | synthesizer | clarification | visualizer
| roleAI.

Inductive ResearchMode : Type := Balanced | DeepDive | Fast | UltraFast.

Definition AGENT_ROLES : list AgentRole :=
  [planner; searcher; outline; synthesizer; clarification; visualizer; roleAI].

(** The table [geminiModels]. *)
Definition geminiModels (role : AgentRole) (mode : ResearchMode) : string :=
  match role, mode with
  | planner, Balanced => "gemini-2.5-pro"
  | planner, DeepDive => "gemini-2.5-pro"
  | planner, Fast => "gemini-2.5-flash"
  | planner, UltraFast => "gemini-2.5-flash-lite"
  | searcher, Balanced => "gemini-2.5-flash-lite"
  | searcher, DeepDive => "gemini-2.5-pro"
  | searcher, Fast => "gemini-2.5-flash"
  | searcher, UltraFast => "gemini-2.5-flash-lite"
  | roleAI, _ => "gemini-2.5-flash"
  | _, Balanced => "gemini-2.5-flash"
  | _, DeepDive => "gemini-2.5-pro"
  | _, Fast => "gemini-2.5-flash"
  | _, UltraFast => "gemini-2.5-flash-lite"
  end.

(** The table [openRouterModels]. *)
Definition openRouterModels (role : AgentRole) (mode : ResearchMode) : string :=
  "openrouter/auto".

(** [getDefaultModelForRole]; [usingOpenRouter] is
    [apiKeyService.isUsingOpenRouter()], [None] when the lookup of the key
    service throws (the [catch] falls back on OpenRouter). *)
Definition getDefaultModelForRole (usingOpenRouter : option bool)
           (role : AgentRole) (mode : ResearchMode) : string :=
  match usingOpenRouter with
  | Some false => geminiModels role mode
  | _ => openRouterModels role mode
  end.

Inductive Provider : Type := gemini | openrouter.

(** The model overrides of the settings, by role; [None] is [null] or an
    absent entry. *)
Definition Overrides : Type := AgentRole -> option string.

(** [getModel] *)
Definition getModel (overrides : Overrides) (usingOpenRouter : option bool)
           (role : AgentRole) (mode : ResearchMode) (provider : option Provider)
  : string :=
  match overrides role with
  | Some override =>
      if truthy override then override
      else match provider with
           | Some gemini => geminiModels role mode
           | Some openrouter => openRouterModels role mode
           | None => getDefaultModelForRole usingOpenRouter role mode
           end
  | None =>
      match provider with
      | Some gemini => geminiModels role mode
      | Some openrouter => openRouterModels role mode
      | None => getDefaultModelForRole usingOpenRouter role mode
      end
  end.

(** [isOpenRouterModel]: the test by which [ai.models.generateContent]
    chooses [executeOpenRouterWithRetry] over [executeWithRetry]. *)
Definition isOpenRouterModel (modelName : string) : bool :=
  negb (includes modelName "gemini").

(** [clearIncompatibleModelOverrides], on the overrides;
    [isOpenRouter] is [apiKeyService.isUsingOpenRouter()]. *)
Definition clearIncompatibleModelOverrides (isOpenRouter : bool)
           (overrides : Overrides) : Overrides :=
  fun role =>
    match overrides role with
    | Some override =>
        if truthy override then
          let isOverrideOpenRouter := negb (includes override "gemini") in
          let isOverrideGemini := includes override "gemini" in
          if isOpenRouter && isOverrideGemini then None
          else if negb isOpenRouter && isOverrideOpenRouter then None
          else Some override
        else Some override
    | None => None
    end.

(** [clearAllModelOverrides] *)
Definition clearAllModelOverrides (overrides : Overrides) : Overrides :=
  fun role =>
    match overrides role with
    | Some override => if truthy override then None else Some override
    | None => None
    end.

(** [hasIncompatibleOverrides] of the model settings panel. *)
Definition hasIncompatibleOverrides (isOpenRouter : bool)
           (overrides : Overrides) : bool :=
  existsb (fun role =>
             match overrides role with
             | Some override =>
                 if truthy override then
                   let isOverrideOpenRouter := negb (includes override "gemini") in
                   let isOverrideGemini := includes override "gemini" in
                   (isOpenRouter && isOverrideGemini)
                   || (negb isOpenRouter && isOverrideOpenRouter)
                 else false
             | None => false
             end)
          AGENT_ROLES.

(** A saved choice: the planner on a Gemini model, the searcher on an
    OpenRouter model. *)
Definition mixed_overrides : Overrides :=
  fun role =>
    match role with
    | planner => Some "gemini-2.5-pro"
    | searcher => Some "meta-llama/llama-3-70b-instruct"
    | _ => None
    end.

(** The test [hasIncompatibleOverrides] makes on one override. *)
Definition incompatible (isOpenRouter : bool) (override : option string) : bool :=
  match override with
  | Some override =>
      if truthy override then
        (isOpenRouter && includes override "gemini")
        || (negb isOpenRouter && negb (includes override "gemini"))
      else false
  | None => false
  end.

(** [setApiBaseUrl] followed by the clearing it schedules, on the key
    service and the overrides together. *)
Definition switch_base_url (storage_ok : bool) (url : string)
           (svc : ApiKeyService.t) (overrides : Overrides)
  : ApiKeyService.t * Overrides :=
  let svc' := KeyServiceMore.setApiBaseUrl url svc in
  (svc',
   if KeyServiceMore.clears_overrides storage_ok url svc
   then clearIncompatibleModelOverrides
          (KeyServiceMore.isUsingOpenRouter svc') overrides
   else overrides).

End Models.

(** ** Observations on the results of the planner *)

Module PlannerObservations.
Import JsString Json Planner.

(** The two shapes of a returned result: a finish carries a non-empty
    reason and no query; a search carries one to four non-empty trimmed
    queries and no reason. *)
Definition well_shaped (r : PlannerResult) : Prop :=
  if should_finish r
  then search_queries r = [] /\
       exists reason, result_reason r = Some reason /\ reason <> ""
  else queries_ok (Some (search_queries r)) /\ result_reason r = None.

(** A log that ends with a search. *)
Definition log_after_search : list ResearchUpdate :=
  [ {| id := 0; type := TThought; persona := Some Alpha; content := "a" |};
    {| id := 1; type := TThought; persona := Some Beta; content := "b" |};
    {| id := 2; type := TSearch; persona := None; content := "gold price" |} ].

(** A reply that is not JSON at all. *)
Definition garbled : TurnInput := Reply "  I think we should go on.  " None false.

(** A state in the middle of a debate. *)
Definition mid_debate : State :=
  {| nextPersona := Beta; debateTurns := 3; consecutiveFinishAttempts := 1;
     currentConversation := [(Alpha, "x")]; idCounter := 10 |}.

(** The ids of a stream count up from [n], one by one. *)
Definition numbered_from (n : Z) (us : list ResearchUpdate) : Prop :=
  forall i u, us !! i = Some u -> id u = n + Z.of_nat i.

(** A thought with something to show. *)
Definition shown (u : ResearchUpdate) : Prop :=
  type u = TThought /\ content u <> "".

(** What a piece of the loop emits from the state [st] and leaves in
    [st']: thoughts with something to show, numbered from the counter,
    which ends after the last of them. *)
Definition emits (st : State) (us : list ResearchUpdate) (st' : State)
  : Prop :=
  numbered_from (idCounter st) us
  /\ idCounter st' = idCounter st + Z.of_nat (length us)
  /\ List.Forall shown us.

(** A decision to search, as the model sends it and as sanitized. *)
Definition search_json : option Json.t :=
  Some (JObj [("thought", JStr "Check the latest figures.");
              ("action", JStr " Search ");
              ("queries", JArr [JStr " gold price 2024 "; JStr "  "])]).

Definition search_decision : PlannerTurn :=
  {| thought := "Check the latest figures."; action := "search";
     queries := Some ["gold price 2024"]; finish_reason := None |}.

(** The turn hands over to the other persona. *)
Definition goes_on (st : State) (out : list ResearchUpdate * Step) : Prop :=
  exists st', snd out = Continue st'
              /\ nextPersona st' = other (nextPersona st).

(** A reply, not cancelled, whose usable decision is [finish]. *)
Definition finishes (stringify : Json.t -> string) (input : TurnInput) : Prop :=
  exists text raw d,
    input = Reply text raw false /\
    usable (sanitizePlannerTurn stringify raw) = Some d /\
    action d = "finish".

(** A reply, not cancelled, with no usable decision in it. *)
Definition unusable (stringify : Json.t -> string) (input : TurnInput) : Prop :=
  exists text raw,
    input = Reply text raw false /\
    usable (sanitizePlannerTurn stringify raw) = None.

(** Alpha wants to finish, Beta answers with prose, Alpha wants to finish
    again. *)
Definition finish_prose_finish : nat -> TurnInput :=
  fun t => if (t =? 2)%nat then garbled else wants_to_finish.

End PlannerObservations.

(** ** Observations on the results of the web search *)

Module WebSearchObservations.
Import JsString Json WebSearch.



(** Three articles for the term "gold": the second and the third name it
    in the title. *)
Definition three_articles (term : Json.t) (engine : string) : EngineOutcome :=
  if String.eqb engine "Wikipedia" then
    Found [ {| title := "Precious metal"; url := "https://a.example/1";
               snippet := "about gold"; source := "Wikipedia" |};
            {| title := "Gold"; url := "https://a.example/2";
               snippet := "an element"; source := "Wikipedia" |};
            {| title := "Gold rush"; url := "https://a.example/3";
               snippet := "history"; source := "Wikipedia" |} ]
  else Fails.

Definition three_articles_run : Outcome (list SearchResult * list Citation) :=
  performWebSearch toLowerCase encodeURIComponent "gold" None three_articles.

Definition three_articles_results : list SearchResult :=
  Eval vm_compute in
    match three_articles_run with
    | Resolved (results, _) => results
    | Rejected _ => []
    end.


(** The sources of the links [searchEngineFetcher] makes up for the
    engine ['Fallback']. *)
Definition direct_search_sources : list string :=
  ["Google Search"; "Bing Search"; "Yahoo Finance"; "MarketWatch";
   "Google News"].

(** No engine answers. *)
Definition all_engines_fail (term : Json.t) (engine : string) : EngineOutcome :=
  if String.eqb engine "Academic" then TimesOut else Fails.

(** A search term an engine can be asked for: a string, not empty. *)
Definition proper_term (term : Json.t) : Prop :=
  exists s, term = JStr s /\ s <> "".

(** A long request, for which the model is asked. *)
Definition long_request : string :=
  "Please write a full report for the gold price and inflation".

(** Whether [encodeURIComponent] returns on each of [strings]. *)
Definition encodes (encodeURIComponent : string -> option string)
           (strings : list string) : bool :=
  forallb (fun s => match encodeURIComponent s with
                    | Some _ => true
                    | None => false
                    end) strings.

(** Twenty-nine signs and a character of two code units, which the
    [substring(0, 30)] of the fallback cuts in two. *)
Definition cut_query : string :=
  "+++++++++++++++++++++++++++++😀 ?".

End WebSearchObservations.

(** ** One search for the research loop: [executeSingleSearch] *)

Module SingleSearch.
Import JsString Json WebSearch.

(** A citation as the research loop gets it.  Those of the web search
    have a source, a title and a url; those made from the grounding of
    the model have no source, and the url and the title the chunk holds,
    if any. *)
Record MergedCitation : Type := mkMerged {
  m_url : option string;
  m_title : option string;
  m_source : option string
}.

(** [chunk.web], with [uri] and [title]. *)
Record Web : Type := mkWeb {
  uri : option string;
  web_title : option string
}.

(** A grounding chunk; [None] is a chunk without [web]. *)
Definition GroundingChunk : Type := option Web.

(** What is read of the reply of the model: [response.text] and
    [response.candidates?.[0]?.groundingMetadata?.groundingChunks]. *)
Record Response : Type := mkResponse {
  text : option string;
  groundingChunks : option (list GroundingChunk)
}.

Definition nl : string := String (ascii_of_nat 10) EmptyString.

(** Lines 654-657. *)
Definition searchContext (formatted : list SearchResult) : string :=
  if (0 <? length formatted)%nat
  then nl ++ nl ++ "Web Search Results (multi-engine):" ++ nl
         ++ join nl
              (map (fun r => "- " ++ title r ++ " (" ++ source r ++ ")" ++ nl
                               ++ "  " ++ url r ++ nl ++ "  " ++ snippet r)
                   formatted)
  else "".

(** The [contents] of the request, line 662. *)
Definition contents (searchQuery : string) (context : string) : string :=
  "Concisely summarize key, current information for the query: " ++ dq
    ++ searchQuery ++ dq ++ "." ++ context ++ nl ++ nl
    ++ "Focus on: facts, figures, dates, and recent developments. If conflicting info appears, note it and prioritize authoritative sources.".

(** [a || b] on values that are a string or [undefined]. *)
Definition or_else (a b : option string) : option string :=
  match a with
  | Some s => if truthy s then Some s else b
  | None => b
  end.

(** Lines 668-673; [None] is the [TypeError] of [chunk.web.uri] on a
    chunk without [web]. *)
Fixpoint modelCitations (chunks : list GroundingChunk)
  : option (list MergedCitation) :=
  match chunks with
  | [] => Some []
  | None :: _ => None
  | Some web :: chunks' =>
      match modelCitations chunks' with
      | Some citations =>
          Some ({| m_url := uri web;
                   m_title := or_else (web_title web) (uri web);
                   m_source := None |} :: citations)
      | None => None
      end
  end.

Definition of_web (c : Citation) : MergedCitation :=
  {| m_url := Some (c_url c); m_title := Some (c_title c);
     m_source := Some (c_source c) |}.

(** The keys of the [Map]: strings or [undefined], compared as [Map]
    does. *)
Definition key_eqb (k1 k2 : option string) : bool :=
  match k1, k2 with
  | Some a, Some b => String.eqb a b
  | None, None => true
  | _, _ => false
  end.

(** [Map.prototype.set]: the value of a key that is there is replaced
    where it stands, a new key goes to the end. *)
Fixpoint map_set {V} (k : option string) (v : V)
         (m : list (option string * V)) : list (option string * V) :=
  match m with
  | [] => [(k, v)]
  | (k', v') :: m' =>
      if key_eqb k' k then (k', v) :: m' else (k', v') :: map_set k v m'
  end.

(** [new Map(entries)] *)
Definition new_Map {V} (entries : list (option string * V))
  : list (option string * V) :=
  fold_left (fun m e => map_set (fst e) (snd e) m) entries [].

(** [Array.from(m.values())] *)
Definition values {V} (m : list (option string * V)) : list V := map snd m.

(** Line 676. *)
Definition merge (combined : list MergedCitation) : list MergedCitation :=
  values (new_Map (map (fun c => (m_url c, c)) combined)).

(** The template of line 677 prints a missing text as [undefined]. *)
Definition summary (searchQuery : string) (text : option string) : string :=
  "Summary for " ++ dq ++ searchQuery ++ dq ++ ": "
    ++ match text with Some t => t | None => "undefined" end.

(** Lines 667-673: the citations made from the grounding of the reply. *)
Definition grounding (response : Response) : option (list MergedCitation) :=
  match groundingChunks response with
  | Some chunks => modelCitations chunks
  | None => Some []
  end.

(** Lines 646-652: what is kept of the web search. *)
Definition webResults (webSearch : Outcome (list SearchResult * list Citation))
  : list SearchResult * list Citation :=
  match webSearch with
  | Resolved value => value
  | Rejected _ => ([], [])
  end.

(** [executeSingleSearch].  [webSearch] is how [performWebSearch] ends
    for the query, [generateContent] how the call of the model ends for
    the contents sent. *)
Definition executeSingleSearch (searchQuery : string)
           (webSearch : Outcome (list SearchResult * list Citation))
           (generateContent : string -> Outcome Response)
  : Outcome (string * list MergedCitation) :=
  let formatted := formatSearchResults (fst (webResults webSearch)) in
  match generateContent (contents searchQuery (searchContext formatted)) with
  | Rejected error => Rejected error
  | Resolved response =>
      match grounding response with
      | None =>
          Rejected "TypeError: Cannot read properties of undefined (reading 'uri')"
      | Some fromModel =>
          let combined :=
            (map of_web (snd (webResults webSearch)) ++ fromModel)%list in
          Resolved (summary searchQuery (text response), merge combined)
      end
  end.

(** [c] stands in [l] and no later entry of [l] has its url. *)
Definition last_for_its_url (c : MergedCitation) (l : list MergedCitation)
  : Prop :=
  exists l1 l2, l = (l1 ++ c :: l2)%list
                /\ List.Forall (fun c' => m_url c' <> m_url c) l2.

(** The model grounds its answer on the article the web search found,
    and on another page. *)
Definition grounded_reply : Response :=
  {| text := Some "Gold is a chemical element.";
     groundingChunks :=
       Some [ Some {| uri := Some "https://en.wikipedia.org/wiki/Gold";
                      web_title := Some "wikipedia.org" |};
              Some {| uri := Some "https://b.example/gold";
                      web_title := None |} ] |}.

End SingleSearch.

(** ** The list of available models: [fetchAvailableModels] *)

Module AvailableModels.
Import JsString ApiKeyService KeyServiceMore Models WebSearch.

    (* the ids of data.data (OpenRouter) or the names of data.models
       (Gemini); [] when the field is missing *)











End AvailableModels.

(** ** The request of the OpenRouter executor *)

Module OpenRouterRequest.
Import JsString Json WebSearch SingleSearch.

(** [part.text]; [None] for a part without text (inline data). *)
Record Part : Type := mkPart { part_text : option string }.

(** One entry of [params.contents]: a string, or a content object with
    its [role] and its [parts]. *)
Inductive Content : Type :=
| Text (s : string)
| Obj (role : option string) (parts : option (list Part)).

Inductive Contents : Type :=
| NoContents                     (* params.contents is undefined *)
| One (c : Content)
| Many (cs : list Content).

(** Whether [tool.googleSearch] is truthy. *)
Record Tool : Type := mkTool { googleSearch : bool }.

(** [params.config]; the numbers are carried as written. *)
Record Config : Type := mkConfig {
  systemInstruction : option string;
  responseMimeType : option string;
  responseSchema : option (list (string * Json.t));
  tools : option (list Tool);
  temperature : option string;
  maxOutputTokens : option string
}.

Record Params : Type := mkParams {
  model : string;
  contents : Contents;
  config : option Config
}.

Record Message : Type := mkMessage { role : string; content : string }.

Record OpenAIParams : Type := mkOpenAIParams {
  o_model : string;
  messages : list Message;
  o_temperature : option string;
  max_tokens : option string
}.

Definition search_wrapper (content : string) : string :=
  "Please provide a comprehensive response based on your knowledge for: "
    ++ content
    ++ ". Include relevant facts, statistics, and information as if you were summarizing from multiple reliable sources.".

(** Lines 371-376 on the reversed list: the first message of a user is
    rewritten, the ones after it are not looked at. *)
Fixpoint wrap_first_user (l : list Message) : list Message :=
  match l with
  | [] => []
  | m :: l' =>
      if String.eqb (role m) "user"
      then {| role := role m; content := search_wrapper (content m) |} :: l'
      else m :: wrap_first_user l'
  end.

(** Lines 371-376: going down from the last message. *)
Definition wrap_last_user (l : list Message) : list Message :=
  rev (wrap_first_user (rev l)).

(** [params.config?.tools] has a tool with [googleSearch]. *)
Definition isSearchRequest (params : Params) : bool :=
  match config params with
  | Some c =>
      match tools c with
      | Some ts => existsb googleSearch ts
      | None => false
      end
  | None => false
  end.

Section WithStringify.
(** [JSON.stringify] on a schema; [None] when it throws. *)
Variable stringify : Json.t -> option string.

(** Lines 335-348: the messages of the system. *)
Definition system_messages (params : Params) : list Message :=
  match config params with
  | None => []
  | Some c =>
      (match systemInstruction c with
       | Some s => if truthy s then [ {| role := "system"; content := s |} ]
                   else []
       | None => []
       end
       ++
       (if match responseMimeType c with
           | Some t => String.eqb t "application/json"
           | None => false
           end
           || match responseSchema c with Some _ => true | None => false end
        then
          let schemaHint :=
            match responseSchema c with
            | Some schema =>
                match stringify (JObj schema) with
                | Some s => substring0 2000 s
                | None => ""
                end
            | None => ""
            end in
          [ {| role := "system";
               content :=
                 "You MUST respond with a single valid JSON object only. Do not include markdown fences, prefixes, or prose. "
                   ++ (if truthy schemaHint
                       then "It MUST conform to this JSON Schema (approximate): "
                              ++ schemaHint
                       else "") |} ]
        else []))%list
  end.

(** Lines 353-363: the message of one content. *)
Definition content_messages (c : Content) : list Message :=
  match c with
  | Text s => [ {| role := "user"; content := s |} ]
  | Obj r (Some parts) =>
      [ {| role := match r with
                   | Some r' => if String.eqb r' "model" then "assistant"
                                else "user"
                   | None => "user"
                   end;
           content :=
             join "" (map (fun p => default "" (part_text p)) parts) |} ]
  | Obj _ None => []
  end.

(** Lines 351-364. *)
Definition conversation (params : Params) : list Message :=
  match contents params with
  | NoContents => []
  | One (Text s) => if truthy s then content_messages (Text s) else []
  | One c => content_messages c
  | Many cs => flat_map content_messages cs
  end.

(** [convertToOpenAIParams] *)
Definition convertToOpenAIParams (params : Params) : OpenAIParams :=
  let messages := (system_messages params ++ conversation params)%list in
  let finalMessages :=
    if isSearchRequest params then wrap_last_user messages else messages in
  {| o_model := model params;
     messages := finalMessages;
     o_temperature :=
       match config params with Some c => temperature c | None => None end;
     max_tokens :=
       match config params with Some c => maxOutputTokens c | None => None end |}.

(** What a template literal prints for [params.contents]. *)
Definition content_text (c : Content) : string :=
  match c with
  | Text s => s
  | Obj _ _ => "[object Object]"
  end.

Definition contents_text (cs : Contents) : string :=
  match cs with
  | NoContents => "undefined"
  | One c => content_text c
  | Many cs => join "," (map content_text cs)
  end.

(** Lines 429-431: the template prints the array of formatted results as
    arrays and objects print. *)
Definition enhancedContent (params : Params) (searchResults : list SearchResult)
  : string :=
  contents_text (contents params) ++ nl ++ nl ++ "Web Search Results:" ++ nl
    ++ join "," (map (fun _ : SearchResult => "[object Object]")
                     (formatSearchResults searchResults))
    ++ nl ++ nl
    ++ "Please provide a comprehensive response based on the above search results and your knowledge.".

(** Lines 406-436 of [executeOpenRouterWithRetry]: the parameters and the
    citations the attempts work with.  [webSearch] is how the [try] block
    fares up to the end of [performWebSearch]. *)
Definition with_search (params : Params)
           (webSearch : Outcome (list SearchResult * list Citation))
  : Params * list Citation :=
  if isSearchRequest params then
    match webSearch with
    | Resolved (searchResults, searchCitations) =>
        ({| model := model params;
            contents := One (Text (enhancedContent params searchResults));
            config := config params |},
         searchCitations)
    | Rejected _ => (params, [])
    end
  else (params, []).

(** The messages every attempt of the call sends. *)
Definition request_messages (params : Params)
           (webSearch : Outcome (list SearchResult * list Citation))
  : list Message :=
  messages (convertToOpenAIParams (fst (with_search params webSearch))).

End WithStringify.

(** Lines 456-473: the reply handed back, made of the text of the
    completion and the citations of the search. *)
Definition geminiLikeResponse (isSearchRequest : bool)
           (searchCitations : list Citation) (responseText : string)
  : SingleSearch.Response :=
  {| text := Some responseText;
     groundingChunks :=
       if isSearchRequest && (0 <? length searchCitations)%nat
       then Some (map (fun citation =>
                         Some {| uri := Some (c_url citation);
                                 web_title := Some (c_title citation) |})
                      searchCitations)
       else None |}.

(** No message of a user. *)
Definition no_user (l : list Message) : Prop :=
  List.Forall (fun m => role m <> "user") l.

(** The request [executeSingleSearch] makes. *)
Definition summarize_gold : Params :=
  {| model := "openrouter/auto";
     contents := One (Text (SingleSearch.contents "gold" ""));
     config := Some {| systemInstruction := Some "You are a researcher.";
                       responseMimeType := None; responseSchema := None;
                       tools := Some [ {| googleSearch := true |} ];
                       temperature := None; maxOutputTokens := None |} |}.

(** The citation [executeSingleSearch] makes of the grounding chunk the
    executor makes of a citation of its search. *)
Definition regrounded (citation : Citation) : MergedCitation :=
  {| m_url := Some (c_url citation);
     m_title := or_else (Some (c_title citation)) (Some (c_url citation));
     m_source := None |}.

End OpenRouterRequest.

(** * Properties *)

(** ** The key rotator *)

Module ApiKeyServiceSpec.
Import JsString ApiKeyService.

Lemma reachable_cursor s : reachable s -> -1 <= currentKeyIndex s.
Proof.
  induction 1 as [| s _ IH | ks s _ IH | s _ IH]; simpl; try lia.
  - unfold getNextApiKey.
    destruct (length (getApiKeys s) =? 0)%nat eqn:E; simpl; [exact IH|].
    apply Nat.eqb_neq in E.
    pose proof (Z.rem_bound_pos (currentKeyIndex s + 1)
                  (Z.of_nat (length (getApiKeys s)))).
    lia.
  - unfold setApiKeys. destruct (isEnvKey s); simpl; exact IH.
Qed.

Lemma nextPos_lt s :
  -1 <= currentKeyIndex s -> getApiKeys s <> [] ->
  (nextPos s < length (getApiKeys s))%nat.
Proof.
  intros Hc Hne. unfold nextPos.
  assert (0 < length (getApiKeys s))%nat
    by (destruct (getApiKeys s); [congruence | simpl; lia]).
  pose proof (Z.rem_bound_pos (currentKeyIndex s + 1)
                (Z.of_nat (length (getApiKeys s)))).
  lia.
Qed.

Lemma getNextApiKey_step s :
  -1 <= currentKeyIndex s -> getApiKeys s <> [] ->
  getNextApiKey s =
    (getApiKeys s !! nextPos s,
     {| userApiKeys := userApiKeys s; hasEnvKey := hasEnvKey s;
        currentKeyIndex := Z.of_nat (nextPos s);
        apiBaseUrl := apiBaseUrl s |}).
Proof.
  intros Hc Hne. unfold getNextApiKey, nextPos.
  assert (0 < length (getApiKeys s))%nat as Hlen
    by (destruct (getApiKeys s); [congruence | simpl; lia]).
  destruct (Nat.eqb_spec (length (getApiKeys s)) 0); [lia|].
  pose proof (Z.rem_bound_pos (currentKeyIndex s + 1)
                (Z.of_nat (length (getApiKeys s)))) as Hb.
  unfold js_index.
  destruct (Z.ltb_spec (Z.rem (currentKeyIndex s + 1)
                          (Z.of_nat (length (getApiKeys s)))) 0); [lia|].
  rewrite Z2Nat.id by lia. reflexivity.
Qed.

Lemma nextPos_after s :
  -1 <= currentKeyIndex s -> getApiKeys s <> [] ->
  nextPos (snd (getNextApiKey s)) =
    ((nextPos s + 1) mod length (getApiKeys s))%nat.
Proof.
  intros Hc Hne. rewrite getNextApiKey_step by assumption. simpl.
  unfold nextPos at 1. simpl. fold (getApiKeys s).
  assert (0 < length (getApiKeys s))%nat as Hlen
    by (destruct (getApiKeys s); [congruence | simpl; lia]).
  rewrite Z.rem_mod_nonneg by lia.
  replace (Z.of_nat (nextPos s) + 1) with (Z.of_nat (nextPos s + 1)) by lia.
  rewrite <- Nat2Z.inj_mod. apply Nat2Z.id.
Qed.

(** The values returned by [n] calls in a row: the pool read cyclically
    from the position of the first call. *)
Lemma nextKeys_cyclic n : forall s,
  -1 <= currentKeyIndex s -> getApiKeys s <> [] ->
  fst (nextKeys n s) =
    map (fun j => getApiKeys s !! ((nextPos s + j) mod length (getApiKeys s))%nat)
        (seq 0 n).
Proof.
  induction n as [|n IH]; intros s Hc Hne; [reflexivity|].
  pose proof (nextPos_lt s Hc Hne) as Hlt.
  pose proof (nextPos_after s Hc Hne) as Hafter.
  cbn [nextKeys]. rewrite getNextApiKey_step in * by assumption.
  cbn [snd] in Hafter.
  set (s1 := {| userApiKeys := userApiKeys s; hasEnvKey := hasEnvKey s;
                currentKeyIndex := Z.of_nat (nextPos s);
                apiBaseUrl := apiBaseUrl s |}) in *.
  assert (getApiKeys s1 = getApiKeys s) as Hk by reflexivity.
  assert (-1 <= currentKeyIndex s1) as Hc1 by (subst s1; simpl; lia).
  specialize (IH s1 Hc1). rewrite Hk in IH. specialize (IH Hne).
  destruct (nextKeys n s1) as [ks s2] eqn:E.
  cbn [fst] in *. cbn [seq map].
  rewrite Nat.add_0_r, Nat.mod_small by assumption. f_equal.
  rewrite IH, <- seq_shift, map_map. apply map_ext. intros j.
  rewrite Hafter, Nat.Div0.add_mod_idemp_l. do 2 f_equal. lia.
Qed.

(** *** Counting over whole periods *)

Lemma map_fmap {A B} (f : A -> B) (l : list A) : map f l = f <$> l.
Proof. reflexivity. Qed.

Lemma mod_wrap (k a i : nat) :
  (a < k)%nat -> (i < k)%nat ->
  ((a + i) mod k = if (a + i <? k)%nat then a + i else a + i - k)%nat.
Proof.
  intros Ha Hi. destruct (Nat.ltb_spec (a + i) k) as [H|H].
  - apply Nat.mod_small; exact H.
  - replace (a + i)%nat with ((a + i - k) + 1 * k)%nat at 1 by lia.
    rewrite Nat.Div0.mod_add. apply Nat.mod_small. lia.
Qed.

Lemma period_perm (k a : nat) :
  (a < k)%nat -> (fun j => (a + j) mod k)%nat <$> seq 0 k ≡ₚ seq 0 k.
Proof.
  intros Ha. apply NoDup_Permutation.
  - apply NoDup_fmap_2_strong; [|apply NoDup_seq].
    intros i j Hi%elem_of_seq Hj%elem_of_seq.
    rewrite !mod_wrap by lia.
    destruct (Nat.ltb_spec (a + i) k), (Nat.ltb_spec (a + j) k); lia.
  - apply NoDup_seq.
  - intros x. rewrite list_elem_of_fmap, elem_of_seq. split.
    + intros (j & -> & Hj%elem_of_seq).
      pose proof (Nat.mod_upper_bound (a + j) k). lia.
    + intros Hx. destruct (Nat.ltb_spec x a) as [H|H].
      * exists (x + k - a)%nat. rewrite elem_of_seq, mod_wrap by lia.
        destruct (Nat.ltb_spec (a + (x + k - a)) k); lia.
      * exists (x - a)%nat. rewrite elem_of_seq, mod_wrap by lia.
        destruct (Nat.ltb_spec (a + (x - a)) k); lia.
Qed.

Lemma lookup_all {A} (l : list A) :
  (fun i => l !! i) <$> seq 0 (length l) = Some <$> l.
Proof.
  induction l as [|x l IH]; [reflexivity|].
  cbn [length seq fmap list_fmap]. f_equal.
  rewrite <- fmap_S_seq, <- list_fmap_compose. exact IH.
Qed.

Lemma served_app key l1 l2 :
  served key (l1 ++ l2) = (served key l1 + served key l2)%nat.
Proof. unfold served. rewrite filter_app, length_app. reflexivity. Qed.

Lemma served_perm key l1 l2 : l1 ≡ₚ l2 -> served key l1 = served key l2.
Proof. intros H. unfold served. rewrite H. reflexivity. Qed.

Lemma served_Some key pool :
  served key (Some <$> pool) = occurrences key pool.
Proof.
  unfold served, occurrences. induction pool as [|x pool IH]; [reflexivity|].
  rewrite fmap_cons, !filter_cons.
  destruct (decide (x = key)) as [->|Hne].
  - rewrite decide_True by reflexivity. simpl. congruence.
  - rewrite decide_False by congruence. exact IH.
Qed.

(** One full period serves every position of the pool once. *)
Lemma served_period key (pool : list string) (a : nat) :
  (a < length pool)%nat ->
  served key ((fun j => pool !! ((a + j) mod length pool)%nat)
                <$> seq 0 (length pool))
  = occurrences key pool.
Proof.
  intros Ha.
  rewrite (served_perm key _ ((fun i => pool !! i) <$> seq 0 (length pool))).
  - rewrite lookup_all. apply served_Some.
  - rewrite <- (period_perm (length pool) a Ha) at 2.
    rewrite <- list_fmap_compose. reflexivity.
Qed.

Lemma served_periods key (pool : list string) (a m : nat) :
  (a < length pool)%nat ->
  served key ((fun j => pool !! ((a + j) mod length pool)%nat)
                <$> seq 0 (m * length pool))
  = (m * occurrences key pool)%nat.
Proof.
  intros Ha. induction m as [|m IH]; [reflexivity|].
  cbn [Nat.mul]. rewrite seq_app, fmap_app, served_app.
  rewrite served_period by exact Ha. f_equal.
  rewrite <- IH. f_equal.
  rewrite Nat.add_0_l, <- (Nat.add_0_r (length pool)) at 1.
  rewrite <- fmap_add_seq, <- list_fmap_compose.
  apply list_fmap_ext. intros _ j _. simpl. f_equal.
  replace (a + (length pool + j))%nat with (a + j + 1 * length pool)%nat by lia.
  apply Nat.Div0.mod_add.
Qed.

Lemma occurrences_NoDup key (pool : list string) :
  NoDup pool -> key ∈ pool -> occurrences key pool = 1%nat.
Proof.
  unfold occurrences. induction 1 as [|x pool Hx Hnd IH]; intros Hin.
  - inversion Hin.
  - rewrite filter_cons. destruct (decide (x = key)) as [->|Hne].
    + simpl. f_equal. clear IH Hin Hnd.
      induction pool as [|y pool IHp]; [reflexivity|].
      rewrite filter_cons, decide_False.
      * apply IHp. intros Hk. apply Hx. right. exact Hk.
      * intros ->. apply Hx. left.
    + apply IH. apply elem_of_cons in Hin as [->|Hin]; [congruence | exact Hin].
Qed.

(** C7.  Round-robin fairness: on a pool of [k >= 1] keys that nothing
    modifies in between, [N] calls of [getNextApiKey] in a row, [N] a
    multiple of [k], return every key of the pool exactly [N / k] times
    (a key stored at several positions is returned [N / k] times for
    each of them); and the call that follows [reset] returns the first
    key of the pool. *)
Theorem round_robin_fairness (s : t) (N : nat) (key : string) :
  reachable s -> getApiKeys s <> [] ->
  Nat.divide (length (getApiKeys s)) N ->
  served key (fst (nextKeys N s))
    = (N / length (getApiKeys s) * occurrences key (getApiKeys s))%nat
  /\ (NoDup (getApiKeys s) -> key ∈ getApiKeys s ->
      served key (fst (nextKeys N s)) = (N / length (getApiKeys s))%nat)
  /\ fst (getNextApiKey (reset s)) = head (getApiKeys s).
Proof.
  intros Hr Hne [m ->].
  pose proof (reachable_cursor s Hr) as Hc.
  assert (0 < length (getApiKeys s))%nat as Hlen
    by (destruct (getApiKeys s); [congruence | simpl; lia]).
  assert (served key (fst (nextKeys (m * length (getApiKeys s)) s))
          = (m * occurrences key (getApiKeys s))%nat) as Hcount.
  { rewrite nextKeys_cyclic, map_fmap by assumption.
    apply served_periods, nextPos_lt; assumption. }
  rewrite Nat.div_mul by lia. split; [exact Hcount|]. split.
  - intros Hnd Hin. rewrite Hcount, occurrences_NoDup by assumption. lia.
  - rewrite getNextApiKey_step; [| simpl; lia | exact Hne]. cbn [fst].
    change (getApiKeys (reset s)) with (getApiKeys s).
    replace (nextPos (reset s)) with 0%nat.
    + destruct (getApiKeys s); reflexivity.
    + unfold nextPos. simpl. rewrite Z.rem_0_l; [reflexivity|].
      change (userApiKeys s) with (getApiKeys s). lia.
Qed.

(** C10.  In every state the service can reach (whatever sequence of
    [getNextApiKey], [setApiKeys] and [reset] led to it, so also after
    the pool was replaced by a shorter one), [getNextApiKey] returns a
    member of the current pool when the pool is not empty, and returns
    [undefined] exactly when the pool is empty. *)
Theorem getNextApiKey_in_pool (s : t) :
  reachable s ->
  (getApiKeys s <> [] ->
     exists key, fst (getNextApiKey s) = Some key /\ key ∈ getApiKeys s)
  /\ (fst (getNextApiKey s) = None <-> getApiKeys s = []).
Proof.
  intros Hr. pose proof (reachable_cursor s Hr) as Hc.
  assert (getApiKeys s <> [] ->
          exists key, fst (getNextApiKey s) = Some key /\ key ∈ getApiKeys s)
    as Hsome.
  { intros Hne. rewrite getNextApiKey_step by assumption. cbn [fst].
    destruct (lookup_lt_is_Some_2 (getApiKeys s) (nextPos s)
                (nextPos_lt s Hc Hne)) as [key Hkey].
    exists key. split; [exact Hkey|].
    apply list_elem_of_lookup. exists (nextPos s). exact Hkey. }
  split; [exact Hsome|]. split.
  - intros Hnone. destruct (getApiKeys s) eqn:E; [reflexivity|].
    destruct Hsome as (key & Hk & _); congruence.
  - intros Hnil. unfold getNextApiKey. rewrite Hnil. reflexivity.
Qed.

Lemma getNextApiKey_in_pool_witness :
  reachable shrunk_service /\
  ((getApiKeys shrunk_service <> [] ->
     exists key, fst (getNextApiKey shrunk_service) = Some key
                 /\ key ∈ getApiKeys shrunk_service)
   /\ (fst (getNextApiKey shrunk_service) = None
       <-> getApiKeys shrunk_service = [])).
Proof.
  assert (reachable shrunk_service) as Hr
    by (unfold shrunk_service; do 3 constructor; apply reach_new).
  split; [exact Hr | exact (getNextApiKey_in_pool shrunk_service Hr)].
Defined.

Lemma round_robin_fairness_witness :
  reachable three_keys /\ getApiKeys three_keys <> [] /\
  Nat.divide (length (getApiKeys three_keys)) 6 /\
  served "k2" (fst (nextKeys 6 three_keys))
    = (6 / length (getApiKeys three_keys)
       * occurrences "k2" (getApiKeys three_keys))%nat
  /\ (NoDup (getApiKeys three_keys) -> "k2" ∈ getApiKeys three_keys ->
      served "k2" (fst (nextKeys 6 three_keys))
      = (6 / length (getApiKeys three_keys))%nat)
  /\ fst (getNextApiKey (reset three_keys)) = head (getApiKeys three_keys).
Proof.
  assert (reachable three_keys) as Hr by apply reach_new.
  assert (getApiKeys three_keys <> []) as Hne by (vm_compute; discriminate).
  assert (Nat.divide (length (getApiKeys three_keys)) 6) as Hd
    by (exists 2%nat; reflexivity).
  split; [exact Hr|]. split; [exact Hne|]. split; [exact Hd|].
  exact (round_robin_fairness three_keys 6 "k2" Hr Hne Hd).
Defined.

(** *** A few evaluations *)

Example parseKeys_example :
  ApiKeyService.parseKeys ",, first ,second;x
,third," = ["first"; "second;x"; "third"].
Proof. reflexivity. Qed.

Example rotation_example :
  fst (nextKeys 4 three_keys) = [Some "k1"; Some "k2"; Some "k3"; Some "k1"].
Proof. reflexivity. Qed.

Example shrunk_example :
  currentKeyIndex shrunk_service = 1
  /\ fst (getNextApiKey shrunk_service) = Some "only".
Proof. split; reflexivity. Qed.

End ApiKeyServiceSpec.

(** ** The retrying executors *)

Module ExecutorSpec.
Import JsString ApiKeyService ApiKeyServiceSpec Executor.

Lemma parseKeys_truthy ks : Forall (fun k => truthy k = true) (parseKeys ks).
Proof.
  unfold parseKeys. destruct (truthy ks); [|constructor].
  apply Forall_forall. intros k [Hk _]%list_elem_of_filter.
  destruct k; [discriminate | reflexivity].
Qed.

(** Every key of a reachable pool is a non-empty string. *)
Lemma reachable_truthy s :
  reachable s -> Forall (fun k => truthy k = true) (getApiKeys s).
Proof.
  induction 1 as [e st b | s _ IH | ks s _ IH | s _ IH]; try exact IH.
  - unfold new, getApiKeys; simpl.
    destruct (match e with Some k => truthy k | None => false end);
      apply parseKeys_truthy.
  - unfold getNextApiKey. destruct (length (getApiKeys s) =? 0)%nat; exact IH.
  - unfold setApiKeys. destruct (isEnvKey s); [exact IH|].
    apply parseKeys_truthy.
Qed.

Lemma getNextApiKey_ok s :
  pool_ok s ->
  exists k, truthy k = true /\ fst (getNextApiKey s) = Some k /\
            pool_ok (snd (getNextApiKey s)) /\
            getApiKeys (snd (getNextApiKey s)) = getApiKeys s.
Proof.
  intros (Hc & Hne & Hall).
  rewrite getNextApiKey_step by assumption. cbn [fst snd].
  destruct (lookup_lt_is_Some_2 (getApiKeys s) (nextPos s)
              (nextPos_lt s Hc Hne)) as [k Hk].
  exists k. split; [|split; [exact Hk|split; [|reflexivity]]].
  - eapply Forall_lookup_1 in Hall; [exact Hall | exact Hk].
  - repeat split; simpl; try lia; assumption.
Qed.

Lemma last_or_cons lastError e errs :
  last_or lastError (e :: errs) = last_or (Some e) errs.
Proof.
  unfold last_or. destruct errs as [|e' errs]; [reflexivity|].
  rewrite last_cons. destruct (last (e' :: errs)) eqn:E; [reflexivity|].
  apply last_None in E. discriminate.
Qed.

Lemma attempts_step a k e sleep evs :
  attempts (EvAttempt a k :: EvFailed a e
              :: match sleep with Some d => EvSleep d :: evs | None => evs end)
  = (a, k) :: attempts evs.
Proof. destruct sleep; reflexivity. Qed.

Lemma failures_step a k e sleep evs :
  failures (EvAttempt a k :: EvFailed a e
              :: match sleep with Some d => EvSleep d :: evs | None => evs end)
  = e :: failures evs.
Proof. destruct sleep; reflexivity. Qed.

(** C1.  The claim fails on the code.  Three keys, and every reply is a
    429 whose [RetryInfo] gives [retryDelay] as the number 30: every
    attempt fails, but the call makes one attempt only and what it
    throws is the [TypeError] of the catch block, not
    [AllKeysFailedError]. *)
Theorem numeric_retry_delay_escapes_the_retry_loop :
  let out := executeWithRetry (fun _ => None) "generateContent"
               "gemini-2.5-pro" gemini_429_retry_in_30 three_keys in
  getApiKeys three_keys = ["k1"; "k2"; "k3"]
  /\ (forall attempt key,
        exists e, gemini_try (gemini_429_retry_in_30 attempt key) = inr e
                  /\ status e = Some 429)
  /\ attempts (events out) = [(1, "k1")]
  /\ snd (fst out) = inr TypeError
  /\ forall msg, snd (fst out) <> inr (AllKeysFailedError msg).
Proof.
  cbv zeta. split; [reflexivity|]. split; [|split; [|split]].
  - intros attempt key. eexists. split; reflexivity.
  - vm_compute. reflexivity.
  - vm_compute. reflexivity.
  - intros msg H. vm_compute in H. discriminate H.
Qed.

(** *** Backoff *)

Lemma find_entry_ok details :
  forallb detail_ok details = true ->
  find_entry details = Some None
  \/ exists fields, find_entry details = Some (Some (Json.JObj fields))
                    /\ detail_ok (Json.JObj fields) = true.
Proof.
  induction details as [|d details IH]; intros Hok; [left; reflexivity|].
  cbn [forallb] in Hok. apply andb_prop in Hok as [Hd Hrest].
  cbn [find_entry].
  destruct d as [| | | | |fields]; try discriminate Hd.
  cbn [is_retryInfo].
  destruct (match Json.get "@type" fields with
            | Some (Json.JStr s) => String.eqb s RETRY_INFO
            | _ => false
            end).
  - right. exists fields. split; [reflexivity | exact Hd].
  - apply IH, Hrest.
Qed.

Lemma find_retryInfo_ok e :
  retry_info_well_formed e = true ->
  find_retryInfo e = Some None
  \/ exists fields, find_retryInfo e = Some (Some (Json.JObj fields))
                    /\ detail_ok (Json.JObj fields) = true.
Proof.
  unfold retry_info_well_formed, find_retryInfo.
  destruct (data e) as [body|]; [|left; reflexivity].
  destruct (error_details body) as [[| | | |details|]|];
    try discriminate; try (left; reflexivity).
  apply find_entry_ok.
Qed.

(** On a well-formed payload the catch block does not throw, and the
    delay it computes is the specified one. *)
Lemma gemini_delayMs_specified attempt keyCount e :
  retry_info_well_formed e = true ->
  gemini_delayMs attempt keyCount e
  = Some (specified_delayMs attempt keyCount e).
Proof.
  intros Hok. unfold gemini_delayMs, specified_delayMs, retry_after_seconds.
  destruct (find_retryInfo_ok e Hok) as [-> | (fields & -> & Hd)];
    [reflexivity|].
  cbn [Json.prop detail_ok] in *.
  destruct (Json.get "retryDelay" fields) as [[| | |rd| |]|];
    try discriminate Hd; [|reflexivity].
  cbn [Json.to_boolean].
  destruct rd as [|c rd]; [reflexivity|]. cbn [truthy].
  destruct (first_digits (String c rd)); reflexivity.
Qed.

(** Whatever the payload, a delay the catch block computes is the
    default one or the announced seconds plus 500ms. *)
Lemma gemini_delayMs_cases attempt keyCount e delayMs :
  gemini_delayMs attempt keyCount e = Some delayMs ->
  delayMs = 2000 * currentCycle attempt keyCount
  \/ exists seconds, retry_after_seconds e = Some seconds
                     /\ delayMs = seconds * 1000 + 500.
Proof.
  unfold gemini_delayMs, retry_after_seconds.
  destruct (find_retryInfo e) as [[r|]|]; [| |discriminate].
  - destruct (Json.prop "retryDelay" r) as [rd|].
    + destruct (Json.to_boolean rd).
      * destruct rd as [| | |rd| |]; try discriminate.
        destruct (first_digits rd) as [digits|].
        -- intros H. injection H as <-. right. eexists.
           split; reflexivity.
        -- intros H. injection H as <-. left. reflexivity.
      * intros H. injection H as <-. left. reflexivity.
    + intros H. injection H as <-. left. reflexivity.
  - intros H. injection H as <-. left. reflexivity.
Qed.

Section Sleeps.
Variable json_error_message : string -> option string.
Variable body : Z -> string -> AttemptResult.

Lemma retry_loop_head fuel : forall attempt svc lastError,
  no_leading_sleep
    (events (retry_loop json_error_message body fuel attempt svc lastError)).
Proof.
  induction fuel as [|fuel IH]; intros attempt svc lastError; [exact I|].
  cbn [retry_loop]. destruct (getNextApiKey svc) as [[k|] svc1]; [|apply IH].
  destruct (truthy k); [|apply IH].
  destruct (body attempt k) as [r|e sleep|e]; [exact I| |exact I].
  destruct (retry_loop json_error_message body fuel (attempt + 1) svc1 (Some e))
    as [[evs res] svc2].
  exact I.
Qed.

(** Every recorded failure is the failure of the pass numbered like
    it, and what follows it in the trace is the sleep that pass asked
    for; after a pass whose catch block threw there is no sleep. *)
Lemma retry_loop_sleeps fuel : forall attempt svc lastError a e,
  In (EvFailed a e)
     (events (retry_loop json_error_message body fuel attempt svc lastError)) ->
  attempt <= a /\
  exists key,
    body a key
    = Failed e (sleep_after a
         (events (retry_loop json_error_message body fuel attempt svc lastError)))
    \/ (body a key = Threw e /\
        sleep_after a
          (events (retry_loop json_error_message body fuel attempt svc lastError))
        = None).
Proof.
  induction fuel as [|fuel IH]; intros attempt svc lastError a e Hin;
    [destruct Hin|].
  cbn [retry_loop] in *.
  destruct (getNextApiKey svc) as [[k|] svc1];
    [| destruct (IH _ _ _ _ _ Hin) as [? ?]; split; [lia | assumption]].
  destruct (truthy k);
    [| destruct (IH _ _ _ _ _ Hin) as [? ?]; split; [lia | assumption]].
  destruct (body attempt k) as [r|e0 sleep|e0] eqn:Hbody.
  { cbn in Hin. destruct Hin as [Hin|[Hin|[]]]; discriminate. }
  2:{ cbn in Hin. destruct Hin as [Hin|[Hin|[]]]; [discriminate|].
      injection Hin as <- <-. split; [lia|]. exists k. right.
      split; [exact Hbody|]. cbn. rewrite Z.eqb_refl. reflexivity. }
  pose proof (retry_loop_head fuel (attempt + 1) svc1 (Some e0)) as Hhead.
  specialize (IH (attempt + 1) svc1 (Some e0) a e).
  destruct (retry_loop json_error_message body fuel (attempt + 1) svc1 (Some e0))
    as [[evs res] svc2].
  unfold events in *. cbn [fst] in *.
  destruct Hin as [Hin|[Hin|Hin]]; [discriminate| |].
  - injection Hin as <- <-. split; [lia|]. exists k. left.
    rewrite Hbody. f_equal.
    cbn [sleep_after]. rewrite Z.eqb_refl.
    destruct sleep; [reflexivity|].
    destruct evs as [|[] evs]; try reflexivity. destruct Hhead.
  - assert (In (EvFailed a e) evs) as Hin'
      by (destruct sleep; [destruct Hin as [Hin|Hin]; [discriminate|]|];
          exact Hin).
    destruct (IH Hin') as (Hle & key & Hkey).
    assert (sleep_after a
              (EvAttempt attempt k :: EvFailed attempt e0
                 :: match sleep with
                    | Some d => EvSleep d :: evs
                    | None => evs
                    end)
            = sleep_after a evs) as Hsame.
    { cbn [sleep_after]. destruct (Z.eqb_spec a attempt); [lia|].
      destruct sleep; reflexivity. }
    split; [lia|]. exists key. rewrite Hsame. exact Hkey.
Qed.
End Sleeps.





Example backoff_example :
  map (fun a => sleep_after a
                  (events (executeOpenRouterWithRetry (fun _ => None)
                             chat_always_429 three_keys)))
      [1; 3; 4; 6; 7; 9]
  = [Some 2000; Some 2000; Some 4000; Some 4000; Some 6000; Some 6000].
Proof. reflexivity. Qed.

End ExecutorSpec.

(** ** Trimming *)

Module JsStringSpec.
Import JsString.

Lemma prefix_chars_app t l : prefix_chars t l = true -> exists r, l = (t ++ r)%list.
Proof.
  revert l. induction t as [|a t IH]; intros l; [exists l; reflexivity|].
  destruct l as [|b l]; cbn; [discriminate|].
  intros [Hab Ht]%andb_true_iff. apply Ascii.eqb_eq in Hab. subst b.
  destruct (IH l Ht) as [r ->]. exists r. reflexivity.
Qed.

Lemma prefix_chars_extend t p q :
  prefix_chars t p = true -> prefix_chars t (p ++ q) = true.
Proof.
  revert p. induction t as [|a t IH]; intros p; [reflexivity|].
  destruct p as [|b p]; cbn; [discriminate|].
  intros [Hab Ht]%andb_true_iff. rewrite Hab, (IH p Ht). reflexivity.
Qed.

Section Tokens.
Variable tokens : list (list ascii).
Hypothesis tokens_nonempty : List.Forall (fun t => t <> []) tokens.

Lemma strip_Some l rest :
  strip tokens l = Some rest ->
  exists t, t <> [] /\ l = (t ++ rest)%list.
Proof.
  unfold strip. destruct (List.find _ tokens) as [t|] eqn:Hf; [|discriminate].
  intros [= <-]. apply find_some in Hf as [Hin Hp].
  rewrite List.Forall_forall in tokens_nonempty.
  exists t. split; [apply tokens_nonempty, Hin|].
  destruct (prefix_chars_app t l Hp) as [r ->].
  rewrite skipn_app, Nat.sub_diag, skipn_all. reflexivity.
Qed.

Lemma strip_None_prefix p q :
  strip tokens (p ++ q) = None -> strip tokens p = None.
Proof.
  unfold strip.
  destruct (List.find _ tokens) as [t|] eqn:Hf; [discriminate|]. intros _.
  destruct (List.find (fun t => prefix_chars t p) tokens) as [t|] eqn:Hp;
    [|reflexivity].
  apply find_some in Hp as [Hin Hp].
  pose proof (find_none _ _ Hf t Hin) as Hn. cbn in Hn.
  rewrite (prefix_chars_extend t p q Hp) in Hn. discriminate.
Qed.

Lemma drop_tokens_suffix fuel : forall l,
  exists pre, l = (pre ++ drop_tokens tokens fuel l)%list.
Proof.
  induction fuel as [|fuel IH]; intros l; [exists []; reflexivity|].
  cbn. destruct (strip tokens l) as [rest|] eqn:Hs; [|exists []; reflexivity].
  destruct (strip_Some l rest Hs) as (t & _ & ->).
  destruct (IH rest) as [pre Hpre]. exists (t ++ pre)%list.
  rewrite <- app_assoc, <- Hpre. reflexivity.
Qed.

Lemma drop_tokens_done fuel : forall l,
  (length l <= fuel)%nat -> strip tokens (drop_tokens tokens fuel l) = None.
Proof.
  induction fuel as [|fuel IH]; intros l Hl.
  - destruct l; [|cbn in Hl; lia]. cbn.
    destruct (strip tokens []) as [rest|] eqn:Hs; [|reflexivity].
    destruct (strip_Some [] rest Hs) as (t & Ht & Heq).
    destruct t; [contradiction | discriminate].
  - cbn. destruct (strip tokens l) as [rest|] eqn:Hs; [|exact Hs].
    apply IH. destruct (strip_Some l rest Hs) as (t & Ht & ->).
    rewrite length_app in Hl. destruct t; [contradiction|]. cbn in Hl. lia.
Qed.

Lemma drop_tokens_id fuel l :
  strip tokens l = None -> drop_tokens tokens fuel l = l.
Proof. intros H. destruct fuel; [reflexivity|]. cbn. rewrite H. reflexivity. Qed.

End Tokens.

Lemma WHITE_SPACE_nonempty : List.Forall (fun t => t <> []) WHITE_SPACE.
Proof. repeat constructor; discriminate. Qed.

Lemma WHITE_SPACE_rev_nonempty :
  List.Forall (fun t => t <> []) (map (@rev ascii) WHITE_SPACE).
Proof. repeat constructor; discriminate. Qed.

(** What [trim] leaves is a piece of its argument. *)
Lemma trim_chars_piece l :
  exists before after, l = (before ++ trim_chars l ++ after)%list.
Proof.
  unfold trim_chars, trimEnd_chars, trimStart_chars.
  destruct (drop_tokens_suffix WHITE_SPACE WHITE_SPACE_nonempty (length l) l)
    as [before Hb].
  set (a := drop_tokens WHITE_SPACE (length l) l) in *.
  destruct (drop_tokens_suffix (map (@rev ascii) WHITE_SPACE)
              WHITE_SPACE_rev_nonempty (length a) (rev a)) as [after Ha].
  exists before, (rev after). rewrite Hb at 1. f_equal.
  rewrite <- (rev_involutive a), Ha at 1. rewrite rev_app_distr. reflexivity.
Qed.

(** It neither starts nor ends with white space. *)
Lemma trim_chars_clean l :
  strip WHITE_SPACE (trim_chars l) = None
  /\ strip (map (@rev ascii) WHITE_SPACE) (rev (trim_chars l)) = None.
Proof.
  unfold trim_chars, trimEnd_chars, trimStart_chars.
  set (a := drop_tokens WHITE_SPACE (length l) l).
  assert (strip WHITE_SPACE a = None) as Ha
    by (apply drop_tokens_done; [apply WHITE_SPACE_nonempty | lia]).
  split.
  - destruct (drop_tokens_suffix (map (@rev ascii) WHITE_SPACE)
                WHITE_SPACE_rev_nonempty (length a) (rev a)) as [after Hafter].
    apply (strip_None_prefix WHITE_SPACE _ (rev after)).
    rewrite <- rev_app_distr, <- Hafter, rev_involutive. exact Ha.
  - rewrite rev_involutive.
    apply drop_tokens_done; [apply WHITE_SPACE_rev_nonempty|].
    rewrite length_rev. lia.
Qed.

Lemma trim_chars_id l :
  strip WHITE_SPACE l = None ->
  strip (map (@rev ascii) WHITE_SPACE) (rev l) = None ->
  trim_chars l = l.
Proof.
  intros H1 H2. unfold trim_chars, trimEnd_chars, trimStart_chars.
  rewrite (drop_tokens_id WHITE_SPACE _ l H1).
  rewrite (drop_tokens_id _ _ (rev l) H2). apply rev_involutive.
Qed.

Lemma chars_of_chars l : chars (of_chars l) = l.
Proof. apply list_ascii_of_string_of_list_ascii. Qed.

(** [s.trim().trim() = s.trim()] *)
Lemma trim_idempotent s : trim (trim s) = trim s.
Proof.
  unfold trim. rewrite chars_of_chars. f_equal.
  destruct (trim_chars_clean (chars s)). apply trim_chars_id; assumption.
Qed.

Lemma trim_chars_Forall (P : ascii -> Prop) l :
  List.Forall P l -> List.Forall P (trim_chars l).
Proof.
  intros H. destruct (trim_chars_piece l) as (before & after & Heq).
  rewrite Heq in H. apply List.Forall_app in H as [_ H].
  apply List.Forall_app in H as [H _]. exact H.
Qed.

(** Only the empty string has no code unit. *)
Lemma str_length_pos s : s <> "" -> (0 < str_length s)%nat.
Proof.
  destruct s as [|c s]; [contradiction|]. intros _.
  unfold str_length. cbn. unfold code_units.
  destruct (nat_of_ascii c <? 240)%nat; lia.
Qed.

End JsStringSpec.

(** ** The sanitizer of planner decisions *)

Module SanitizeSpec.
Import JsString JsStringSpec Json Planner.

Lemma existsb_allowed a :
  existsb (String.eqb a) allowed = true -> In a allowed.
Proof.
  intros (x & Hx & Heq)%existsb_exists.
  apply String.eqb_eq in Heq. subst x. exact Hx.
Qed.

Lemma sanitized_queries_ok stringify (qs : list Json.t) :
  let qs' := firstn 4 (List.filter (fun q => (0 <? str_length q)%nat)
                         (map trim (map (coerce stringify) qs))) in
  queries_ok (if (length qs' =? 0)%nat then None else Some qs').
Proof.
  intros qs'. destruct (Nat.eqb_spec (length qs') 0) as [|Hne]; [exact I|].
  split.
  - split; [lia|]. subst qs'. rewrite length_firstn. lia.
  - subst qs'. apply Forall_take, List.Forall_forall. intros q Hq.
    apply filter_In in Hq as [Hin Hlen].
    apply in_map_iff in Hin as (x & <- & _). split.
    + intros E. rewrite E in Hlen. discriminate.
    + apply trim_idempotent.
Qed.

Lemma normalized_action_allowed raw :
  In (if existsb (String.eqb (rawAction raw)) allowed
      then rawAction raw else "continue_debate") allowed.
Proof.
  destruct (existsb _ allowed) eqn:E.
  - apply existsb_allowed. exact E.
  - right. left. reflexivity.
Qed.

Lemma normalized_action_recognized raw :
  (if existsb (String.eqb (rawAction raw)) allowed
   then rawAction raw else "continue_debate")
  = default "continue_debate" (recognized raw).
Proof.
  unfold recognized, rawAction.
  destruct (prop "action" raw) as [[| | |a| |]|]; try reflexivity.
  destruct (existsb (String.eqb (toLowerCase (trim a))) allowed); reflexivity.
Qed.

Lemma normalized_queries_ok stringify raw :
  queries_ok
    match prop "queries" raw with
    | Some (JArr qs) =>
        let qs' := firstn 4 (List.filter (fun q => (0 <? str_length q)%nat)
                               (map trim (map (coerce stringify) qs))) in
        if (length qs' =? 0)%nat then None else Some qs'
    | _ => None
    end.
Proof.
  destruct (prop "queries" raw) as [[| | | |qs|]|]; try exact I.
  apply sanitized_queries_ok.
Qed.

Lemma normalized_reason_null stringify raw :
  match prop "finish_reason" raw with
  | None | Some JNull => None
  | Some r => Some (coerce stringify r)
  end = None
  <-> prop "finish_reason" raw = None \/ prop "finish_reason" raw = Some JNull.
Proof.
  destruct (prop "finish_reason" raw) as [[]|];
    split; intros H; try discriminate; try reflexivity; auto;
    destruct H as [H|H]; discriminate.
Qed.

(** C5.  [sanitizePlannerTurn] is a total function.  On a JSON object it
    returns [null] exactly when the property [thought] is absent or
    [null]; otherwise it returns a record whose [action] is one of
    [search], [continue_debate], [finish] (the trimmed, lower-cased
    [action] of the input when that is one of the three, and
    [continue_debate] when it is missing or anything else), whose
    [thought] is the input's as a string, whose [queries] is [null] or a
    list of one to four non-empty trimmed strings, and whose
    [finish_reason] is a string or [null]. *)
Theorem sanitizePlannerTurn_total
        (stringify : Json.t -> string) (fields : list (string * Json.t)) :
  let raw := JObj fields in
  match sanitizePlannerTurn stringify (Some raw) with
  | None => prop "thought" raw = None \/ prop "thought" raw = Some JNull
  | Some turn =>
      (exists rawThought,
          prop "thought" raw = Some rawThought /\ rawThought <> JNull /\
          thought turn = coerce stringify rawThought)
      /\ In (action turn) allowed
      /\ action turn = default "continue_debate" (recognized raw)
      /\ queries_ok (queries turn)
      /\ (finish_reason turn = None <->
          prop "finish_reason" raw = None \/
          prop "finish_reason" raw = Some JNull)
  end.
Proof.
  intros raw. unfold sanitizePlannerTurn. subst raw.
  destruct (prop "thought" (JObj fields)) as [rawThought|] eqn:Ht;
    [|left; reflexivity].
  destruct rawThought; [right; reflexivity | ..];
    (split; [eexists; split; [reflexivity|split; [discriminate | reflexivity]]|]);
    cbn [action queries finish_reason];
    (split; [apply normalized_action_allowed|]);
    (split; [apply normalized_action_recognized|]);
    (split; [apply normalized_queries_ok | apply normalized_reason_null]).
Qed.

Example sanitize_example :
  sanitizePlannerTurn (fun _ => "7")
    (Some (JObj [("thought", JNum "7"); ("action", JStr "  FINISH ");
                 ("queries", JArr [JStr " a "; JStr "   "; JNum "7"; JStr "b";
                                   JStr "c"; JStr "d"])]))
  = Some {| thought := "7"; action := "finish";
            queries := Some ["a"; "7"; "b"; "c"];
            finish_reason := None |}.
Proof. reflexivity. Qed.

Example sanitize_null_thought :
  sanitizePlannerTurn (fun _ => "")
    (Some (JObj [("thought", JNull); ("action", JStr "search")])) = None.
Proof. reflexivity. Qed.

(** White space outside ASCII is stripped like any other: an action
    and a query padded with no-break spaces. *)
Example sanitizePlannerTurn_strips_no_break_spaces :
  sanitizePlannerTurn (fun _ => "")
    (Some (JObj [("thought", JStr "Done.");
                 ("action", JStr (nbsp ++ "Finish" ++ nbsp));
                 ("queries", JArr [JStr nbsp; JStr ("x" ++ nbsp)])]))
  = Some {| thought := "Done."; action := "finish";
            queries := Some ["x"]; finish_reason := None |}.
Proof. reflexivity. Qed.

End SanitizeSpec.

(** ** The planner loop *)

Module PlannerSpec.
Import JsString Json Planner.

Section Run.
Variable stringify : Json.t -> string.
Variable params : ResearchParams.
Variable searchCycles : Z.

Abbreviation turn := (planner_turn stringify params searchCycles).
Abbreviation loop := (planner_loop stringify params searchCycles).

Lemma count_finish_keeps action st :
  debateTurns (count_finish action st) = debateTurns st.
Proof. unfold count_finish. destruct (String.eqb action "finish"); reflexivity. Qed.

(** The minimum-cycle rule only emits: it leaves the persona, the turn
    counter, the finish counter and the conversation as they are. *)
Lemma enforce_keeps action st :
  let st' := snd (enforce_min_cycles params searchCycles action st) in
  nextPersona st' = nextPersona st /\ debateTurns st' = debateTurns st /\
  consecutiveFinishAttempts st' = consecutiveFinishAttempts st /\
  currentConversation st' = currentConversation st.
Proof.
  unfold enforce_min_cycles.
  destruct (String.eqb action "finish" && (searchCycles <? minCycles params));
    [destruct (2 <=? consecutiveFinishAttempts st)%nat|]; cbn; auto.
Qed.

Lemma act_keeps parsed eff st :
  debateTurns (step_state (act parsed eff st)) = debateTurns st.
Proof.
  unfold act. destruct (String.eqb eff "finish"); [reflexivity|].
  destruct (String.eqb eff "search"), (queries parsed) as [[|q qs]|];
    reflexivity.
Qed.

(** Every pass through the body counts one turn, however it ends. *)
Lemma planner_turn_counts st input :
  debateTurns (step_state (snd (turn st input))) = S (debateTurns st).
Proof.
  unfold planner_turn. destruct input as [|text raw cancelled]; [reflexivity|].
  destruct (usable _) as [parsed|]; cbn [say emit]; destruct cancelled;
    try reflexivity.
  pose proof (enforce_keeps (action parsed)
                (count_finish (action parsed)
                   (snd (say (count_turn st) (thought parsed)))))
    as (_ & Hd & _).
  cbn [say emit fst snd] in Hd.
  destruct (enforce_min_cycles _ _ _ _) as [[notice eff] st3].
  cbn [snd fst] in *. rewrite act_keeps, Hd, count_finish_keeps. reflexivity.
Qed.

(** The loop makes at most [fuel] turns. *)
Lemma planner_loop_bound inputs fuel : forall st,
  (debateTurns st <= debateTurns (step_state (snd (loop inputs fuel st)))
   <= debateTurns st + fuel)%nat.
Proof.
  induction fuel as [|fuel IH]; intros st.
  - cbn. lia.
  - cbn [planner_loop].
    pose proof (planner_turn_counts st (inputs (S (debateTurns st)))) as Hc.
    destruct (turn st (inputs (S (debateTurns st)))) as [us [st1|r st1|st1]];
      cbn [snd step_state] in *; try lia.
    specialize (IH st1). destruct (loop inputs fuel st1) as [us' step'].
    cbn [snd] in *. lia.
Qed.

Lemma planner_loop_times_out inputs fuel : forall st,
  keeps_debating stringify params searchCycles inputs ->
  debateTurns (step_state (snd (loop inputs fuel st))) = (debateTurns st + fuel)%nat
  /\ exists st', snd (loop inputs fuel st) = Return timed_out st'.
Proof.
  intros st Hk. revert st. induction fuel as [|fuel IH]; intros st.
  - cbn. split; [lia | eexists; reflexivity].
  - cbn [planner_loop].
    pose proof (planner_turn_counts st (inputs (S (debateTurns st)))) as Hc.
    destruct (Hk (S (debateTurns st)) st) as (us & st1 & Hturn).
    rewrite Hturn in *. cbn [snd step_state] in Hc.
    specialize (IH st1). destruct (loop inputs fuel st1) as [us' step'].
    cbn [snd] in *. destruct IH as [IH1 IH2]. split; [lia | exact IH2].
Qed.

End Run.

Lemma decides_continue_keeps stringify params searchCycles inputs :
  (forall t, decides_continue stringify (inputs t)) ->
  keeps_debating stringify params searchCycles inputs.
Proof.
  intros H t st. destruct (H t) as (text & raw & d & -> & Hs & Ht & Ha).
  unfold planner_turn, usable. rewrite Hs, Ht, Ha. cbn.
  rewrite Ha. cbn. eauto.
Qed.

(** How a turn that goes on leaves the counter of consecutive [finish]
    decisions: one more after a [finish], zero after any other decision,
    unchanged when the turn had no decision. *)
Lemma finish_counter stringify params searchCycles st input us st' :
  planner_turn stringify params searchCycles st input = (us, Continue st') ->
  consecutiveFinishAttempts st' =
    match decision_of stringify input with
    | Some d => if String.eqb (action d) "finish"
                then S (consecutiveFinishAttempts st) else 0%nat
    | None => consecutiveFinishAttempts st
    end.
Proof.
  unfold planner_turn, decision_of.
  destruct input as [|text raw cancelled]; [discriminate|].
  destruct (usable _) as [d|]; cbn [say emit]; destruct cancelled;
    try discriminate.
  - pose proof (enforce_keeps params searchCycles (action d)
                  (count_finish (action d)
                     (snd (say (count_turn st) (thought d)))))
      as (_ & _ & Hc & _).
    cbn [say emit fst snd] in Hc.
    destruct (enforce_min_cycles _ _ _ _) as [[notice eff] st3].
    cbn [snd] in Hc. intros H. injection H as _ Hact.
    unfold act in Hact.
    destruct (String.eqb eff "finish"); [discriminate|].
    assert (flip st3 = st') as <-
      by (destruct (String.eqb eff "search"), (queries d) as [[|q qs]|];
          congruence).
    cbn [flip consecutiveFinishAttempts]. rewrite Hc.
    unfold count_finish. destruct (String.eqb (action d) "finish"); reflexivity.
  - intros H. injection H as _ <-. reflexivity.
Qed.

(** A turn that hands over, in the sense of [hands_over], falls through
    to the next iteration. *)
Lemma hands_over_continue stringify params searchCycles st input :
  hands_over stringify params searchCycles (consecutiveFinishAttempts st) input
  = true ->
  exists us st',
    planner_turn stringify params searchCycles st input = (us, Continue st').
Proof.
  unfold hands_over, planner_turn, decision_of.
  destruct input as [|text raw [|]]; try discriminate.
  destruct (usable _) as [d|]; cbn [say emit]; [|eauto].
  unfold count_finish, enforce_min_cycles.
  destruct (String.eqb (action d) "finish") eqn:Ef.
  - intros [Hlt Hz]%andb_prop. rewrite Hlt.
    cbn [andb set_finishes consecutiveFinishAttempts count_turn].
    apply Nat.eqb_eq in Hz. rewrite Hz. cbn. eauto.
  - cbn [andb]. unfold act. rewrite Ef.
    destruct (String.eqb (action d) "search"), (queries d) as [[|q qs]|];
      try discriminate; eauto.
Qed.

(** When every turn the budget allows hands over, the loop uses the
    whole budget and the call reports the timeout. *)
Lemma planner_loop_hands_over stringify params searchCycles inputs first fuel :
  forall st k0,
  debateTurns st = (first + k0)%nat ->
  consecutiveFinishAttempts st = finish_attempts stringify inputs first k0 ->
  (forall k, (k0 <= k < k0 + fuel)%nat ->
     hands_over stringify params searchCycles
       (finish_attempts stringify inputs first k) (inputs (first + S k)%nat)
     = true) ->
  debateTurns (step_state (snd (planner_loop stringify params searchCycles
                                  inputs fuel st)))
  = (debateTurns st + fuel)%nat
  /\ exists st', snd (planner_loop stringify params searchCycles inputs fuel st)
                 = Return timed_out st'.
Proof.
  induction fuel as [|fuel IH]; intros st k0 Hd Hc Hall.
  - cbn. split; [lia | eexists; reflexivity].
  - cbn [planner_loop].
    pose proof (planner_turn_counts stringify params searchCycles st
                  (inputs (S (debateTurns st)))) as Hcount.
    assert (S (debateTurns st) = (first + S k0)%nat) as Hnext by lia.
    pose proof (Hall k0 ltac:(lia)) as Hk. rewrite <- Hc, <- Hnext in Hk.
    destruct (hands_over_continue _ _ _ _ _ Hk) as (us & st1 & Hturn).
    pose proof (finish_counter _ _ _ _ _ _ _ Hturn) as Hfc.
    rewrite Hturn in *. cbn [snd step_state] in Hcount.
    destruct (IH st1 (S k0)) as [IH1 IH2].
    + lia.
    + rewrite Hfc. cbn [finish_attempts]. rewrite <- Hnext, Hc. reflexivity.
    + intros k Hk'. apply Hall. lia.
    + destruct (planner_loop stringify params searchCycles inputs fuel st1)
        as [us' step'].
      cbn [snd] in *. split; [lia | exact IH2].
Qed.

(** C3.  The planner always returns or throws after at most
    [maxDebateRounds] turns (the turns of the reconstructed tail count
    against the budget).  When no turn of the call ends the debate, be it
    by a [search] or [finish] decision or by an exception, it stops when
    the budget is used up and returns [should_finish = true] with the
    reason ['Planning debate timed out.']; a [finish] that the
    minimum-cycle rule overrides does not end it.  With an empty
    reconstructed tail and every turn deciding [continue_debate] it does
    so after exactly [maxDebateRounds] turns. *)
Theorem planner_terminates
        (stringify : Json.t -> string)
        (researchHistory : list ResearchUpdate) (idCounter0 : Z)
        (params : ResearchParams) (searchCycles : Z)
        (inputs : nat -> TurnInput) :
  let out := runDynamicConversationalPlanner stringify researchHistory
               idCounter0 params searchCycles inputs in
  let first := length (reconstruct researchHistory) in
  let budget := rounds_left params first in
  (turns_made researchHistory out <= budget)%nat
  /\ (0 <= maxDebateRounds params ->
      Z.of_nat (turns_made researchHistory out) <= maxDebateRounds params)
  /\ ((forall k, (k < budget)%nat ->
         hands_over stringify params searchCycles
           (finish_attempts stringify inputs first k)
           (inputs (first + S k)%nat) = true) ->
      turns_made researchHistory out = budget /\
      exists st, snd out = Return timed_out st)
  /\ (keeps_debating stringify params searchCycles inputs ->
      turns_made researchHistory out = budget /\
      exists st, snd out = Return timed_out st)
  /\ (reconstruct researchHistory = [] -> 0 <= maxDebateRounds params ->
      (forall t, decides_continue stringify (inputs t)) ->
      Z.of_nat (turns_made researchHistory out) = maxDebateRounds params /\
      exists st, snd out = Return timed_out st).
Proof.
  intros out first budget. subst out first budget.
  unfold runDynamicConversationalPlanner, turns_made.
  set (st0 := initial researchHistory idCounter0).
  assert (debateTurns st0 = length (reconstruct researchHistory)) as Hd0
    by reflexivity.
  rewrite Hd0.
  pose proof (planner_loop_bound stringify params searchCycles inputs
                (rounds_left params (length (reconstruct researchHistory))) st0)
    as Hb.
  assert (keeps_debating stringify params searchCycles inputs ->
          (debateTurns (step_state (snd (planner_loop stringify params
              searchCycles inputs
              (rounds_left params (length (reconstruct researchHistory))) st0)))
           - length (reconstruct researchHistory))%nat
          = rounds_left params (length (reconstruct researchHistory))
          /\ exists st, snd (planner_loop stringify params searchCycles inputs
              (rounds_left params (length (reconstruct researchHistory))) st0)
              = Return timed_out st) as Hk.
  { intros Hk.
    destruct (planner_loop_times_out stringify params searchCycles inputs
                (rounds_left params (length (reconstruct researchHistory)))
                st0 Hk) as [H1 H2].
    split; [lia | exact H2]. }
  split; [lia|]. split; [unfold rounds_left in *; lia|].
  split; [|split; [exact Hk|]].
  { intros Hall.
    destruct (planner_loop_hands_over stringify params searchCycles inputs
                (length (reconstruct researchHistory))
                (rounds_left params (length (reconstruct researchHistory)))
                st0 0%nat) as [H1 H2].
    - rewrite Hd0. lia.
    - reflexivity.
    - intros k Hk'. apply Hall. lia.
    - split; [lia | exact H2]. }
  intros Hnil Hmax Hall.
  destruct (Hk (decides_continue_keeps _ _ _ _ Hall)) as [H1 H2].
  split; [|exact H2]. rewrite H1, Hnil. unfold rounds_left. simpl. lia.
Qed.

Lemma planner_terminates_witness :
  (let out := runDynamicConversationalPlanner (fun _ => "") [] 0
                default_params 0 keep_going in
   Z.of_nat (turns_made [] out) = 20 /\
   exists st, snd out = Return timed_out st)
  /\ (let out := runDynamicConversationalPlanner (fun _ => "") [] 0
                   default_params 3 finish_and_continue in
      turns_made [] out = 20%nat /\
      exists st, snd out = Return timed_out st).
Proof.
  split.
  - destruct (planner_terminates (fun _ => "") [] 0 default_params 0 keep_going)
      as (_ & _ & _ & _ & H).
    apply H.
    + reflexivity.
    + simpl. lia.
    + intros t. unfold decides_continue, keep_going.
      do 3 eexists. repeat split; reflexivity.
  - destruct (planner_terminates (fun _ => "") [] 0 default_params 3
                finish_and_continue)
      as (_ & _ & H & _).
    apply H. intros k Hk.
    do 20 (destruct k as [|k]; [reflexivity|]).
    vm_compute in Hk. lia.
Defined.

(** Below the floor ([searchCycles = 3], [minCycles = 7]) every other
    turn wants to finish and is overridden: the call times out after its
    twenty turns. *)
Example overridden_finishes_time_out :
  let out := runDynamicConversationalPlanner (fun _ => "") [] 0
               default_params 3 finish_and_continue in
  turns_made [] out = 20%nat
  /\ result_reason_of out = Some "Planning debate timed out.".
Proof. split; reflexivity. Qed.

(** *** The minimum-cycle rule *)

(** C4, as amended.  A turn whose usable sanitized decision (one with a
    non-empty thought) is [finish] while [searchCycles < minCycles]: when
    the counter of [finish] decisions is 0 the action is overridden, a
    "Rule violation" notice is emitted and the loop goes on with the
    other persona; when the counter is already 1 or more the finish is
    honored and the planner returns [should_finish = true].  The counter
    starts at 0 in every call; a turn that goes on adds one to it when
    its usable decision is [finish], sets it to 0 when its usable
    decision is another one, and leaves it as it is when the reply has no
    usable decision: such a turn, whatever the action of its sanitized
    decision, shows one thought, no notice, and goes on. *)
Theorem minimum_cycle_rule
        (stringify : Json.t -> string) (params : ResearchParams)
        (searchCycles : Z) (st : State)
        (text : string) (raw : option Json.t) (d : PlannerTurn) :
  usable (sanitizePlannerTurn stringify raw) = Some d ->
  action d = "finish" ->
  searchCycles < minCycles params ->
  let out := planner_turn stringify params searchCycles st
                          (Reply text raw false) in
  (consecutiveFinishAttempts st = 0%nat ->
     exists st',
       snd out = Continue st' /\
       nextPersona st' = other (nextPersona st) /\
       consecutiveFinishAttempts st' = 1%nat /\
       map content (fst out) = [thought d; rule_violation params])
  /\ ((1 <= consecutiveFinishAttempts st)%nat ->
      exists r st',
        snd out = Return r st' /\
        should_finish r = true /\ search_queries r = [])
  /\ (forall researchHistory idCounter0,
        consecutiveFinishAttempts (initial researchHistory idCounter0) = 0%nat)
  /\ (forall st0 input us st1,
        planner_turn stringify params searchCycles st0 input
        = (us, Continue st1) ->
        consecutiveFinishAttempts st1 =
          match decision_of stringify input with
          | Some d' => if String.eqb (action d') "finish"
                       then S (consecutiveFinishAttempts st0) else 0%nat
          | None => consecutiveFinishAttempts st0
          end)
  /\ (forall st0 text0 raw0,
        usable (sanitizePlannerTurn stringify raw0) = None ->
        exists u st1,
          planner_turn stringify params searchCycles st0
                       (Reply text0 raw0 false) = ([u], Continue st1)
          /\ nextPersona st1 = other (nextPersona st0)
          /\ consecutiveFinishAttempts st1 = consecutiveFinishAttempts st0).
Proof.
  intros Hu Ha Hlt out. subst out.
  assert ((searchCycles <? minCycles params) = true) as Hltb
    by (apply Z.ltb_lt; exact Hlt).
  split; [|split; [|split;
    [reflexivity
    | split; [intros st0 input us st1; apply finish_counter|];
      intros st0 text0 raw0 Hnone; unfold planner_turn; rewrite Hnone;
      cbn; do 2 eexists; repeat split]]];
    unfold planner_turn; rewrite Hu; cbn [say emit];
    unfold count_finish, enforce_min_cycles; rewrite Ha, Hltb;
    cbn [String.eqb Ascii.eqb Bool.eqb andb set_finishes
         consecutiveFinishAttempts count_turn].
  - intros ->. cbn. eexists. repeat split.
  - intros Hge.
    destruct (consecutiveFinishAttempts st) as [|n]; [lia|].
    cbn. do 2 eexists. repeat split.
Qed.

Lemma minimum_cycle_rule_witness :
  (exists st',
      snd (planner_turn (fun _ => "") default_params 3 (initial [] 0)
                        wants_to_finish) = Continue st' /\
      nextPersona st' = Beta /\ consecutiveFinishAttempts st' = 1%nat)
  /\ (exists r st',
         snd (planner_turn (fun _ => "") default_params 3 after_first_finish
                           wants_to_finish) = Return r st' /\
         should_finish r = true /\ search_queries r = []).
Proof.
  split.
  - destruct (minimum_cycle_rule (fun _ => "") default_params 3 (initial [] 0)
                "{...}" finish_json finish_decision eq_refl eq_refl
                ltac:(simpl; lia))
      as (H & _).
    destruct (H eq_refl) as (st' & H1 & H2 & H3 & _).
    exists st'. repeat split; assumption.
  - destruct (minimum_cycle_rule (fun _ => "") default_params 3
                after_first_finish "{...}" finish_json finish_decision
                eq_refl eq_refl ltac:(simpl; lia))
      as (_ & H & _).
    apply H. vm_compute. lia.
Defined.

(** C4 as stated fails.  Below the floor, the first two replies of a
    call both sanitize to a [finish] decision, the first with an empty
    thought.  The first is not overridden: its turn shows the raw text
    and no notice, and does not count as a [finish].  The second, though
    the second [finish] in a row, is not honored: the call returns in its
    third turn. *)
Lemma second_finish_after_empty_thought_not_honored :
  (exists d1 d2,
      sanitized (fun _ => "") (thoughtless_finish_first 1) = Some d1
      /\ action d1 = "finish"
      /\ sanitized (fun _ => "") (thoughtless_finish_first 2) = Some d2
      /\ action d2 = "finish")
  /\ 3 < minCycles default_params
  /\ map content
       (fst (planner_turn (fun _ => "") default_params 3 (initial [] 0)
                          (thoughtless_finish_first 1)))
     = ["{...}"]
  /\ turns_made []
       (runDynamicConversationalPlanner (fun _ => "") [] 0 default_params 3
                                        thoughtless_finish_first) = 3%nat
  /\ ~ second_finish_honored (fun _ => "") default_params 3
        thoughtless_finish_first.
Proof.
  split; [do 2 eexists; repeat split; reflexivity|].
  split; [reflexivity|]. split; [reflexivity|]. split; [reflexivity|].
  intros [H _]. vm_compute in H. discriminate H.
Qed.

(** *** Alternation of the personas *)

Lemma other_neq p : p <> other p.
Proof. destruct p; discriminate. Qed.

Lemma alt_seq_alternating n : forall p, alternating (alt_seq p n).
Proof.
  induction n as [|n IH]; intros p; [exact I|].
  cbn [alt_seq]. specialize (IH (other p)).
  destruct n as [|n]; [exact I|].
  cbn [alt_seq alternating] in *. split; [apply other_neq | exact IH].
Qed.

Section Alternation.
Variable stringify : Json.t -> string.
Variable params : ResearchParams.
Variable searchCycles : Z.

Lemma speakers_app us1 us2 :
  speakers (us1 ++ us2) = (speakers us1 ++ speakers us2)%list.
Proof. unfold speakers. apply omap_app. Qed.

(** What one turn adds: nothing when it throws before the reply;
    otherwise one entry of the conversation under [nextPersona], spoken
    once or (with the "Rule violation" notice) twice, after which the
    other persona is next. *)
Lemma planner_turn_speaks st input :
  let out := planner_turn stringify params searchCycles st input in
  (currentConversation (step_state (snd out)) = currentConversation st
   /\ speakers (fst out) = [] /\ forall st', snd out <> Continue st')
  \/ (exists c mark,
        currentConversation (step_state (snd out))
        = (currentConversation st ++ [(nextPersona st, c)])%list
        /\ speakers (fst out) = expand [nextPersona st] [mark]
        /\ forall st', snd out = Continue st' ->
                      nextPersona st' = other (nextPersona st)).
Proof.
  intros out. subst out.
  unfold planner_turn. destruct input as [|text raw cancelled].
  { left. repeat split. discriminate. }
  right. destruct (usable _) as [d|]; cbn [say emit].
  - destruct cancelled.
    { exists (thought d), false. repeat split. discriminate. }
    pose proof (enforce_keeps params searchCycles (action d)
                  (count_finish (action d)
                     (snd (say (count_turn st) (thought d)))))
      as (Hp & _ & _ & Hconv).
    cbn [say emit fst snd] in Hp, Hconv.
    assert (Hn : exists mark,
      speakers (fst (fst (enforce_min_cycles params searchCycles (action d)
         (count_finish (action d)
            (snd (say (count_turn st) (thought d)))))))
      = if mark : bool then [nextPersona st] else []).
    { unfold enforce_min_cycles.
      destruct (String.eqb (action d) "finish" && (searchCycles <? minCycles params));
        [destruct (2 <=? _)%nat|]; cbn.
      - exists false. reflexivity.
      - exists true. unfold count_finish.
        destruct (String.eqb (action d) "finish"); reflexivity.
      - exists false. reflexivity. }
    destruct Hn as [mark Hn]. cbn [say emit fst snd] in Hn.
    destruct (enforce_min_cycles _ _ _ _) as [[notice eff] st3].
    cbn [fst snd] in *.
    assert (forall st1,
               nextPersona (count_finish (action d) st1) = nextPersona st1
               /\ currentConversation (count_finish (action d) st1)
                  = currentConversation st1) as Hcf
      by (intros st1; unfold count_finish;
          destruct (String.eqb (action d) "finish"); split; reflexivity).
    rewrite (proj1 (Hcf _)) in Hp. rewrite (proj2 (Hcf _)) in Hconv.
    cbn [nextPersona currentConversation] in Hp, Hconv.
    exists (thought d), mark. split; [|split].
    + unfold act. destruct (String.eqb eff "finish"); [exact Hconv|].
      destruct (String.eqb eff "search"), (queries d) as [[|q qs]|];
        exact Hconv.
    + match goal with
      | |- speakers (?u :: notice) = _ =>
          change (speakers (u :: notice)) with (speakers ([u] ++ notice))
      end.
      rewrite speakers_app, Hn. destruct mark; reflexivity.
    + intros st'. unfold act. destruct (String.eqb eff "finish"); [discriminate|].
      destruct (String.eqb eff "search"), (queries d) as [[|q qs]|];
        intros H; try discriminate; injection H as <-;
        cbn [flip nextPersona]; rewrite Hp; reflexivity.
  - eexists _, false. destruct cancelled; repeat split;
      intros st' H; try discriminate. injection H as <-. reflexivity.
Qed.

(** The turns of a run of the loop alternate from [nextPersona] on, and
    the persona-attributed thoughts emitted are those turns, each spoken
    once or twice. *)
Lemma planner_loop_speaks inputs fuel : forall st,
  let out := planner_loop stringify params searchCycles inputs fuel st in
  exists new marks,
    currentConversation (step_state (snd out))
    = (currentConversation st ++ new)%list
    /\ map fst new = alt_seq (nextPersona st) (length new)
    /\ length marks = length new
    /\ speakers (fst out) = expand (map fst new) marks.
Proof.
  induction fuel as [|fuel IH]; intros st out; subst out.
  - exists [], []. cbn. rewrite app_nil_r. repeat split.
  - cbn [planner_loop].
    pose proof (planner_turn_speaks st (inputs (S (debateTurns st)))) as Ht.
    destruct (planner_turn stringify params searchCycles st
                (inputs (S (debateTurns st)))) as [us step].
    cbn [fst snd] in Ht.
    destruct Ht as [(Hconv & Hsp & Hnc) | (c & mark & Hconv & Hsp & Hnext)].
    + exists [], []. rewrite app_nil_r.
      destruct step as [st1|r st1|st1];
        [exfalso; exact (Hnc st1 eq_refl) | |]; repeat split; assumption.
    + destruct step as [st1|r st1|st1].
      * specialize (IH st1). cbn [step_state] in Hconv.
        specialize (Hnext st1 eq_refl).
        destruct (planner_loop stringify params searchCycles inputs fuel st1)
          as [us' step'].
        cbn [fst snd] in *.
        destruct IH as (new & marks & IHc & IHa & IHl & IHs).
        exists ((nextPersona st, c) :: new), (mark :: marks).
        rewrite IHc, Hconv, <- app_assoc, speakers_app, Hsp, IHs.
        cbn [map fst length alt_seq expand].
        split; [reflexivity|]. split; [rewrite <- Hnext, <- IHa; reflexivity|].
        split; [rewrite IHl; reflexivity|].
        rewrite app_nil_r. reflexivity.
      * exists [(nextPersona st, c)], [mark]. cbn [fst snd step_state] in *.
        repeat split; assumption.
      * exists [(nextPersona st, c)], [mark]. cbn [fst snd step_state] in *.
        repeat split; assumption.
Qed.

End Alternation.

(** C9, as amended.  The first new turn belongs to the persona opposite
    to the one who spoke last in the reconstructed tail ([Alpha] when the
    tail is empty), and the turns the call adds to the conversation
    strictly alternate between the personas.  The stream of emitted
    updates carries each of these turns as a thought of its persona,
    followed in some cases (the "Rule violation" notice of an overridden
    [finish]) by a second thought under the same persona. *)
Theorem personas_alternate
        (stringify : Json.t -> string)
        (researchHistory : list ResearchUpdate) (idCounter0 : Z)
        (params : ResearchParams) (searchCycles : Z)
        (inputs : nat -> TurnInput) :
  let out := runDynamicConversationalPlanner stringify researchHistory
               idCounter0 params searchCycles inputs in
  let first := match lastPersona researchHistory with
               | Some p => other p
               | None => Alpha
               end in
  exists new marks,
    currentConversation (step_state (snd out))
    = (reconstruct researchHistory ++ new)%list
    /\ map fst new = alt_seq first (length new)
    /\ alternating (map fst new)
    /\ length marks = length new
    /\ speakers (fst out) = expand (map fst new) marks.
Proof.
  intros out first. subst out. unfold runDynamicConversationalPlanner.
  destruct (planner_loop_speaks stringify params searchCycles inputs
              (rounds_left params
                 (debateTurns (initial researchHistory idCounter0)))
              (initial researchHistory idCounter0))
    as (new & marks & Hc & Ha & Hl & Hs).
  assert (nextPersona (initial researchHistory idCounter0) = first) as Hfirst
    by (subst first; cbn; destruct (lastPersona researchHistory) as [[]|];
        reflexivity).
  rewrite Hfirst in Ha.
  exists new, marks. repeat split; try assumption.
  rewrite Ha. apply alt_seq_alternating.
Qed.

(** C9 as stated fails: a [finish] below the floor is followed by the
    notice of the rule, under the same persona.  Here the stream is
    Alpha, Alpha (notice), Beta. *)
Lemma rule_violation_repeats_persona :
  ~ alternating
      (speakers (fst (runDynamicConversationalPlanner (fun _ => "") [] 0
                        default_params 3 (fun _ => wants_to_finish)))).
Proof. vm_compute. intros [H _]. apply H. reflexivity. Qed.

Example two_finishes_example :
  map (fun u => (persona u, id u))
      (fst (runDynamicConversationalPlanner (fun _ => "") [] 0
              default_params 3 (fun _ => wants_to_finish)))
  = [(Some Alpha, 0); (Some Alpha, 1); (Some Beta, 2); (None, 3)]
  /\ exists st,
      snd (runDynamicConversationalPlanner (fun _ => "") [] 0
             default_params 3 (fun _ => wants_to_finish))
      = Return {| search_queries := []; should_finish := true;
                  result_reason := Some "Sources agree." |} st.
Proof. split; [reflexivity | eexists; reflexivity]. Qed.

End PlannerSpec.

(** ** The search aggregator *)

Module WebSearchSpec.
Import JsString Json WebSearch.

Section FirstOccurrence.
Context {A : Type}.
Variable same : A -> A -> bool.
Hypothesis same_refl : forall x, same x x = true.

Lemma findIndex_existsb (p : A -> bool) l :
  existsb p l = true <-> exists i, findIndex p l = Some i /\ (i < length l)%nat.
Proof.
  induction l as [|x l IH]; cbn.
  - split; [discriminate | intros (i & H & _); discriminate].
  - destruct (p x); cbn.
    + split; [intros _; exists 0%nat; split; [reflexivity | lia] | reflexivity].
    + rewrite IH. split.
      * intros (i & -> & Hi). exists (S i). split; [reflexivity | lia].
      * intros (i & Hf & Hi). destruct (findIndex p l) as [j|]; [|discriminate].
        exists j. injection Hf as <-. split; [reflexivity | lia].
Qed.

Lemma findIndex_app_miss (p : A -> bool) l1 l2 :
  existsb p l1 = false ->
  findIndex p (l1 ++ l2) = option_map (Nat.add (length l1)) (findIndex p l2).
Proof.
  induction l1 as [|x l1 IH]; cbn.
  - intros _. destruct (findIndex p l2); reflexivity.
  - destruct (p x); [discriminate|]. cbn. intros H. rewrite (IH H).
    destruct (findIndex p l2); reflexivity.
Qed.

Lemma findIndex_app_hit (p : A -> bool) l1 l2 :
  existsb p l1 = true ->
  exists i, findIndex p (l1 ++ l2) = Some i /\ (i < length l1)%nat.
Proof.
  induction l1 as [|x l1 IH]; cbn; [discriminate|].
  destruct (p x); cbn.
  - intros _. exists 0%nat. split; [reflexivity | lia].
  - intros H. destruct (IH H) as (i & -> & Hi).
    exists (S i). split; [reflexivity | lia].
Qed.

(** The index test of the two filters keeps exactly the first
    occurrences. *)
Lemma filter_first_occurrences l : forall seen,
  filter_indexed_go
    (fun x i => same_index (findIndex (same x) (seen ++ l)) i)
    (length seen) l
  = first_occurrences same seen l.
Proof.
  induction l as [|x l IH]; intros seen; [reflexivity|].
  cbn [filter_indexed_go first_occurrences].
  assert (filter_indexed_go
            (fun y i => same_index (findIndex (same y) (seen ++ x :: l)) i)
            (S (length seen)) l
          = first_occurrences same (seen ++ [x]) l) as Hrest.
  { rewrite <- IH, length_app, Nat.add_1_r.
    replace ((seen ++ [x]) ++ l)%list with (seen ++ x :: l)%list
      by (rewrite <- app_assoc; reflexivity).
    reflexivity. }
  rewrite Hrest.
  destruct (existsb (same x) seen) eqn:E.
  - destruct (findIndex_app_hit (same x) seen (x :: l) E) as (i & -> & Hi).
    cbn [same_index]. destruct (Nat.eqb_spec i (length seen)); [lia|].
    reflexivity.
  - rewrite (findIndex_app_miss _ _ _ E). cbn [findIndex].
    rewrite same_refl. cbn [option_map same_index].
    rewrite Nat.add_0_r, Nat.eqb_refl. reflexivity.
Qed.

Lemma first_occurrences_distinct l : forall seen,
  List.Forall (fun b => forall s, In s seen -> same b s = false)
              (first_occurrences same seen l)
  /\ pairwise_distinct same (first_occurrences same seen l).
Proof.
  induction l as [|x l IH]; intros seen; [split; constructor|].
  cbn [first_occurrences]. destruct (IH (seen ++ [x])%list) as [IH1 IH2].
  assert (List.Forall (fun b => forall s, In s seen -> same b s = false)
                      (first_occurrences same (seen ++ [x]) l)) as Hseen.
  { eapply List.Forall_impl; [|exact IH1]. cbn. intros b Hb s Hs.
    apply Hb, in_or_app. left. exact Hs. }
  destruct (existsb (same x) seen) eqn:E; [split; assumption|].
  split.
  - constructor; [|exact Hseen]. intros s Hs.
    destruct (same x s) eqn:Es; [|reflexivity].
    assert (existsb (same x) seen = true) as E'
      by (apply existsb_exists; exists s; split; assumption).
    congruence.
  - cbn [pairwise_distinct]. split; [|exact IH2].
    eapply List.Forall_impl; [|exact IH1]. cbn. intros b Hb.
    apply Hb, in_or_app. right. left. reflexivity.
Qed.

(** Distinct elements have distinct keys, for every key whose equality
    makes two elements the same. *)
Lemma pairwise_distinct_NoDup {K} (key : A -> K) l :
  (forall a b, key a = key b -> same b a = true) ->
  pairwise_distinct same l -> NoDup (map key l).
Proof.
  intros Hkey. induction l as [|a l IH]; intros Hd; [constructor|].
  destruct Hd as [Ha Hl]. cbn [map]. constructor; [|apply IH, Hl].
  intros Hin. apply list_elem_of_In, in_map_iff in Hin as (b & Hb & Hinb).
  rewrite List.Forall_forall in Ha. specialize (Ha b Hinb).
  rewrite (Hkey a b) in Ha; [discriminate | congruence].
Qed.

End FirstOccurrence.

Lemma filter_indexed_go_ext {A} (f g : A -> nat -> bool) l : forall i,
  (forall x j, f x j = g x j) ->
  filter_indexed_go f i l = filter_indexed_go g i l.
Proof.
  induction l as [|x l IH]; intros i H; [reflexivity|].
  cbn. rewrite H, (IH (S i) H). reflexivity.
Qed.

Section Aggregate.
Variable lower : string -> string.
Variable encodeURIComponent : string -> option string.

Lemma collides_refl x : collides lower x x = true.
Proof. unfold collides. rewrite String.eqb_refl. reflexivity. Qed.

Lemma uniqueResults_first l :
  uniqueResults lower l = first_occurrences (collides lower) [] l.
Proof.
  unfold uniqueResults, filter_indexed.
  rewrite <- (filter_first_occurrences (collides lower) collides_refl l []).
  apply filter_indexed_go_ext. intros x j. apply negb_involutive.
Qed.

Lemma uniqueCitations_first l :
  uniqueCitations l = first_occurrences same_url [] l.
Proof.
  unfold uniqueCitations, filter_indexed.
  rewrite <- (filter_first_occurrences same_url
                (fun c => String.eqb_refl (c_url c)) l []).
  reflexivity.
Qed.

Lemma insert_sorted_perm terms a : forall l l',
  insert_sorted lower terms a l = Some l' -> l' ≡ₚ a :: l.
Proof.
  induction l as [|b l IH]; intros l'; cbn.
  - intros H. injection H as <-. reflexivity.
  - destruct (relevance lower terms 0 a) as [ra|]; [|discriminate].
    destruct (relevance lower terms 0 b) as [rb|]; [|discriminate].
    destruct (0 <? rb - ra).
    + destruct (insert_sorted lower terms a l) as [l1|]; [|discriminate].
      cbn. intros H. injection H as <-. rewrite (IH l1 eq_refl).
      apply Permutation_swap.
    + intros H. injection H as <-. reflexivity.
Qed.

(** Sorting only reorders. *)
Lemma sort_by_relevance_perm terms : forall l l',
  sort_by_relevance lower terms l = Some l' -> l' ≡ₚ l.
Proof.
  induction l as [|a l IH]; intros l'; cbn.
  - intros H. injection H as <-. reflexivity.
  - destruct (sort_by_relevance lower terms l) as [l1|]; [|discriminate].
    intros H. rewrite (insert_sorted_perm _ _ _ _ H), (IH l1 eq_refl).
    reflexivity.
Qed.

Lemma formatSearchResults_id l : formatSearchResults l = l.
Proof.
  unfold formatSearchResults. induction l as [|[] l IH]; [reflexivity|].
  cbn. rewrite IH. reflexivity.
Qed.

(** C6.  Whenever [performWebSearch] returns, its citations have
    pairwise different urls, its results have pairwise different urls and
    pairwise different (lower-cased title, source) pairs, and the results
    kept are the first occurrences in collection order: a collected
    result is dropped exactly when a result collected before it has the
    same url or the same (lower-cased title, source); likewise for the
    citations, by url. *)
Theorem performWebSearch_unique
        (query : string) (aiResult : option Json.t)
        (engines : Json.t -> string -> EngineOutcome)
        (results : list SearchResult) (citations : list Citation) :
  performWebSearch lower encodeURIComponent query aiResult engines
  = Resolved (results, citations) ->
  NoDup (map c_url citations)
  /\ NoDup (map url results)
  /\ NoDup (map (fun r => (lower (title r), source r)) results)
  /\ ((results = [] /\ citations = [])
      \/ (let processedQuery := processSearchQuery query aiResult in
          results ≡ₚ first_occurrences (collides lower) []
                       (allResults encodeURIComponent processedQuery engines)
          /\ citations = first_occurrences same_url []
                           (allCitations processedQuery engines))).
Proof.
  unfold performWebSearch.
  destruct (negb (truthy query) || (str_length (trim query) =? 0)%nat).
  { intros H. injection H as <- <-.
    split; [constructor | split; [constructor | split; [constructor|]]].
    left. split; reflexivity. }
  set (pq := processSearchQuery query aiResult).
  destruct (sort_by_relevance lower (searchTerms pq)
              (uniqueResults lower (allResults encodeURIComponent pq engines)))
    as [sorted|] eqn:Hsort; [|discriminate].
  intros H. injection H as <- <-.
  apply sort_by_relevance_perm in Hsort.
  rewrite formatSearchResults_id, uniqueCitations_first.
  rewrite uniqueResults_first in Hsort.
  pose proof (first_occurrences_distinct (collides lower)
                (allResults encodeURIComponent pq engines) []) as [_ Hres].
  pose proof (first_occurrences_distinct same_url (allCitations pq engines) [])
    as [_ Hcit].
  split; [|split; [|split]].
  - apply (pairwise_distinct_NoDup same_url c_url); [|exact Hcit].
    intros a b Hab. unfold same_url. rewrite Hab. apply String.eqb_refl.
  - rewrite (Permutation_map url Hsort).
    apply (pairwise_distinct_NoDup (collides lower) url); [|exact Hres].
    intros a b Hab. unfold collides. rewrite Hab, String.eqb_refl. reflexivity.
  - rewrite (Permutation_map (fun r => (lower (title r), source r)) Hsort).
    apply (pairwise_distinct_NoDup (collides lower)
             (fun r => (lower (title r), source r))); [|exact Hres].
    intros a b Hab. injection Hab as Ht Hs. unfold collides.
    rewrite Ht, Hs, !String.eqb_refl. apply orb_true_r.
  - right. split; [exact Hsort | reflexivity].
Qed.

End Aggregate.

(** *** Two concrete runs *)

Lemma performWebSearch_unique_witness :
  NoDup (map c_url gold_citations)
  /\ NoDup (map url gold_results)
  /\ NoDup (map (fun r => (toLowerCase (title r), source r)) gold_results)
  /\ length gold_results = 3%nat /\ length gold_citations = 4%nat.
Proof.
  assert (gold_run = Resolved (gold_results, gold_citations)) as Hrun
    by (vm_compute; reflexivity).
  destruct (performWebSearch_unique toLowerCase encodeURIComponent "gold" None
              offline_engines gold_results gold_citations Hrun)
    as (H1 & H2 & H3 & _).
  repeat split; assumption.
Defined.

(** C2.  The guarantee that [performWebSearch] never throws does not hold
    of the code: on [forecast_query], when the model's reply parses to
    [forecast_aiResult], the term [2025] passes the validation of
    [processSearchQuery] (a non-empty array), the engines give at least
    two distinct results, and the comparator of the final sort calls
    [toLowerCase] on the number: the [TypeError] escapes, no
    [{results, citations}] value is returned. *)
Theorem performWebSearch_rejects_on_numeric_term :
  performWebSearch toLowerCase encodeURIComponent forecast_query forecast_aiResult
                   offline_engines
  = Rejected "TypeError: term.toLowerCase is not a function".
Proof. vm_compute. reflexivity. Qed.

(** What does hold: an engine that fails or times out contributes the
    empty list, and the aggregator returns a value whenever every search
    term is a string, which is the case for short queries and whenever
    the manual extraction of terms is used. *)
Lemma engine_failure_is_empty :
  engine_results Fails = [] /\ engine_results TimesOut = [].
Proof. split; reflexivity. Qed.

Lemma relevance_strings lower terms : forall score r,
  forallb is_string terms = true ->
  exists n, relevance lower terms score r = Some n.
Proof.
  induction terms as [|[] terms IH]; intros score r H; try discriminate.
  - exists score. reflexivity.
  - cbn. apply IH. exact H.
Qed.

Lemma sort_by_relevance_strings lower terms l :
  forallb is_string terms = true ->
  exists sorted, sort_by_relevance lower terms l = Some sorted.
Proof.
  intros H. induction l as [|a l [sorted IH]]; [exists []; reflexivity|].
  cbn. rewrite IH. clear IH. revert a.
  induction sorted as [|b sorted IHs]; intros a; [exists [a]; reflexivity|].
  cbn. destruct (relevance_strings lower terms 0 a H) as [ra ->].
  destruct (relevance_strings lower terms 0 b H) as [rb ->].
  destruct (0 <? rb - ra); [|eauto].
  destruct (IHs a) as [l' ->]. cbn. eauto.
Qed.

Lemma performWebSearch_resolves lower encodeURIComponent query aiResult engines :
  forallb is_string (searchTerms (processSearchQuery query aiResult)) = true ->
  exists value,
    performWebSearch lower encodeURIComponent query aiResult engines
    = Resolved value.
Proof.
  intros H. unfold performWebSearch.
  destruct (negb (truthy query) || (str_length (trim query) =? 0)%nat);
    [eauto|].
  destruct (sort_by_relevance_strings lower _
              (uniqueResults lower
                 (allResults encodeURIComponent
                    (processSearchQuery query aiResult) engines)) H)
    as [sorted ->].
  eauto.
Qed.

Lemma manual_terms_are_strings query :
  forallb is_string (searchTerms (processSearchQuery query None)) = true.
Proof.
  unfold processSearchQuery.
  destruct ((str_length (trim query) <=? 30)%nat
            && (length (split_spaces (trim query)) <=? 3)%nat); [reflexivity|].
  cbn [searchTerms]. induction (manual_terms (trim query)) as [|t ts IH];
    [reflexivity | exact IH].
Qed.

End WebSearchSpec.

(** ** More on the executors: budget, rotation and sleeps *)

Module ExecutorRuns.
Import JsString ApiKeyService ApiKeyServiceSpec Executor ExecutorSpec ExecutorSamples.

Lemma last_cons_Some {A} (x : A) l y : last l = Some y -> last (x :: l) = Some y.
Proof. intros H. rewrite last_cons, H. reflexivity. Qed.

Lemma last_skip_sleep (sleep : option Z) evs y :
  last evs = Some y ->
  last (match sleep with Some d => EvSleep d :: evs | None => evs end) = Some y.
Proof. destruct sleep; [apply last_cons_Some | trivial]. Qed.

Section Loop.
Variable json_error_message : string -> option string.
Variable body : Z -> string -> AttemptResult.

(** Everything a run of the loop does on a well-formed pool: it keeps
    the pool, makes at most [fuel] attempts, numbered from [attempt] on
    and served by the rotation; it returns after a pass that succeeded,
    with the rotation reset, or throws [AllKeysFailedError] after exactly
    [fuel] attempts, with the rotation [fuel] steps further, or lets the
    [TypeError] of the last pass escape. *)
Lemma retry_loop_run fuel : forall attempt svc lastError,
  pool_ok svc ->
  let '(evs, res, svc') :=
    retry_loop json_error_message body fuel attempt svc lastError in
  getApiKeys svc' = getApiKeys svc
  /\ (length (attempts evs) <= fuel)%nat
  /\ (forall i a key,
        attempts evs !! i = Some (a, key) ->
        a = attempt + Z.of_nat i /\
        getApiKeys svc !! ((nextPos svc + i) mod length (getApiKeys svc))%nat
        = Some key)
  /\ match res with
     | inl r =>
         currentKeyIndex svc' = -1 /\ last evs = Some EvReset /\
         exists a key, last (attempts evs) = Some (a, key) /\
                       body a key = Succeeded r
     | inr TypeError =>
         exists a key e, last (attempts evs) = Some (a, key) /\
                         body a key = Threw e
     | inr ex =>
         length (attempts evs) = fuel /\
         ex = AllKeysFailedError
                ("All API keys failed. Last error: "
                   ++ getCleanErrorMessage json_error_message
                        (last_or lastError (failures evs))) /\
         nextPos svc' = ((nextPos svc + fuel) mod length (getApiKeys svc))%nat
     end.
Proof.
  induction fuel as [|fuel IH]; intros attempt svc lastError Hok.
  - cbn. destruct Hok as (Hc & Hne & _).
    pose proof (nextPos_lt svc Hc Hne).
    split; [reflexivity|]. split; [lia|]. split; [intros i a key H0; discriminate|].
    split; [reflexivity|]. split; [reflexivity|].
    rewrite Nat.add_0_r, Nat.mod_small by assumption. reflexivity.
  - cbn [retry_loop].
    destruct Hok as (Hc & Hne & Hall).
    pose proof (nextPos_lt svc Hc Hne) as Hlt.
    pose proof (nextPos_after svc Hc Hne) as Hafter.
    destruct (getNextApiKey_ok svc (conj Hc (conj Hne Hall)))
      as (k & Hk & Hfst & Hok1 & Hkeys).
    rewrite getNextApiKey_step in * by assumption. cbn [fst snd] in *.
    set (s1 := {| userApiKeys := userApiKeys svc; hasEnvKey := hasEnvKey svc;
                  currentKeyIndex := Z.of_nat (nextPos svc);
                  apiBaseUrl := apiBaseUrl svc |}) in *.
    rewrite Hfst, Hk.
    assert (Hzero : forall i a key,
               [(attempt, k)] !! i = Some (a, key) ->
               a = attempt + Z.of_nat i /\
               getApiKeys svc !! ((nextPos svc + i) mod length (getApiKeys svc))%nat
               = Some key).
    { intros [|i] a key H; [|destruct i; discriminate].
      injection H as <- <-. rewrite Nat.add_0_r, Nat.mod_small by assumption.
      split; [lia | exact Hfst]. }
    destruct (body attempt k) as [r|e sleep|e] eqn:Hbody.
    + cbn. split; [reflexivity|]. split; [lia|]. split; [exact Hzero|].
      split; [reflexivity|]. split; [reflexivity|].
      exists attempt, k. split; [reflexivity | exact Hbody].
    + specialize (IH (attempt + 1) s1 (Some e) Hok1).
      destruct (retry_loop json_error_message body fuel (attempt + 1) s1 (Some e))
        as [[evs res] svc2].
      destruct IH as (IHk & IHl & IHa & IHr).
      rewrite attempts_step, failures_step.
      split; [rewrite IHk; reflexivity|].
      split; [cbn [length]; lia|]. split.
      * intros [|i] a key H; [apply (Hzero 0%nat a key H)|].
        cbn in H. destruct (IHa i a key H) as [Ha Hkey].
        split; [lia|]. rewrite Hkeys, Hafter in Hkey.
        rewrite Nat.Div0.add_mod_idemp_l in Hkey.
        rewrite <- Hkey. do 2 f_equal. lia.
      * destruct res as [r|ex].
        -- destruct IHr as (Hr1 & Hr2 & a & key & Hr3 & Hr4).
           split; [exact Hr1|]. split.
           ++ do 2 apply last_cons_Some. apply last_skip_sleep. exact Hr2.
           ++ exists a, key. split; [apply last_cons_Some; exact Hr3 | exact Hr4].
        -- assert (length (attempts evs) = fuel /\
                   ex = AllKeysFailedError
                          ("All API keys failed. Last error: "
                             ++ getCleanErrorMessage json_error_message
                                  (last_or (Some e) (failures evs))) /\
                   nextPos svc2
                   = ((nextPos s1 + fuel) mod length (getApiKeys s1))%nat ->
                   length ((attempt, k) :: attempts evs) = S fuel /\
                   ex = AllKeysFailedError
                          ("All API keys failed. Last error: "
                             ++ getCleanErrorMessage json_error_message
                                  (last_or lastError (e :: failures evs))) /\
                   nextPos svc2
                   = ((nextPos svc + S fuel) mod length (getApiKeys svc))%nat)
             as Hstep.
           { intros (Hr1 & Hr2 & Hr3).
             split; [cbn [length]; lia|]. split.
             - rewrite last_or_cons. exact Hr2.
             - rewrite Hr3, Hkeys, Hafter, Nat.Div0.add_mod_idemp_l.
               f_equal. lia. }
           destruct ex; try (apply Hstep, IHr).
           destruct IHr as (a & key & e' & Hl & Hb).
           exists a, key, e'. split; [apply last_cons_Some, Hl | exact Hb].
    + cbn. split; [reflexivity|]. split; [lia|]. split; [exact Hzero|].
      exists attempt, k, e. split; [reflexivity | exact Hbody].
Qed.

End Loop.

Lemma reachable_pool_ok svc :
  reachable svc -> getApiKeys svc <> [] -> pool_ok svc.
Proof.
  intros Hr Hne. repeat split;
    [apply reachable_cursor | | apply reachable_truthy]; assumption.
Qed.

Lemma nonempty_length {A} (l : list A) :
  (length l =? 0)%nat = false -> l <> [] /\ (0 < length l)%nat.
Proof.
  intros H%Nat.eqb_neq. destruct l; [contradiction|].
  split; [discriminate | simpl; lia].
Qed.

(** The key the next call of [getNextApiKey] returns. *)
Lemma next_key_at svc :
  pool_ok svc -> fst (getNextApiKey svc) = getApiKeys svc !! nextPos svc.
Proof.
  intros (Hc & Hne & _). rewrite getNextApiKey_step by assumption. reflexivity.
Qed.

(** Every call makes at most [keyCount * 3] attempts, whatever the
    replies are, and never changes the pool. *)
Theorem attempt_budget
        (json_error_message : string -> option string)
        (svc : ApiKeyService.t) (operationName modelName : string)
        (gemini : Z -> string -> GeminiReply)
        (openrouter : Z -> string -> OpenRouterReply) :
  reachable svc ->
  let g := executeWithRetry json_error_message operationName modelName
             gemini svc in
  let o := executeOpenRouterWithRetry json_error_message openrouter svc in
  (length (attempts (events g)) <= length (getApiKeys svc) * 3)%nat
  /\ getApiKeys (snd g) = getApiKeys svc
  /\ (length (attempts (events o)) <= length (getApiKeys svc) * 3)%nat
  /\ getApiKeys (snd o) = getApiKeys svc.
Proof.
  intros Hr g o. subst g o.
  unfold executeWithRetry, executeOpenRouterWithRetry, events.
  destruct (length (getApiKeys svc) =? 0)%nat eqn:E;
    [cbn; repeat split; lia|].
  destruct (nonempty_length _ E) as [Hne _].
  pose proof (reachable_pool_ok svc Hr Hne) as Hok.
  assert (forall body,
    let out := retry_loop json_error_message body
                 (length (getApiKeys svc) * maxRetriesPerKeyCycle) 1 svc None in
    (length (attempts (fst (fst out))) <= length (getApiKeys svc) * 3)%nat
    /\ getApiKeys (snd out) = getApiKeys svc) as Hloop.
  { intros body out. subst out.
    pose proof (retry_loop_run json_error_message body
                  (length (getApiKeys svc) * maxRetriesPerKeyCycle) 1 svc None Hok)
      as H.
    destruct (retry_loop _ _ _ _ _ _) as [[evs res] svc'].
    destruct H as (H1 & H2 & _). split; assumption. }
  split; [|split]; [| |split; apply Hloop];
    (destruct (negb (truthy modelName)
               || negb (has_rest_method operationName));
     [cbn; try reflexivity; lia | apply Hloop]).
Qed.

Lemma attempt_budget_witness :
  (length (attempts (events
     (executeWithRetry (fun _ => None) "generateContent" "gemini-2.5-pro"
        always_429 three_keys))) <= 9)%nat
  /\ (length (attempts (events
     (executeOpenRouterWithRetry (fun _ => None) chat_second_try_works
        three_keys))) <= 9)%nat.
Proof.
  destruct (attempt_budget (fun _ => None) three_keys "generateContent"
              "gemini-2.5-pro" always_429 chat_second_try_works
              (reach_new None (Some "k1,k2
 k3") None))
    as (H1 & _ & H2 & _).
  split; assumption.
Defined.

(** The loop leaves a well-formed pool well-formed. *)
Lemma retry_loop_all_keys_ok jem body fuel : forall attempt svc lastError,
  pool_ok svc -> pool_ok (snd (retry_loop jem body fuel attempt svc lastError)).
Proof.
  induction fuel as [|fuel IH]; intros attempt svc lastError Hok; [exact Hok|].
  cbn [retry_loop].
  destruct (getNextApiKey_ok svc Hok) as (k & Hk & Hfst & Hok1 & _).
  destruct (getNextApiKey svc) as [key svc1]. cbn [fst snd] in *.
  subst key. rewrite Hk.
  destruct (body attempt k) as [r|e sleep|e].
  - cbn. destruct Hok1 as (Hc & Hne & Hall). repeat split; assumption || (cbn; lia).
  - specialize (IH (attempt + 1) svc1 (Some e) Hok1).
    destruct (retry_loop jem body fuel (attempt + 1) svc1 (Some e))
      as [[evs res] svc2].
    exact IH.
  - exact Hok1.
Qed.

(** A property of both executors follows from the same property of the
    two early exits and of the loop run with either body. *)
Lemma both_executors jem svc operationName modelName gemini openrouter
      (P : list Event * (Response + Exception) * ApiKeyService.t -> Prop) :
  (getApiKeys svc = [] -> P ([], inr NoApiKeysError, svc)) ->
  (getApiKeys svc <> [] -> P ([], inr InvalidRequestError, svc)) ->
  (getApiKeys svc <> [] ->
   forall body,
     body = gemini_attempt gemini (Z.of_nat (length (getApiKeys svc)))
     \/ body = openrouter_attempt openrouter (Z.of_nat (length (getApiKeys svc))) ->
     P (retry_loop jem body (length (getApiKeys svc) * maxRetriesPerKeyCycle)
                   1 svc None)) ->
  P (executeWithRetry jem operationName modelName gemini svc)
  /\ P (executeOpenRouterWithRetry jem openrouter svc).
Proof.
  intros Hnone Hinv Hloop.
  unfold executeWithRetry, executeOpenRouterWithRetry.
  destruct (length (getApiKeys svc) =? 0)%nat eqn:E.
  - apply Nat.eqb_eq, length_zero_iff_nil in E. split; apply Hnone, E.
  - destruct (nonempty_length _ E) as [Hne _]. split.
    + destruct (negb (truthy modelName)
                || negb (has_rest_method operationName));
        [apply Hinv, Hne | apply (Hloop Hne); left; reflexivity].
    + apply (Hloop Hne). right. reflexivity.
Qed.

(** When a call returns a response, the last thing it did was to reset
    the rotation: the next call of [getNextApiKey], by whatever operation
    comes next, returns the first key of the pool. *)
Theorem success_resets_rotation
        (json_error_message : string -> option string)
        (svc : ApiKeyService.t) (operationName modelName : string)
        (gemini : Z -> string -> GeminiReply)
        (openrouter : Z -> string -> OpenRouterReply) :
  reachable svc ->
  reset_after_success svc
    (executeWithRetry json_error_message operationName modelName gemini svc)
  /\ reset_after_success svc
    (executeOpenRouterWithRetry json_error_message openrouter svc).
Proof.
  intros Hr. apply both_executors; try (intros _ r H; discriminate H).
  intros Hne body _ r Hres.
  pose proof (retry_loop_run json_error_message body
                (length (getApiKeys svc) * maxRetriesPerKeyCycle) 1 svc None
                (reachable_pool_ok svc Hr Hne)) as H.
  unfold events.
  destruct (retry_loop _ _ _ _ _ _) as [[evs res] svc'].
  cbn [fst snd] in *. subst res.
  destruct H as (Hk & _ & _ & Hc & Hlast & _).
  split; [exact Hlast|]. split; [exact Hc|].
  rewrite <- Hk in Hne |- *.
  rewrite getNextApiKey_step; [| rewrite Hc; lia | exact Hne].
  cbn [fst]. unfold nextPos. rewrite Hc. cbn.
  rewrite Z.rem_0_l.
  - destruct (getApiKeys svc'); reflexivity.
  - destruct (getApiKeys svc'); [contradiction | cbn; lia].
Qed.

Lemma success_resets_rotation_witness :
  reset_after_success three_keys
    (executeWithRetry (fun _ => None) "generateContent" "gemini-2.5-pro"
                      second_try_works three_keys)
  /\ snd (fst (executeWithRetry (fun _ => None) "generateContent"
                 "gemini-2.5-pro" second_try_works three_keys))
     = inl {| text := "hello" |}.
Proof.
  split; [|reflexivity].
  apply (success_resets_rotation (fun _ => None) three_keys "generateContent"
           "gemini-2.5-pro" second_try_works chat_second_try_works).
  apply reach_new.
Defined.

(** [AllKeysFailedError] is only thrown after exactly [keyCount * 3]
    attempts; as that is a whole number of rounds, the call leaves the
    rotation where it found it: the key served next is the one this call
    tried first. *)
Theorem all_keys_failed_only_after_budget
        (json_error_message : string -> option string)
        (svc : ApiKeyService.t) (operationName modelName : string)
        (gemini : Z -> string -> GeminiReply)
        (openrouter : Z -> string -> OpenRouterReply) :
  reachable svc ->
  thrown_after_budget svc
    (executeWithRetry json_error_message operationName modelName gemini svc)
  /\ thrown_after_budget svc
    (executeOpenRouterWithRetry json_error_message openrouter svc).
Proof.
  intros Hr. apply both_executors; try (intros _ msg H; discriminate H).
  intros Hne body _ msg Hres.
  pose proof (reachable_pool_ok svc Hr Hne) as Hok.
  pose proof (retry_loop_run json_error_message body
                (length (getApiKeys svc) * maxRetriesPerKeyCycle) 1 svc None Hok)
    as H.
  pose proof (retry_loop_all_keys_ok json_error_message body
                (length (getApiKeys svc) * maxRetriesPerKeyCycle) 1 svc None Hok)
    as Hok'.
  unfold events.
  destruct (retry_loop _ _ _ _ _ _) as [[evs res] svc'].
  cbn [fst snd] in *. subst res. cbv iota in H.
  destruct H as (Hk & _ & _ & Hlen & _ & Hpos).
  split; [exact Hlen|].
  rewrite !next_key_at by assumption. rewrite Hk, Hpos. f_equal.
  unfold maxRetriesPerKeyCycle.
  rewrite (Nat.mul_comm (length (getApiKeys svc)) 3), Nat.Div0.mod_add.
  apply Nat.mod_small.
  destruct Hok as (Hc & _). apply nextPos_lt; assumption.
Qed.

Lemma all_keys_failed_only_after_budget_witness :
  thrown_after_budget three_keys
    (executeOpenRouterWithRetry (fun _ => None) chat_always_429 three_keys)
  /\ exists msg,
      snd (fst (executeOpenRouterWithRetry (fun _ => None) chat_always_429
                  three_keys)) = inr (AllKeysFailedError msg).
Proof.
  split; [|eexists; reflexivity].
  apply (all_keys_failed_only_after_budget (fun _ => None) three_keys
           "generateContent" "gemini-2.5-pro" always_429 chat_always_429).
  apply reach_new.
Defined.

(** Attempt number [n] is made with the [n]-th key of the rotation: the
    executors draw one key per attempt and wrap around the pool. *)
Theorem attempts_take_keys_in_rotation
        (json_error_message : string -> option string)
        (svc : ApiKeyService.t) (operationName modelName : string)
        (gemini : Z -> string -> GeminiReply)
        (openrouter : Z -> string -> OpenRouterReply) :
  reachable svc ->
  round_robin_attempts svc
    (executeWithRetry json_error_message operationName modelName gemini svc)
  /\ round_robin_attempts svc
    (executeOpenRouterWithRetry json_error_message openrouter svc).
Proof.
  intros Hr. apply both_executors; try (intros _ i a key H; discriminate H).
  intros Hne body _ i a key Hat.
  pose proof (retry_loop_run json_error_message body
                (length (getApiKeys svc) * maxRetriesPerKeyCycle) 1 svc None
                (reachable_pool_ok svc Hr Hne)) as H.
  unfold events in Hat.
  destruct (retry_loop _ _ _ _ _ _) as [[evs res] svc'].
  destruct H as (_ & _ & Ha & _). exact (Ha i a key Hat).
Qed.

Lemma attempts_take_keys_in_rotation_witness :
  round_robin_attempts three_keys
    (executeWithRetry (fun _ => None) "generateContent" "gemini-2.5-pro"
                      always_429 three_keys)
  /\ map snd (attempts (events
        (executeWithRetry (fun _ => None) "generateContent" "gemini-2.5-pro"
                          always_429 three_keys)))
     = ["k1"; "k2"; "k3"; "k1"; "k2"; "k3"; "k1"; "k2"; "k3"].
Proof.
  split; [|reflexivity].
  apply (attempts_take_keys_in_rotation (fun _ => None) three_keys
           "generateContent" "gemini-2.5-pro" always_429 chat_always_429).
  apply reach_new.
Defined.

(** Only a failure with status 429 makes an executor sleep: after any
    other failure the next attempt follows at once. *)
Theorem only_429_sleeps
        (json_error_message : string -> option string)
        (svc : ApiKeyService.t) (operationName modelName : string)
        (gemini : Z -> string -> GeminiReply)
        (openrouter : Z -> string -> OpenRouterReply) :
  sleeps_only_after_429
    (executeWithRetry json_error_message operationName modelName gemini svc)
  /\ sleeps_only_after_429
    (executeOpenRouterWithRetry json_error_message openrouter svc).
Proof.
  apply both_executors; [intros _ a e [] | intros _ a e [] |].
  intros Hne body Hbody a e Hin Hstatus.
  destruct (retry_loop_sleeps json_error_message body _ 1 svc None a e Hin)
    as (_ & key & [Hkey | [_ Hnone]]); [|exact Hnone].
  destruct Hbody as [-> | ->].
  - unfold gemini_attempt in Hkey.
    destruct (gemini_try (gemini a key)) as [r|e']; [discriminate|].
    destruct (decide (status e' = Some 429)) as [H429|_].
    + destruct (gemini_delayMs a _ e'); [|discriminate].
      injection Hkey as -> _. contradiction.
    + injection Hkey as -> Hs. symmetry. exact Hs.
  - unfold openrouter_attempt in Hkey.
    destruct (openrouter a key) as [c|e' [t|]]; try discriminate.
    injection Hkey as -> Hs. rewrite decide_False in Hs by exact Hstatus.
    symmetry. exact Hs.
Qed.

Lemma only_429_sleeps_witness :
  sleep_after 1
    (events (executeWithRetry (fun _ => None) "generateContent"
               "gemini-2.5-pro" second_try_works three_keys)) = None.
Proof.
  destruct (only_429_sleeps (fun _ => None) three_keys "generateContent"
              "gemini-2.5-pro" second_try_works chat_second_try_works)
    as [Hg _].
  apply (Hg 1 {| message := "API Error: 500 - Internal error";
                 status := Some 500; data := None |}).
  - vm_compute. right. left. reflexivity.
  - discriminate.
Defined.

(** Every sleep of the loop was asked for by the recorded failure of an
    attempt within the budget. *)
Lemma retry_loop_sleep_events jem body fuel : forall attempt svc lastError d,
  In (EvSleep d) (events (retry_loop jem body fuel attempt svc lastError)) ->
  exists a key e,
    attempt <= a < attempt + Z.of_nat fuel
    /\ body a key = Failed e (Some d)
    /\ In (EvFailed a e)
          (events (retry_loop jem body fuel attempt svc lastError)).
Proof.
  induction fuel as [|fuel IH]; intros attempt svc lastError d Hin;
    [destruct Hin|].
  cbn [retry_loop] in *.
  assert (forall svc1 lastError1,
    In (EvSleep d)
       (events (retry_loop jem body fuel (attempt + 1) svc1 lastError1)) ->
    exists a key e,
      attempt <= a < attempt + Z.of_nat (S fuel)
      /\ body a key = Failed e (Some d)
      /\ In (EvFailed a e)
            (events (retry_loop jem body fuel (attempt + 1) svc1 lastError1)))
    as Hrec.
  { intros svc1 lastError1 H.
    destruct (IH _ _ _ _ H) as (a & key & e & Ha & Hb & Hc).
    exists a, key, e. split; [lia | split; assumption]. }
  destruct (getNextApiKey svc) as [[k|] svc1]; [|apply (Hrec _ _ Hin)].
  destruct (truthy k); [|apply (Hrec _ _ Hin)].
  destruct (body attempt k) as [r|e sleep|e] eqn:Hbody.
  { cbn in Hin. destruct Hin as [Hin|[Hin|[]]]; discriminate. }
  2:{ cbn in Hin. destruct Hin as [Hin|[Hin|[]]]; discriminate. }
  specialize (Hrec svc1 (Some e)).
  destruct (retry_loop jem body fuel (attempt + 1) svc1 (Some e))
    as [[evs res] svc2].
  unfold events in *. cbn [fst] in *.
  assert (forall a0 e0,
    In (EvFailed a0 e0) evs ->
    In (EvFailed a0 e0)
       (EvAttempt attempt k :: EvFailed attempt e
          :: match sleep with Some d0 => EvSleep d0 :: evs | None => evs end))
    as Hlift.
  { intros a0 e0 H. right. right. destruct sleep; [right|]; exact H. }
  assert (In (EvSleep d) evs ->
          exists a key e0,
            attempt <= a < attempt + Z.of_nat (S fuel)
            /\ body a key = Failed e0 (Some d)
            /\ In (EvFailed a e0)
                  (EvAttempt attempt k :: EvFailed attempt e
                     :: match sleep with
                        | Some d0 => EvSleep d0 :: evs | None => evs end))
    as Hrec'.
  { intros H. destruct (Hrec H) as (a & key & e0 & Ha & Hb & Hc).
    exists a, key, e0. split; [exact Ha|]. split; [exact Hb|].
    apply (Hlift a e0 Hc). }
  destruct Hin as [Hin|[Hin|Hin]]; try discriminate.
  destruct sleep as [d'|]; [|apply Hrec', Hin].
  destruct Hin as [Hin|Hin]; [|apply Hrec', Hin].
  injection Hin as ->. exists attempt, k, e.
  split; [lia|]. split; [exact Hbody|]. right. left. reflexivity.
Qed.

Lemma currentCycle_range attempt keyCount :
  0 < keyCount -> 1 <= attempt < 1 + keyCount * 3 ->
  default_backoff (2000 * currentCycle attempt keyCount).
Proof.
  intros Hk Ha. unfold currentCycle, default_backoff.
  assert (0 <= (attempt - 1) / keyCount) by (apply Z.div_pos; lia).
  assert ((attempt - 1) / keyCount < 3)
    by (apply Z.div_lt_upper_bound; lia).
  lia.
Qed.

(** The sleeps of a call are bounded: the OpenRouter executor only ever
    sleeps 2000, 4000 or 6000 ms; the Gemini executor sleeps one of these
    or, when the payload of a 429 announces a number of seconds, that
    number of seconds plus 500 ms. *)
Theorem sleep_durations
        (json_error_message : string -> option string)
        (svc : ApiKeyService.t) (operationName modelName : string)
        (gemini : Z -> string -> GeminiReply)
        (openrouter : Z -> string -> OpenRouterReply) (delayMs : Z) :
  (In (EvSleep delayMs)
      (events (executeWithRetry json_error_message operationName modelName
                                gemini svc)) ->
   default_backoff delayMs
   \/ exists attempt e seconds,
        In (EvFailed attempt e)
           (events (executeWithRetry json_error_message operationName
                                     modelName gemini svc))
        /\ retry_after_seconds e = Some seconds
        /\ delayMs = seconds * 1000 + 500)
  /\ (In (EvSleep delayMs)
         (events (executeOpenRouterWithRetry json_error_message openrouter svc)) ->
      default_backoff delayMs).
Proof.
  unfold executeWithRetry, executeOpenRouterWithRetry.
  destruct (length (getApiKeys svc) =? 0)%nat eqn:E;
    [split; intros []|].
  destruct (nonempty_length _ E) as [Hne Hlen].
  unfold maxRetriesPerKeyCycle. split.
  - destruct (negb (truthy modelName)
              || negb (has_rest_method operationName));
      [intros []|].
    intros Hin.
    destruct (retry_loop_sleep_events _ _ _ _ _ _ _ Hin)
      as (a & key & e & Ha & Hbody & Hrec).
    unfold gemini_attempt in Hbody.
    destruct (gemini_try (gemini a key)) as [r|e'] eqn:Htry; [discriminate|].
    destruct (decide (status e' = Some 429)); [|discriminate].
    destruct (gemini_delayMs a _ e') as [d|] eqn:Hd; [|discriminate].
    injection Hbody as -> <-.
    destruct (gemini_delayMs_cases _ _ _ _ Hd) as [-> | (seconds & Hsec & ->)].
    + left. apply currentCycle_range; lia.
    + right. exists a, e, seconds.
      split; [exact Hrec|]. split; [exact Hsec | reflexivity].
  - intros Hin.
    destruct (retry_loop_sleep_events _ _ _ _ _ _ _ Hin)
      as (a & key & e & Ha & Hbody & _).
    unfold openrouter_attempt in Hbody.
    destruct (openrouter a key) as [c|e' [t|]]; try discriminate.
    injection Hbody as -> Hs.
    destruct (decide (status e = Some 429)); [|discriminate].
    injection Hs as <-. apply currentCycle_range; lia.
Qed.

Lemma sleep_durations_witness :
  In (EvSleep 4000)
     (events (executeOpenRouterWithRetry (fun _ => None) chat_always_429
                three_keys))
  /\ default_backoff 4000.
Proof.
  assert (In (EvSleep 4000)
             (events (executeOpenRouterWithRetry (fun _ => None)
                        chat_always_429 three_keys))) as Hin
    by (vm_compute; do 11 right; left; reflexivity).
  split; [exact Hin|].
  exact (proj2 (sleep_durations (fun _ => None) three_keys "generateContent"
                  "gemini-2.5-pro" always_429 chat_always_429 4000) Hin).
Defined.

(** The loop itself throws [AllKeysFailedError] or lets a [TypeError]
    escape, nothing else. *)
Lemma retry_loop_throws jem body fuel : forall attempt svc lastError ex,
  snd (fst (retry_loop jem body fuel attempt svc lastError)) = inr ex ->
  ex = TypeError \/ exists msg, ex = AllKeysFailedError msg.
Proof.
  induction fuel as [|fuel IH]; intros attempt svc lastError ex.
  - cbn. intros H. injection H as <-. eauto.
  - cbn [retry_loop].
    destruct (getNextApiKey svc) as [[k|] svc1]; [|apply IH].
    destruct (truthy k); [|apply IH].
    destruct (body attempt k) as [r|e sleep|e]; [discriminate| |].
    + specialize (IH (attempt + 1) svc1 (Some e) ex).
      destruct (retry_loop jem body fuel (attempt + 1) svc1 (Some e))
        as [[evs res] svc2].
      exact IH.
    + cbn. intros H. injection H as <-. left. reflexivity.
Qed.

Lemma has_rest_method_false operationName :
  has_rest_method operationName = false
  <-> operationName <> "generateContent"
      /\ ~ In operationName OBJECT_PROTOTYPE.
Proof.
  unfold has_rest_method. rewrite orb_false_iff. split.
  - intros [Ho Hp]. split.
    + apply String.eqb_neq, Ho.
    + intros Hin.
      assert (existsb (String.eqb operationName) OBJECT_PROTOTYPE = true) as Hex
        by (apply existsb_exists; exists operationName;
            split; [exact Hin | apply String.eqb_refl]).
      congruence.
  - intros [Ho Hp]. split; [apply String.eqb_neq, Ho|].
    destruct (existsb (String.eqb operationName) OBJECT_PROTOTYPE) eqn:Hex;
      [|reflexivity].
    apply existsb_exists in Hex as (name & Hin & Heq).
    apply String.eqb_eq in Heq. subst name. contradiction.
Qed.

(** The errors thrown before any request is made.  A call on an empty
    pool throws the "No API keys" error, and that error means the pool is
    empty; [executeWithRetry] throws the "Invalid model or operation"
    error exactly when the pool is not empty and the model name is empty
    or the operation name is no property of the operation table: neither
    [generateContent] nor a name the table inherits from
    [Object.prototype]; [executeOpenRouterWithRetry] never throws it.
    In both cases no attempt is made and no key is drawn from the
    rotation. *)
Theorem errors_before_any_attempt
        (json_error_message : string -> option string)
        (svc : ApiKeyService.t) (operationName modelName : string)
        (gemini : Z -> string -> GeminiReply)
        (openrouter : Z -> string -> OpenRouterReply) :
  let g := executeWithRetry json_error_message operationName modelName
             gemini svc in
  let o := executeOpenRouterWithRetry json_error_message openrouter svc in
  (snd (fst g) = inr NoApiKeysError <-> getApiKeys svc = [])
  /\ (snd (fst o) = inr NoApiKeysError <-> getApiKeys svc = [])
  /\ (snd (fst g) = inr InvalidRequestError <->
      getApiKeys svc <> [] /\
      (modelName = "" \/
       (operationName <> "generateContent"
        /\ ~ In operationName OBJECT_PROTOTYPE)))
  /\ snd (fst o) <> inr InvalidRequestError
  /\ (forall ex, (ex = NoApiKeysError \/ ex = InvalidRequestError) ->
        (snd (fst g) = inr ex -> g = ([], inr ex, svc))
        /\ (snd (fst o) = inr ex -> o = ([], inr ex, svc))).
Proof.
  intros g o. subst g o. unfold executeWithRetry, executeOpenRouterWithRetry.
  assert (forall body ex,
    ex = NoApiKeysError \/ ex = InvalidRequestError ->
    snd (fst (retry_loop json_error_message body
                (length (getApiKeys svc) * maxRetriesPerKeyCycle) 1 svc None))
    <> inr ex) as Hloop.
  { intros body ex Hex H. apply retry_loop_throws in H as [-> | [msg ->]];
      destruct Hex; discriminate. }
  assert (truthy modelName = false <-> modelName = "") as Hmodel
    by (destruct modelName; split; intros H; reflexivity || discriminate).
  rewrite <- has_rest_method_false.
  destruct (length (getApiKeys svc) =? 0)%nat eqn:E.
  - apply Nat.eqb_eq, length_zero_iff_nil in E. cbn [fst snd].
    split; [split; auto|]. split; [split; auto|].
    split; [split; [discriminate | intros [H _]; contradiction]|].
    split; [discriminate|].
    intros ex _. split; intros H; injection H as <-; reflexivity.
  - destruct (nonempty_length _ E) as [Hne _].
    split; [|split; [|split; [|split]]].
    + split; [|contradiction].
      destruct (negb (truthy modelName)
                || negb (has_rest_method operationName));
        [discriminate|]. intros H. exfalso. apply (Hloop _ _ (or_introl eq_refl) H).
    + split; [|contradiction].
      intros H. exfalso. apply (Hloop _ _ (or_introl eq_refl) H).
    + destruct (truthy modelName) eqn:Et;
        destruct (has_rest_method operationName) eqn:Eo;
        cbn [negb orb fst snd].
      * split; [intros H; exfalso; apply (Hloop _ _ (or_intror eq_refl) H)|].
        intros [_ [Hm|Ho]]; [|discriminate].
        apply Hmodel in Hm. discriminate.
      * split; [intros _; split; [exact Hne | right; reflexivity] | reflexivity].
      * split; [intros _; split; [exact Hne | left; apply Hmodel; reflexivity]
               | reflexivity].
      * split; [intros _; split; [exact Hne | right; reflexivity] | reflexivity].
    + apply Hloop. right. reflexivity.
    + intros ex Hex. split.
      * destruct (negb (truthy modelName)
                  || negb (has_rest_method operationName));
          [cbn; intros H; injection H as <-; reflexivity|].
        intros H. exfalso. apply (Hloop _ _ Hex H).
      * intros H. exfalso. apply (Hloop _ _ Hex H).
Qed.

Lemma errors_before_any_attempt_witness :
  executeWithRetry (fun _ => None) "generateContent" "gemini-2.5-pro"
                   always_429 no_keys
  = ([], inr NoApiKeysError, no_keys).
Proof.
  destruct (errors_before_any_attempt (fun _ => None) no_keys
              "generateContent" "gemini-2.5-pro" always_429 chat_always_429)
    as (H1 & _ & _ & _ & H5).
  apply (H5 NoApiKeysError); [left; reflexivity|].
  apply H1. reflexivity.
Defined.

(** An operation named like an inherited property passes the test: the
    call makes its nine attempts; an unknown name does not. *)
Example inherited_operation_name :
  length (attempts (events
    (executeWithRetry (fun _ => None) "toString" "gemini-2.5-pro"
                      always_429 three_keys))) = 9%nat
  /\ snd (fst (executeWithRetry (fun _ => None) "streamGenerateContent"
                 "gemini-2.5-pro" always_429 three_keys))
     = inr InvalidRequestError.
Proof. split; reflexivity. Qed.

(** *** Calls in which every attempt fails *)

Lemma last_map {A B} (f : A -> B) (l : list A) :
  last (map f l) = option_map f (last l).
Proof.
  induction l as [|x l IH]; [reflexivity|].
  cbn [map]. rewrite !last_cons, IH.
  destruct (last l); reflexivity.
Qed.

Lemma getCleanErrorMessage_reports jem e :
  reports jem e
    ("All API keys failed. Last error: " ++ getCleanErrorMessage jem (Some e)).
Proof.
  exists (getCleanErrorMessage jem (Some e)). split; [reflexivity|].
  unfold getCleanErrorMessage. split.
  - intros ->. reflexivity.
  - intros Hne. destruct (message e); [contradiction|]. cbn [truthy].
    destruct (jem _); reflexivity.
Qed.

Section Failing.
Variable json_error_message : string -> option string.
Variable body : Z -> string -> AttemptResult.
Variable error_at : Z -> string -> ApiError.
Hypothesis Hfail :
  forall attempt key, exists sleep,
    body attempt key = Failed (error_at attempt key) sleep.

(** When every pass fails, the loop uses its whole budget, records the
    error of every attempt and ends with [AllKeysFailedError] built from
    the one recorded last. *)
Lemma retry_loop_failures fuel : forall attempt svc lastError,
  pool_ok svc ->
  let '(evs, res, _) :=
    retry_loop json_error_message body fuel attempt svc lastError in
  length (attempts evs) = fuel
  /\ failures evs = map (fun ak => error_at (fst ak) (snd ak)) (attempts evs)
  /\ res = inr (AllKeysFailedError
                  ("All API keys failed. Last error: "
                     ++ getCleanErrorMessage json_error_message
                          (last_or lastError (failures evs)))).
Proof.
  induction fuel as [|fuel IH]; intros attempt svc lastError Hok.
  - cbn. repeat split.
  - cbn [retry_loop].
    destruct (getNextApiKey_ok svc Hok) as (k & Hk & Hfst & Hok1 & _).
    destruct (getNextApiKey svc) as [key svc1]. cbn [fst snd] in *.
    subst key. rewrite Hk.
    destruct (Hfail attempt k) as (sleep & ->).
    specialize (IH (attempt + 1) svc1 (Some (error_at attempt k)) Hok1).
    destruct (retry_loop json_error_message body fuel (attempt + 1) svc1
                (Some (error_at attempt k)))
      as [[evs res] svc2].
    destruct IH as (Hlen & Hf & Hres).
    rewrite attempts_step, failures_step. split; [|split].
    + cbn [length]. rewrite Hlen. reflexivity.
    + cbn [map fst snd]. rewrite Hf. reflexivity.
    + rewrite last_or_cons. exact Hres.
Qed.

Lemma retry_loop_exhausted svc :
  pool_ok svc ->
  exhausted json_error_message svc error_at
    (retry_loop json_error_message body
       (length (getApiKeys svc) * maxRetriesPerKeyCycle) 1 svc None).
Proof.
  intros Hok.
  pose proof (retry_loop_failures
                (length (getApiKeys svc) * maxRetriesPerKeyCycle) 1 svc None Hok)
    as H.
  pose proof (retry_loop_run json_error_message body
                (length (getApiKeys svc) * maxRetriesPerKeyCycle) 1 svc None Hok)
    as Hrun.
  unfold exhausted, round_robin_attempts, events.
  destruct (retry_loop json_error_message body _ 1 svc None)
    as [[evs res] svc2].
  cbn [fst snd]. destruct H as (Hlen & Hf & Hres).
  destruct Hrun as (_ & _ & Hrot & _).
  split; [exact Hlen|]. split; [exact Hrot|]. split; [exact Hf|].
  destruct (last (attempts evs)) as [[a key]|] eqn:Hlast.
  - exists a, key. eexists. split; [reflexivity|]. split; [exact Hres|].
    unfold last_or. rewrite Hf, last_map, Hlast. cbn [option_map fst snd].
    apply getCleanErrorMessage_reports.
  - apply last_None in Hlast. rewrite Hlast in Hlen. cbn in Hlen.
    destruct Hok as (_ & Hne & _). unfold maxRetriesPerKeyCycle in Hlen.
    destruct (getApiKeys svc); [congruence | simpl in Hlen; lia].
Qed.
End Failing.

(** With a non-empty key pool, when every attempt fails (the Gemini try
    block throws on every reply, and the payload of every 429 is well
    formed; for OpenRouter the chat call and its [/completions] fallback
    both fail), each executor makes exactly [keyCount * 3] attempts,
    with the keys in rotation, records the error of each, and then
    throws [AllKeysFailedError], whose message carries the error of the
    last attempt (for OpenRouter the error of the last chat call). *)
Theorem exhausted_calls_throw_all_keys_failed
        (json_error_message : string -> option string)
        (svc : ApiKeyService.t) (modelName : string)
        (gemini : Z -> string -> GeminiReply)
        (openrouter : Z -> string -> OpenRouterReply)
        (gemini_error chat_error : Z -> string -> ApiError) :
  reachable svc -> getApiKeys svc <> [] -> modelName <> "" ->
  (forall attempt key,
      gemini_try (gemini attempt key) = inr (gemini_error attempt key)) ->
  (forall attempt key,
      status (gemini_error attempt key) = Some 429 ->
      retry_info_well_formed (gemini_error attempt key) = true) ->
  (forall attempt key,
      openrouter attempt key = ChatThrows (chat_error attempt key) None) ->
  exhausted json_error_message svc gemini_error
    (executeWithRetry json_error_message "generateContent" modelName gemini svc)
  /\ exhausted json_error_message svc chat_error
    (executeOpenRouterWithRetry json_error_message openrouter svc).
Proof.
  intros Hr Hne Hmodel Hg Hwf Ho.
  pose proof (reachable_pool_ok svc Hr Hne) as Hok.
  assert ((length (getApiKeys svc) =? 0)%nat = false) as Hlen
    by (apply Nat.eqb_neq; destruct (getApiKeys svc); [congruence | discriminate]).
  assert (truthy modelName = true) as Ht
    by (destruct modelName; [contradiction | reflexivity]).
  unfold executeWithRetry, executeOpenRouterWithRetry.
  rewrite Hlen, Ht.
  change (negb true || negb (has_rest_method "generateContent")) with false.
  cbv iota. split.
  - apply retry_loop_exhausted; [|exact Hok].
    intros attempt key. unfold gemini_attempt. rewrite Hg.
    destruct (decide (status (gemini_error attempt key) = Some 429)) as [H429|];
      [|eauto].
    rewrite gemini_delayMs_specified by (apply Hwf, H429). eauto.
  - apply retry_loop_exhausted; [|exact Hok].
    intros attempt key. unfold openrouter_attempt. rewrite Ho. eauto.
Qed.

Lemma exhausted_calls_throw_all_keys_failed_witness :
  exhausted (fun _ => None) three_keys (fun _ _ => quota_exceeded)
    (executeWithRetry (fun _ => None) "generateContent" "gemini-2.5-pro"
                      always_429 three_keys)
  /\ exhausted (fun _ => None) three_keys (fun _ _ => rate_limited)
    (executeOpenRouterWithRetry (fun _ => None) chat_always_429 three_keys).
Proof.
  apply (exhausted_calls_throw_all_keys_failed (fun _ => None) three_keys
           "gemini-2.5-pro" always_429 chat_always_429
           (fun _ _ => quota_exceeded) (fun _ _ => rate_limited)).
  - apply reach_new.
  - vm_compute; discriminate.
  - discriminate.
  - intros attempt key. reflexivity.
  - intros attempt key _. reflexivity.
  - intros attempt key. reflexivity.
Defined.

Example exhausted_call_example :
  let out := executeWithRetry (fun _ => None) "generateContent"
               "gemini-2.5-pro" always_429 three_keys in
  map snd (attempts (events out))
  = ["k1"; "k2"; "k3"; "k1"; "k2"; "k3"; "k1"; "k2"; "k3"]
  /\ snd (fst out)
     = inr (AllKeysFailedError
              "All API keys failed. Last error: Quota exceeded").
Proof. split; reflexivity. Qed.

End ExecutorRuns.

(** ** More on the key service: parsing, round trip, base URL *)

Module KeyServiceMoreSpec.
Import JsString JsStringSpec ApiKeyService ApiKeyServiceSpec KeyServiceMore.

Lemma split_go_no_sep sep l : forall in_sep cur,
  List.Forall (fun c => sep c = false) cur ->
  List.Forall (List.Forall (fun c => sep c = false)) (split_go sep in_sep cur l).
Proof.
  induction l as [|c l IH]; intros in_sep cur Hcur; cbn.
  - constructor; [apply List.Forall_rev, Hcur | constructor].
  - destruct (sep c) eqn:E.
    + destruct in_sep; [apply IH; constructor|].
      constructor; [apply List.Forall_rev, Hcur | apply IH; constructor].
    + apply IH. constructor; assumption.
Qed.

Lemma of_chars_chars s : of_chars (chars s) = s.
Proof. apply string_of_list_ascii_of_string. Qed.

(** Every key [parseKeys] produces is non-empty, trimmed and free of the
    separators: no key of the pool can itself be read as two keys. *)
Theorem parseKeys_well_formed (keysString : string) :
  List.Forall well_formed_key (parseKeys keysString).
Proof.
  unfold parseKeys. destruct (truthy keysString); [|constructor].
  apply List.Forall_forall. intros k Hk.
  apply list_elem_of_In, list_elem_of_filter in Hk as [Hlen Hin].
  apply list_elem_of_In, in_map_iff in Hin as (piece & <- & Hpiece).
  unfold split_runs in Hpiece.
  apply in_map_iff in Hpiece as (l & <- & Hl).
  pose proof (split_go_no_sep is_key_sep (chars keysString) false []
                (List.Forall_nil _)) as Hsep.
  rewrite List.Forall_forall in Hsep. specialize (Hsep l Hl).
  split; [|split].
  - intros E. rewrite E in Hlen. discriminate.
  - apply trim_idempotent.
  - unfold trim. rewrite !chars_of_chars. apply trim_chars_Forall, Hsep.
Qed.

(** *** Round trip through the text of the settings field *)

Lemma chars_app s1 s2 : chars (s1 ++ s2) = (chars s1 ++ chars s2)%list.
Proof.
  induction s1 as [|c s1 IH]; [reflexivity|].
  change (String c s1 ++ s2) with (String c (s1 ++ s2)).
  unfold chars in *. cbn [list_ascii_of_string]. rewrite IH. reflexivity.
Qed.

Lemma split_go_word sep l w : forall in_sep cur,
  List.Forall (fun c => sep c = false) w ->
  split_go sep in_sep cur (w ++ l)
  = split_go sep (match w with [] => in_sep | _ => false end)
             (rev w ++ cur) l.
Proof.
  induction w as [|c w IH]; intros in_sep cur Hw; [reflexivity|].
  inversion Hw as [|? ? Hc Hw']; subst. cbn [app split_go]. rewrite Hc.
  rewrite (IH false (c :: cur) Hw'). cbn [rev]. rewrite <- app_assoc. cbn.
  destruct w; reflexivity.
Qed.

Lemma split_joined_keys ks :
  ks <> [] -> List.Forall well_formed_key ks ->
  forall in_sep,
    split_go is_key_sep in_sep [] (chars (join newline ks)) = map chars ks.
Proof.
  induction ks as [|k ks IH]; [contradiction|]. intros _ Hwf in_sep.
  inversion Hwf as [|? ? (Hne & _ & Hsep) Hwf']; subst.
  assert (chars k <> []) as Hchars
    by (destruct k; [contradiction | discriminate]).
  destruct ks as [|k2 ks].
  - cbn [join map]. rewrite <- (app_nil_r (chars k)) at 1.
    rewrite (split_go_word _ _ _ _ _ Hsep). cbn [split_go].
    rewrite app_nil_r, rev_involutive. reflexivity.
  - change (join newline (k :: k2 :: ks))
      with (k ++ newline ++ join newline (k2 :: ks)).
    rewrite !chars_app, (split_go_word _ _ _ _ _ Hsep).
    destruct (chars k) as [|c w] eqn:Ek; [contradiction|].
    cbn [chars newline list_ascii_of_string app split_go].
    change (is_key_sep (ascii_of_nat 10)) with true. cbv iota.
    rewrite app_nil_r, rev_involutive.
    cbn [map]. rewrite Ek. f_equal.
    apply (IH ltac:(discriminate) Hwf' true).
Qed.

Lemma parseKeys_join ks :
  List.Forall well_formed_key ks -> parseKeys (join newline ks) = ks.
Proof.
  intros Hwf. destruct ks as [|k ks]; [reflexivity|].
  unfold parseKeys, split_runs.
  assert (truthy (join newline (k :: ks)) = true) as ->.
  { inversion Hwf as [|? ? (Hne & _) _]; subst.
    destruct k; [contradiction|]. destruct ks; reflexivity. }
  rewrite (split_joined_keys (k :: ks) ltac:(discriminate) Hwf false).
  induction Hwf as [|k' ks' (Hne & Htrim & _) _ IH]; [reflexivity|].
  cbn [map]. rewrite of_chars_chars, Htrim, filter_cons.
  rewrite decide_True by (apply Nat.ltb_lt, str_length_pos, Hne).
  f_equal. exact IH.
Qed.

Lemma reachable_well_formed s :
  reachable s -> List.Forall well_formed_key (getApiKeys s).
Proof.
  induction 1 as [e st b | s _ IH | ks s _ IH | s _ IH]; try exact IH.
  - unfold new, getApiKeys; simpl.
    destruct (match e with Some k => truthy k | None => false end);
      apply parseKeys_well_formed.
  - unfold getNextApiKey. destruct (length (getApiKeys s) =? 0)%nat; exact IH.
  - unfold setApiKeys. destruct (isEnvKey s); [exact IH|].
    apply parseKeys_well_formed.
Qed.

(** The text [getApiKeysString] shows in the settings parses back to the
    pool it came from, so saving the field unchanged with [setApiKeys]
    changes nothing in the service. *)
Theorem keys_string_round_trip (s : ApiKeyService.t) :
  reachable s ->
  parseKeys (getApiKeysString s) = getApiKeys s
  /\ setApiKeys (getApiKeysString s) s = s.
Proof.
  intros Hr.
  assert (parseKeys (getApiKeysString s) = getApiKeys s) as Hparse
    by (apply parseKeys_join, reachable_well_formed, Hr).
  split; [exact Hparse|].
  unfold setApiKeys. destruct (isEnvKey s); [reflexivity|].
  rewrite Hparse. destruct s; reflexivity.
Qed.

Lemma keys_string_round_trip_witness :
  getApiKeysString three_keys = "k1" ++ newline ++ "k2" ++ newline ++ "k3"
  /\ parseKeys (getApiKeysString three_keys) = ["k1"; "k2"; "k3"]
  /\ setApiKeys (getApiKeysString three_keys) three_keys = three_keys.
Proof.
  split; [reflexivity|].
  exact (keys_string_round_trip three_keys (reach_new None _ None)).
Defined.

(** *** The base URL and the pool over the life of the service *)

Lemma truthy_nonempty s : truthy s = true <-> s <> "".
Proof. destruct s; split; intros H; congruence || reflexivity || discriminate. Qed.

(** Every key of the pool is well formed, whatever was done to the
    service since it was built, [setApiBaseUrl] included. *)
Lemma reachable_from_well_formed envKey storedKeys storedBaseUrl s :
  reachable_from (new envKey storedKeys storedBaseUrl) s ->
  List.Forall well_formed_key (getApiKeys s).
Proof.
  induction 1 as [| s _ IH | ks s _ IH | url s _ IH | s _ IH];
    try exact IH.
  - unfold new, getApiKeys; simpl.
    destruct (match envKey with Some k => truthy k | None => false end);
      apply parseKeys_well_formed.
  - unfold getNextApiKey. destruct (length (getApiKeys s) =? 0)%nat; exact IH.
  - unfold setApiKeys. destruct (isEnvKey s); [exact IH|].
    apply parseKeys_well_formed.
Qed.

Lemma reachable_from_invariants envKey storedKeys storedBaseUrl s :
  reachable_from (new envKey storedKeys storedBaseUrl) s ->
  getApiBaseUrl s <> ""
  /\ hasEnvKey s = hasEnvKey (new envKey storedKeys storedBaseUrl)
  /\ (isEnvKey s = true ->
      getApiKeys s = getApiKeys (new envKey storedKeys storedBaseUrl))
  /\ -1 <= currentKeyIndex s.
Proof.
  induction 1 as [| s _ IH | ks s _ IH | url s _ IH | s _ IH].
  - split; [|split; [reflexivity|split; [reflexivity | cbn; lia]]].
    cbn. destruct storedBaseUrl as [u|]; [|discriminate].
    destruct (truthy u) eqn:E; [apply truthy_nonempty, E | discriminate].
  - destruct IH as (H1 & H2 & H3 & H4).
    unfold getNextApiKey.
    destruct (length (getApiKeys s) =? 0)%nat eqn:E; cbn [snd];
      [exact (conj H1 (conj H2 (conj H3 H4)))|].
    split; [exact H1|]. split; [exact H2|]. split; [exact H3|].
    cbn. apply Nat.eqb_neq in E.
    pose proof (Z.rem_bound_pos (currentKeyIndex s + 1)
                  (Z.of_nat (length (getApiKeys s)))).
    lia.
  - destruct IH as (H1 & H2 & H3 & H4). unfold setApiKeys.
    destruct (isEnvKey s) eqn:E;
      [split; [exact H1|]; split; [exact H2|]; split; [|exact H4];
       intros _; apply H3; reflexivity|].
    split; [exact H1|]. split; [exact H2|]. split; [|exact H4].
    unfold isEnvKey in *. cbn. rewrite E. discriminate.
  - destruct IH as (H1 & H2 & H3 & H4).
    split; [|split; [exact H2 | split; [exact H3 | exact H4]]].
    cbn. destruct (truthy (trim url)) eqn:E;
      [apply truthy_nonempty, E | discriminate].
  - destruct IH as (H1 & H2 & H3 & H4).
    split; [exact H1|]. split; [exact H2|]. split; [exact H3 | cbn; lia].
Qed.

(** Over every sequence of [getNextApiKey], [setApiKeys],
    [setApiBaseUrl] and [reset] since the service was built: the base
    URL is never empty (the constructor and [setApiBaseUrl] both fall
    back on the Gemini default, so the [|| 'https://openrouter.ai/api/v1']
    of the OpenRouter executor never applies); every key of the pool is
    well formed; the key from the environment cannot be replaced: with
    it, the pool stays what the constructor parsed; the cursor is never
    below -1. *)
Theorem service_invariants (envKey storedKeys storedBaseUrl : option string)
        (s : ApiKeyService.t) :
  reachable_from (new envKey storedKeys storedBaseUrl) s ->
  getApiBaseUrl s <> ""
  /\ hasEnvKey s = hasEnvKey (new envKey storedKeys storedBaseUrl)
  /\ (isEnvKey s = true ->
      getApiKeys s = getApiKeys (new envKey storedKeys storedBaseUrl))
  /\ -1 <= currentKeyIndex s
  /\ List.Forall well_formed_key (getApiKeys s).
Proof.
  intros Hr.
  destruct (reachable_from_invariants _ _ _ _ Hr) as (H1 & H2 & H3 & H4).
  repeat (split; [assumption|]).
  apply (reachable_from_well_formed _ _ _ _ Hr).
Qed.

Lemma service_invariants_witness :
  let s := setApiKeys "other"
             (setApiBaseUrl "   " (new (Some "host-key") None (Some ""))) in
  getApiBaseUrl s = GEMINI_DEFAULT_API_BASE_URL
  /\ getApiKeys s = ["host-key"].
Proof.
  intros s.
  destruct (service_invariants (Some "host-key") None (Some "") s)
    as (_ & _ & H & _ & _).
  - subst s. apply from_set_keys, from_set_url, from_start.
  - split; [reflexivity|]. rewrite H; reflexivity.
Defined.

(** Keys pasted with no-break spaces around the commas. *)
Example parseKeys_strips_no_break_spaces :
  parseKeys ("k1" ++ nbsp ++ "," ++ nbsp ++ "," ++ "k2") = ["k1"; "k2"].
Proof. reflexivity. Qed.

End KeyServiceMoreSpec.

(** ** Model overrides and the routing to a provider *)

Module ModelsSpec.
Import JsString ApiKeyService KeyServiceMore Models.

Lemma hasIncompatibleOverrides_false isOpenRouter overrides :
  hasIncompatibleOverrides isOpenRouter overrides = false <->
  forall role, incompatible isOpenRouter (overrides role) = false.
Proof.
  unfold hasIncompatibleOverrides, AGENT_ROLES. cbn [existsb].
  fold (incompatible isOpenRouter (overrides planner)).
  fold (incompatible isOpenRouter (overrides searcher)).
  fold (incompatible isOpenRouter (overrides outline)).
  fold (incompatible isOpenRouter (overrides synthesizer)).
  fold (incompatible isOpenRouter (overrides clarification)).
  fold (incompatible isOpenRouter (overrides visualizer)).
  fold (incompatible isOpenRouter (overrides roleAI)).
  split.
  - intros H role.
    repeat (apply orb_false_elim in H as [? H]).
    destruct role; assumption.
  - intros H. rewrite !H. reflexivity.
Qed.

Lemma clear_at isOpenRouter overrides role :
  incompatible isOpenRouter
    (clearIncompatibleModelOverrides isOpenRouter overrides role) = false
  /\ (incompatible isOpenRouter (overrides role) = false ->
      clearIncompatibleModelOverrides isOpenRouter overrides role
      = overrides role)
  /\ (clearIncompatibleModelOverrides isOpenRouter overrides role = None
      \/ clearIncompatibleModelOverrides isOpenRouter overrides role
         = overrides role).
Proof.
  unfold clearIncompatibleModelOverrides, incompatible.
  destruct (overrides role) as [o|]; [|auto].
  destruct (truthy o) eqn:Et; [|rewrite Et; auto].
  destruct isOpenRouter, (includes o "gemini") eqn:Eg; cbn;
    rewrite ?Et, ?Eg; cbn; auto; split; auto; split; auto; discriminate.
Qed.

Lemma clear_exactly isOpenRouter overrides role :
  clearIncompatibleModelOverrides isOpenRouter overrides role
  = if incompatible isOpenRouter (overrides role) then None
    else overrides role.
Proof.
  unfold clearIncompatibleModelOverrides, incompatible.
  destruct (overrides role) as [o|]; [|reflexivity].
  destruct (truthy o); [|reflexivity].
  destruct isOpenRouter, (includes o "gemini"); reflexivity.
Qed.

(** The settings panel flags the overrides when its test flags the
    override of some role.  [clearIncompatibleModelOverrides] removes
    the override of a role exactly when that test flags it, and keeps
    every other override as it was; after it the panel flags nothing,
    and it changes nothing when there was nothing to flag. *)
Theorem clearing_removes_every_incompatible_override
        (isOpenRouter : bool) (overrides : Overrides) :
  let cleared := clearIncompatibleModelOverrides isOpenRouter overrides in
  hasIncompatibleOverrides isOpenRouter overrides
  = existsb (fun role => incompatible isOpenRouter (overrides role))
            AGENT_ROLES
  /\ (forall role,
        cleared role = if incompatible isOpenRouter (overrides role)
                       then None else overrides role)
  /\ hasIncompatibleOverrides isOpenRouter cleared = false
  /\ (forall role, cleared role = None \/ cleared role = overrides role)
  /\ (hasIncompatibleOverrides isOpenRouter overrides = false ->
      forall role, cleared role = overrides role).
Proof.
  intros cleared. subst cleared.
  split; [reflexivity|]. split; [apply clear_exactly|]. split; [|split].
  - apply hasIncompatibleOverrides_false. intros role. apply clear_at.
  - intros role. apply clear_at.
  - intros H role. apply clear_at.
    apply hasIncompatibleOverrides_false. exact H.
Qed.

Lemma clearing_removes_every_incompatible_override_witness :
  let cleared := clearIncompatibleModelOverrides true mixed_overrides in
  hasIncompatibleOverrides true mixed_overrides = true
  /\ hasIncompatibleOverrides true cleared = false
  /\ cleared planner = None
  /\ cleared searcher = Some "meta-llama/llama-3-70b-instruct".
Proof.
  intros cleared.
  destruct (clearing_removes_every_incompatible_override true mixed_overrides)
    as (_ & _ & H & _ & _).
  split; [reflexivity|]. split; [exact H|]. split; reflexivity.
Defined.

Lemma default_models_route role mode :
  isOpenRouterModel (geminiModels role mode) = false
  /\ isOpenRouterModel (openRouterModels role mode) = true.
Proof. destruct role, mode; split; reflexivity. Qed.

(** When no override is incompatible with the active provider and
    [getDefaultModelsForCurrentProvider] gets at the key service, the
    model [getModel] selects for any role and mode is routed by
    [ai.models.generateContent] to the executor of that provider: to
    [executeOpenRouterWithRetry] when the base URL is OpenRouter's, to
    [executeWithRetry] otherwise.  When the lookup of the key service
    throws, as [require] does in an ES module, this holds of the roles
    with an override only: every other role gets the OpenRouter default
    and goes to [executeOpenRouterWithRetry], whatever provider is in
    use. *)
Theorem models_route_to_active_provider
        (isOpenRouter : bool) (overrides : Overrides)
        (role : AgentRole) (mode : ResearchMode) :
  hasIncompatibleOverrides isOpenRouter overrides = false ->
  isOpenRouterModel (getModel overrides (Some isOpenRouter) role mode None)
  = isOpenRouter
  /\ isOpenRouterModel (getModel overrides None role mode None)
     = match overrides role with
       | Some override => if truthy override then isOpenRouter else true
       | None => true
       end.
Proof.
  intros H. apply hasIncompatibleOverrides_false with (role := role) in H.
  unfold getModel, incompatible, getDefaultModelForRole in *.
  destruct (default_models_route role mode) as [Hg Ho].
  destruct (overrides role) as [o|].
  - destruct (truthy o).
    + unfold isOpenRouterModel.
      destruct isOpenRouter, (includes o "gemini"); cbn in *;
        split; reflexivity || discriminate.
    + split; [destruct isOpenRouter|]; assumption.
  - split; [destruct isOpenRouter|]; assumption.
Qed.

Lemma models_route_to_active_provider_witness :
  isOpenRouterModel
    (getModel (clearIncompatibleModelOverrides true mixed_overrides)
              (Some true) planner DeepDive None) = true
  /\ isOpenRouterModel
       (getModel (clearIncompatibleModelOverrides false mixed_overrides)
                 None planner DeepDive None) = false.
Proof.
  split.
  - apply (models_route_to_active_provider true). reflexivity.
  - apply (models_route_to_active_provider false
             (clearIncompatibleModelOverrides false mixed_overrides)
             planner DeepDive). reflexivity.
Defined.

(** With Gemini in use, no override and a lookup that throws, the
    planner is given the OpenRouter default. *)
Example default_model_when_lookup_throws :
  getModel (fun _ => None) None planner DeepDive None = "openrouter/auto"
  /\ getModel (fun _ => None) (Some false) planner DeepDive None
     = "gemini-2.5-pro".
Proof. split; reflexivity. Qed.

(** Changing the base URL keeps the overrides compatible: when none was
    incompatible with the provider before, none is incompatible with the
    provider after [setApiBaseUrl] and the clearing it schedules,
    provided the key does not come from the environment and the storage
    accepts the new URL (otherwise nothing is cleared). *)
Theorem base_url_switch_keeps_overrides_compatible
        (url : string) (svc : ApiKeyService.t) (overrides : Overrides) :
  isEnvKey svc = false ->
  hasIncompatibleOverrides (isUsingOpenRouter svc) overrides = false ->
  let '(svc', overrides') := switch_base_url true url svc overrides in
  hasIncompatibleOverrides (isUsingOpenRouter svc') overrides' = false.
Proof.
  intros Henv Hcompat. unfold switch_base_url, clears_overrides.
  rewrite Henv. cbn [negb andb].
  destruct (Bool.eqb (isUsingOpenRouter svc)
                     (isUsingOpenRouter (setApiBaseUrl url svc))) eqn:E;
    cbn [negb].
  - apply Bool.eqb_prop in E. rewrite <- E. exact Hcompat.
  - apply hasIncompatibleOverrides_false. intros role. apply clear_at.
Qed.

Lemma base_url_switch_keeps_overrides_compatible_witness :
  let '(svc', overrides') :=
    switch_base_url true OPENROUTER_DEFAULT_API_BASE_URL
      (new None (Some "k1") None)
      (fun role => match role with
                   | planner => Some "gemini-2.5-pro"
                   | _ => None
                   end) in
  isUsingOpenRouter svc' = true
  /\ overrides' planner = None
  /\ hasIncompatibleOverrides (isUsingOpenRouter svc') overrides' = false.
Proof.
  pose proof (base_url_switch_keeps_overrides_compatible
                OPENROUTER_DEFAULT_API_BASE_URL (new None (Some "k1") None)
                (fun role => match role with
                             | planner => Some "gemini-2.5-pro"
                             | _ => None
                             end) eq_refl eq_refl) as H.
  destruct (switch_base_url _ _ _ _) as [svc' overrides'] eqn:E.
  injection E as <- <-.
  split; [reflexivity|]. split; [reflexivity | exact H].
Defined.

End ModelsSpec.

(** ** More on the planner: the log, the results, the turns *)

Module PlannerMoreSpec.
Import JsString JsStringSpec Json Planner SanitizeSpec PlannerSpec
       PlannerObservations.

(** What the last entry of the log does to the reconstructed debate: a
    thought with a persona extends it, and its persona is the one who
    spoke last; anything else (a search, a read, a thought without
    persona such as the notices of the planner) empties it, so that the
    next call starts a debate with Alpha and the whole budget of rounds. *)
Theorem reconstruct_last_entry
        (researchHistory : list ResearchUpdate) (update : ResearchUpdate) :
  reconstruct (researchHistory ++ [update])
  = match is_turn update with
    | Some turn => (reconstruct researchHistory ++ [turn])%list
    | None => []
    end
  /\ lastPersona (researchHistory ++ [update])
     = option_map fst (is_turn update)
  /\ (is_turn update = None ->
      forall idCounter0,
        nextPersona (initial (researchHistory ++ [update]) idCounter0) = Alpha
        /\ debateTurns (initial (researchHistory ++ [update]) idCounter0)
           = 0%nat).
Proof.
  unfold reconstruct, lastPersona, initial.
  unfold reconstruct, lastPersona.
  rewrite rev_app_distr. cbn [rev app tail_rev].
  destruct (is_turn update) as [turn|]; cbn; repeat split; discriminate || auto.
Qed.

Lemma reconstruct_last_entry_witness :
  reconstruct log_after_search = []
  /\ nextPersona (initial log_after_search 3) = Alpha
  /\ debateTurns (initial log_after_search 3) = 0%nat.
Proof.
  destruct (reconstruct_last_entry
              (firstn 2 log_after_search)
              {| id := 2; type := TSearch; persona := None;
                 content := "gold price" |})
    as (H1 & _ & H3).
  split; [exact H1|]. exact (H3 eq_refl 3).
Defined.


Lemma sanitized_queries stringify raw d :
  sanitizePlannerTurn stringify raw = Some d -> queries_ok (queries d).
Proof.
  unfold sanitizePlannerTurn.
  destruct raw as [[| | | |l|l]|]; try discriminate.
  destruct (prop "thought" (JObj l)) as [[]|]; try discriminate;
    intros [= <-]; exact (normalized_queries_ok stringify (JObj l)).
Qed.

Lemma usable_inv p d :
  usable p = Some d ->
  p = Some d /\ truthy (thought d) = true /\ truthy (action d) = true.
Proof.
  unfold usable. destruct p as [p|]; [|discriminate].
  destruct (truthy (thought p)) eqn:Ht, (truthy (action p)) eqn:Ha;
    try discriminate.
  intros [= <-]. auto.
Qed.

Lemma truthy_neq s : truthy s = true -> s <> "".
Proof. destruct s; [discriminate|]. intros _. discriminate. Qed.

Lemma act_shaped parsed eff st :
  queries_ok (queries parsed) ->
  match act parsed eff st with
  | Return r _ => well_shaped r
  | _ => True
  end.
Proof.
  intros Hq. unfold act. destruct (String.eqb eff "finish").
  - split; [reflexivity|]. eexists. split; [reflexivity|].
    destruct (finish_reason parsed) as [r|].
    + destruct (truthy r) eqn:Hr; [apply truthy_neq, Hr|].
      destruct (nextPersona st); discriminate.
    + destruct (nextPersona st); discriminate.
  - destruct (String.eqb eff "search"), (queries parsed) as [[|q qs]|];
      try exact I.
    split; [exact Hq | reflexivity].
Qed.

Lemma planner_turn_shaped stringify params searchCycles st input :
  match snd (planner_turn stringify params searchCycles st input) with
  | Return r _ => well_shaped r
  | _ => True
  end.
Proof.
  unfold planner_turn. destruct input as [|text raw cancelled]; [exact I|].
  destruct (usable _) as [parsed|] eqn:Hu; cbn [say emit]; destruct cancelled;
    try exact I.
  apply usable_inv in Hu as (Hs & _). apply sanitized_queries in Hs.
  destruct (enforce_min_cycles _ _ _ _) as [[notice eff] st3].
  cbn [snd]. apply act_shaped, Hs.
Qed.

(** Whatever the agents reply, a result the planner returns has one of
    two shapes: [should_finish] with no query and a non-empty reason, or
    a search with one to four non-empty trimmed queries and no reason.
    A search is never returned without a query, nor a finish without a
    reason. *)
Theorem planner_results_well_shaped
        (stringify : Json.t -> string)
        (researchHistory : list ResearchUpdate) (idCounter0 : Z)
        (params : ResearchParams) (searchCycles : Z)
        (inputs : nat -> TurnInput) :
  match snd (runDynamicConversationalPlanner stringify researchHistory
               idCounter0 params searchCycles inputs) with
  | Return r _ => well_shaped r
  | Continue _ => False
  | Throw _ => True
  end.
Proof.
  unfold runDynamicConversationalPlanner.
  generalize (rounds_left params
                (debateTurns (initial researchHistory idCounter0))) as fuel.
  generalize (initial researchHistory idCounter0) as st.
  intros st fuel. revert st. induction fuel as [|fuel IH]; intros st.
  - cbn. split; [reflexivity|]. eexists. split; [reflexivity | discriminate].
  - cbn [planner_loop].
    pose proof (planner_turn_shaped stringify params searchCycles st
                  (inputs (S (debateTurns st)))) as Ht.
    destruct (planner_turn _ _ _ _ _) as [us [st1|r st1|st1]];
      cbn [snd] in *; try exact I; try exact Ht.
    specialize (IH st1).
    destruct (planner_loop _ _ _ _ _ st1) as [us' step']. exact IH.
Qed.


(** *** What a call emits *)

Lemma numbered_from_cons n u us :
  id u = n -> numbered_from (n + 1) us -> numbered_from n (u :: us).
Proof.
  intros Hu Hus [|i] v; cbn.
  - intros [= <-]. lia.
  - intros Hv. rewrite (Hus i v Hv). lia.
Qed.

Lemma numbered_from_nil n : numbered_from n [].
Proof. intros i u. rewrite lookup_nil. discriminate. Qed.

Lemma numbered_from_app n us1 us2 :
  numbered_from n us1 ->
  numbered_from (n + Z.of_nat (length us1)) us2 ->
  numbered_from n (us1 ++ us2).
Proof.
  intros H1 H2 i u Hi.
  apply lookup_app_Some in Hi as [Hi|[Hle Hi]]; [exact (H1 i u Hi)|].
  rewrite (H2 _ u Hi). lia.
Qed.

Lemma Forall_at {A} (P : A -> Prop) (l : list A) :
  List.Forall P l -> forall i x, l !! i = Some x -> P x.
Proof.
  induction 1 as [|y l Hy Hl IH]; intros [|i] x; cbn; try discriminate.
  - intros [= <-]. exact Hy.
  - apply IH.
Qed.

Lemma enforce_emits params searchCycles action st :
  emits st (fst (fst (enforce_min_cycles params searchCycles action st)))
        (snd (enforce_min_cycles params searchCycles action st)).
Proof.
  unfold enforce_min_cycles, emits.
  destruct (String.eqb action "finish" && (searchCycles <? minCycles params));
    [destruct (2 <=? consecutiveFinishAttempts st)%nat|]; cbn [fst snd emit].
  - split; [apply numbered_from_cons; [reflexivity | apply numbered_from_nil]|].
    split; [reflexivity|]. repeat constructor. discriminate.
  - split; [apply numbered_from_cons; [reflexivity | apply numbered_from_nil]|].
    split; [reflexivity|]. repeat constructor. discriminate.
  - split; [apply numbered_from_nil|]. split; [cbn; lia | constructor].
Qed.

Lemma act_idCounter parsed eff st :
  idCounter (step_state (act parsed eff st)) = idCounter st.
Proof.
  unfold act. destruct (String.eqb eff "finish"); [reflexivity|].
  destruct (String.eqb eff "search"), (queries parsed) as [[|q qs]|];
    reflexivity.
Qed.

Lemma count_finish_idCounter action st :
  idCounter (count_finish action st) = idCounter st.
Proof.
  unfold count_finish. destruct (String.eqb action "finish"); reflexivity.
Qed.

Lemma fallback_nonempty text p :
  (if truthy (trim text) then trim text
   else "Agent " ++ persona_name p
          ++ " produced non-JSON output. Proceeding with debate.") <> "".
Proof.
  destruct (truthy (trim text)) eqn:Ht; [apply truthy_neq, Ht | discriminate].
Qed.

Lemma planner_turn_emits stringify params searchCycles st input :
  emits st (fst (planner_turn stringify params searchCycles st input))
        (step_state (snd (planner_turn stringify params searchCycles st input))).
Proof.
  unfold emits, planner_turn. destruct input as [|text raw cancelled].
  { split; [apply numbered_from_nil|]. split; [cbn; lia | constructor]. }
  destruct (usable _) as [parsed|] eqn:Hu; cbn [say emit].
  - apply usable_inv in Hu as (_ & Ht & _). apply truthy_neq in Ht.
    destruct cancelled.
    + split; [apply numbered_from_cons; [reflexivity | apply numbered_from_nil]|].
      split; [reflexivity|]. repeat constructor. exact Ht.
    + pose proof (enforce_emits params searchCycles (action parsed)
                    (count_finish (action parsed)
                       (snd (say (count_turn st) (thought parsed)))))
        as (Hn & Hc & Hs).
      cbn [say emit fst snd] in Hn, Hc, Hs.
      rewrite count_finish_idCounter in Hn, Hc. cbn [idCounter count_turn] in Hn, Hc.
      destruct (enforce_min_cycles _ _ _ _) as [[notice eff] st3].
      cbn [fst snd] in *. rewrite act_idCounter.
      split; [apply numbered_from_cons; [reflexivity | exact Hn]|].
      split; [rewrite Hc; cbn [length]; lia|].
      constructor; [split; [reflexivity | exact Ht] | exact Hs].
  - pose proof (fallback_nonempty text (nextPersona st)) as Hf.
    destruct cancelled;
      (split; [apply numbered_from_cons; [reflexivity | apply numbered_from_nil]|];
       split; [reflexivity|]; repeat constructor; exact Hf).
Qed.

Lemma planner_loop_emits stringify params searchCycles inputs fuel : forall st,
  emits st (fst (planner_loop stringify params searchCycles inputs fuel st))
        (step_state
           (snd (planner_loop stringify params searchCycles inputs fuel st))).
Proof.
  unfold emits. induction fuel as [|fuel IH]; intros st.
  - cbn. split; [apply numbered_from_cons; [reflexivity | apply numbered_from_nil]|].
    split; [reflexivity|]. repeat constructor. discriminate.
  - cbn [planner_loop].
    pose proof (planner_turn_emits stringify params searchCycles st
                  (inputs (S (debateTurns st)))) as Ht.
    destruct (planner_turn _ _ _ _ _) as [us [st1|r st1|st1]];
      cbn [fst snd step_state] in *; try exact Ht.
    specialize (IH st1).
    destruct (planner_loop _ _ _ _ _ st1) as [us' step'].
    cbn [fst snd] in *.
    destruct Ht as (Hn & Hc & Hs), IH as (Hn' & Hc' & Hs').
    split; [apply numbered_from_app; [exact Hn | rewrite <- Hc; exact Hn']|].
    split; [rewrite Hc', Hc, length_app; lia|].
    apply List.Forall_app. split; assumption.
Qed.

(** Every update a call emits is a thought with a non-empty content;
    the updates take the ids [idCounter0], [idCounter0 + 1], ... in the
    order of their emission, and the counter the call shares with its
    caller ends just after the last of them, however the call ends (a
    result or an exception). *)
Theorem emitted_updates_numbered
        (stringify : Json.t -> string)
        (researchHistory : list ResearchUpdate) (idCounter0 : Z)
        (params : ResearchParams) (searchCycles : Z)
        (inputs : nat -> TurnInput) :
  let out := runDynamicConversationalPlanner stringify researchHistory
               idCounter0 params searchCycles inputs in
  (forall i u, fst out !! i = Some u ->
               id u = idCounter0 + Z.of_nat i
               /\ type u = TThought /\ content u <> "")
  /\ idCounter (step_state (snd out))
     = idCounter0 + Z.of_nat (length (fst out)).
Proof.
  cbv zeta. unfold runDynamicConversationalPlanner.
  destruct (planner_loop_emits stringify params searchCycles inputs
              (rounds_left params
                 (debateTurns (initial researchHistory idCounter0)))
              (initial researchHistory idCounter0)) as (Hn & Hc & Hs).
  split; [|exact Hc].
  intros i u Hi. split; [exact (Hn i u Hi)|].
  exact (Forall_at _ _ Hs i u Hi).
Qed.


(** *** The decisions outside the minimum-cycle rule *)

(** What a turn does with a usable decision when the run is not
    cancelled.  A [search] with queries returns them at once, whatever
    the number of search cycles made (neither [minCycles] nor [maxCycles]
    is looked at); a [search] whose queries were all dropped and a
    [continue_debate] hand over to the other persona; a [finish] at or
    above [minCycles] returns at once, with the reason of the decision,
    or, when that is missing or empty, the sentence naming the persona.
    In all these cases the turn emits the thought and nothing else. *)
Theorem decisions_outside_the_rule
        (stringify : Json.t -> string) (params : ResearchParams)
        (searchCycles : Z) (st : State)
        (text : string) (raw : option Json.t) (d : PlannerTurn) :
  usable (sanitizePlannerTurn stringify raw) = Some d ->
  let out := planner_turn stringify params searchCycles st
                          (Reply text raw false) in
  (forall qs, action d = "search" -> queries d = Some qs ->
     map content (fst out) = [thought d] /\
     exists st', snd out = Return {| search_queries := qs;
                                     should_finish := false;
                                     result_reason := None |} st')
  /\ (action d = "search" /\ queries d = None \/ action d = "continue_debate" ->
      map content (fst out) = [thought d] /\ goes_on st out)
  /\ (action d = "finish" -> minCycles params <= searchCycles ->
      map content (fst out) = [thought d] /\
      exists reason st',
        snd out = Return {| search_queries := []; should_finish := true;
                            result_reason := Some reason |} st'
        /\ (forall given, finish_reason d = Some given -> given <> "" ->
               reason = given)
        /\ (finish_reason d = None \/ finish_reason d = Some "" ->
               reason = persona_name (nextPersona st) ++ " decided to finish.")).
Proof.
  intros Hu out. subst out.
  pose proof (usable_inv _ _ Hu) as (Hs & _).
  apply sanitized_queries in Hs.
  unfold planner_turn. rewrite Hu. cbn [say emit].
  unfold count_finish, enforce_min_cycles, goes_on.
  split; [|split].
  - intros qs Ha Hq. rewrite Ha. cbn. rewrite Hq in *.
    destruct qs as [|q qs]; [cbn in Hs; lia|].
    split; [reflexivity | eexists; reflexivity].
  - intros [[Ha Hq]| Ha]; rewrite Ha; cbn; [rewrite Hq|];
      (split; [reflexivity | eexists; split; reflexivity]).
  - intros Ha Hge. rewrite Ha.
    assert ((searchCycles <? minCycles params) = false) as ->
      by (apply Z.ltb_ge; exact Hge).
    cbn. split; [reflexivity|]. do 2 eexists. split; [reflexivity|].
    split.
    + intros given -> Hne. destruct given; [congruence | reflexivity].
    + intros [->| ->]; reflexivity.
Qed.

Lemma decisions_outside_the_rule_witness :
  (exists st',
     snd (planner_turn (fun _ => "") default_params 25 mid_debate
            (Reply "{...}" search_json false))
     = Return {| search_queries := ["gold price 2024"];
                 should_finish := false; result_reason := None |} st')
  /\ (exists reason st',
        snd (planner_turn (fun _ => "") default_params 7 mid_debate
               wants_to_finish)
        = Return {| search_queries := []; should_finish := true;
                    result_reason := Some reason |} st'
        /\ reason = "Sources agree.").
Proof.
  split.
  - destruct (decisions_outside_the_rule (fun _ => "") default_params 25
                mid_debate "{...}" search_json search_decision eq_refl)
      as (H & _).
    exact (proj2 (H ["gold price 2024"] eq_refl eq_refl)).
  - destruct (decisions_outside_the_rule (fun _ => "") default_params 7
                mid_debate "{...}" finish_json finish_decision eq_refl)
      as (_ & _ & H).
    destruct (H eq_refl ltac:(simpl; lia)) as (_ & reason & st' & H1 & H2 & _).
    exists reason, st'. split; [exact H1|].
    apply (H2 "Sources agree." eq_refl). discriminate.
Defined.


(** *** The count of finish decisions across a reply without decision *)

(** The count of [finish] decisions "in a row" is not reset by a turn
    whose reply has no usable decision.  Below [minCycles], when a persona
    decides to finish, the other one answers with something that is not a
    decision, and the first persona decides to finish again, the second
    [finish] is taken as the consensus of the agents: the call returns
    [should_finish = true] after these three turns, although one persona
    alone asked for it. *)
Theorem finish_count_survives_unusable_reply
        (stringify : Json.t -> string) (params : ResearchParams)
        (searchCycles : Z) (inputs : nat -> TurnInput)
        (fuel : nat) (st : State) :
  searchCycles < minCycles params ->
  consecutiveFinishAttempts st = 0%nat ->
  finishes stringify (inputs (1 + debateTurns st)%nat) ->
  unusable stringify (inputs (2 + debateTurns st)%nat) ->
  finishes stringify (inputs (3 + debateTurns st)%nat) ->
  let out := planner_loop stringify params searchCycles inputs (3 + fuel) st in
  exists reason st',
    snd out = Return {| search_queries := []; should_finish := true;
                        result_reason := Some reason |} st'
    /\ debateTurns st' = (3 + debateTurns st)%nat
    /\ speakers (fst out)
       = [nextPersona st; nextPersona st; other (nextPersona st);
          nextPersona st].
Proof.
  intros Hlt%Z.ltb_lt Hc (t1 & r1 & d1 & E1 & U1 & A1)
         (t2 & r2 & E2 & U2) (t3 & r3 & d3 & E3 & U3 & A3) out.
  subst out. cbn [Nat.add] in *.
  destruct (planner_loop _ _ _ _ _ _) as [us step] eqn:E.
  cbn [fst snd]. revert E. cbn [planner_loop].
  unfold planner_turn at 1. rewrite E1, U1. cbn [say emit].
  unfold count_finish, enforce_min_cycles. rewrite A1, Hlt.
  cbn [String.eqb Ascii.eqb Bool.eqb andb set_finishes
       consecutiveFinishAttempts count_turn]. rewrite Hc.
  cbn - [planner_loop planner_turn].
  cbn [planner_loop].
  unfold planner_turn at 1. cbn [debateTurns]. rewrite E2, U2.
  cbn - [planner_loop planner_turn].
  cbn [planner_loop].
  unfold planner_turn at 1. cbn [debateTurns]. rewrite E3, U3. cbn [say emit].
  unfold count_finish, enforce_min_cycles. rewrite A3, Hlt.
  cbn. intros [= <- <-]. do 2 eexists. split; [reflexivity|].
  split; [reflexivity|]. destruct (nextPersona st); reflexivity.
Qed.

Lemma finish_count_survives_unusable_reply_witness :
  exists reason st',
    snd (planner_loop (fun _ => "") default_params 3 finish_prose_finish
           20 (initial [] 0))
    = Return {| search_queries := []; should_finish := true;
                result_reason := Some reason |} st'
    /\ debateTurns st' = 3%nat
    /\ speakers (fst (planner_loop (fun _ => "") default_params 3
                        finish_prose_finish 20 (initial [] 0)))
       = [Alpha; Alpha; Beta; Alpha].
Proof.
  apply (finish_count_survives_unusable_reply (fun _ => "") default_params 3
           finish_prose_finish 17 (initial [] 0)).
  - simpl. lia.
  - reflexivity.
  - exists "{...}", finish_json, finish_decision. repeat split.
  - exists "  I think we should go on.  ", None. split; reflexivity.
  - exists "{...}", finish_json, finish_decision. repeat split.
Defined.

End PlannerMoreSpec.

(** ** More on the web search: ranking, citations, fallback *)

Module WebSearchMoreSpec.
Import JsString JsStringSpec Json WebSearch WebSearchSpec WebSearchObservations.

Section Ranking.
Variable lower : string -> string.
Variable terms : list Json.t.





End Ranking.

(** A query with something else than white space passes the first test
    of [performWebSearch]. *)
Lemma nonblank query :
  trim query <> "" ->
  negb (truthy query) || (str_length (trim query) =? 0)%nat = false.
Proof.
  intros Hne. destruct query as [|c q]; [contradiction Hne; reflexivity|].
  cbn [truthy negb orb]. apply Nat.eqb_neq.
  pose proof (str_length_pos _ Hne). lia.
Qed.




(** *** Results and their citations *)

Lemma first_occurrences_split {A} (same : A -> A -> bool) x l : forall seen,
  In x (first_occurrences same seen l) ->
  exists l1 l2, l = (l1 ++ x :: l2)%list
                /\ existsb (same x) (seen ++ l1) = false.
Proof.
  induction l as [|y l IH]; intros seen; cbn; [contradiction|].
  assert (In x (first_occurrences same (seen ++ [y]) l) ->
          exists l1 l2, y :: l = (l1 ++ x :: l2)%list
                        /\ existsb (same x) (seen ++ l1) = false) as Hrest.
  { intros (l1 & l2 & -> & Hm)%IH. exists (y :: l1), l2.
    split; [reflexivity|]. rewrite <- app_assoc in Hm. exact Hm. }
  destruct (existsb (same y) seen) eqn:Hy; [exact Hrest|].
  intros [<-|Hin]; [|exact (Hrest Hin)].
  exists [], l. split; [reflexivity|]. rewrite app_nil_r. exact Hy.
Qed.

Lemma first_occurrences_keeps {A} (same : A -> A -> bool) x l2 : forall l1 seen,
  existsb (same x) (seen ++ l1) = false ->
  In x (first_occurrences same seen (l1 ++ x :: l2)).
Proof.
  induction l1 as [|y l1 IH]; intros seen Hm.
  - rewrite app_nil_r in Hm. cbn. rewrite Hm. left. reflexivity.
  - assert (In x (first_occurrences same (seen ++ [y]) (l1 ++ x :: l2))) as Hin
      by (apply IH; rewrite <- app_assoc; exact Hm).
    cbn. destruct (existsb (same y) seen); [exact Hin | right; exact Hin].
Qed.

(** When the engines gave something, every result returned is cited:
    the citation made of its source, title and url is among the
    citations returned.  (The converse fails: a result dropped for its
    title and source leaves its citation behind.) *)
Theorem every_result_is_cited
        (lower : string -> string)
        (encodeURIComponent : string -> option string)
        (query : string) (aiResult : option Json.t)
        (engines : Json.t -> string -> EngineOutcome)
        (results : list SearchResult) (citations : list Citation) :
  performWebSearch lower encodeURIComponent query aiResult engines
  = Resolved (results, citations) ->
  collect (processSearchQuery query aiResult) engines <> [] ->
  forall result, In result results -> In (citation_of result) citations.
Proof.
  unfold performWebSearch.
  destruct (negb (truthy query) || (str_length (trim query) =? 0)%nat).
  { intros [= <- <-] _ result []. }
  cbv zeta. set (pq := processSearchQuery query aiResult).
  destruct (sort_by_relevance lower _ _) as [sorted|] eqn:Hsort; [|discriminate].
  intros [= <- <-] Hne result Hin.
  rewrite formatSearchResults_id in Hin.
  apply sort_by_relevance_perm in Hsort.
  apply (Permutation_in _ Hsort) in Hin.
  rewrite uniqueResults_first in Hin.
  rewrite uniqueCitations_first. unfold allCitations.
  assert (allResults encodeURIComponent pq engines = collect pq engines) as Hall
    by (unfold allResults; destruct (collect pq engines);
        [contradiction | reflexivity]).
  rewrite Hall in Hin.
  apply first_occurrences_split in Hin as (l1 & l2 & -> & Hm).
  rewrite map_app. cbn [map]. apply first_occurrences_keeps.
  cbn [app] in *. apply not_true_is_false. intros Hex.
  apply existsb_exists in Hex as (c & Hc & Hsame).
  apply in_map_iff in Hc as (y & <- & Hy).
  enough (existsb (collides lower result) l1 = true) by congruence.
  apply existsb_exists. exists y. split; [exact Hy|].
  unfold same_url in Hsame. cbn in Hsame. unfold collides.
  rewrite Hsame. reflexivity.
Qed.

Lemma every_result_is_cited_witness :
  List.Forall (fun result => In (citation_of result) gold_citations)
              gold_results.
Proof.
  apply List.Forall_forall.
  apply (every_result_is_cited toLowerCase encodeURIComponent "gold" None
           offline_engines gold_results gold_citations).
  - vm_compute. reflexivity.
  - vm_compute. discriminate.
Defined.


(** *** When no engine gives anything *)

Lemma key_words_truthy query w : In w (key_words query) -> truthy w = true.
Proof.
  unfold key_words. intros [Hin _]%filter_In. apply filter_In in Hin as [_ Hlen].
  destruct w; [discriminate | reflexivity].
Qed.

Lemma fallback_terms_first query :
  exists term rest, fallback_terms query = term :: rest.
Proof.
  unfold fallback_terms.
  destruct (key_words query) as [|w0 ws] eqn:Hw; [cbn; eauto|].
  assert (truthy w0 = true) as Ht
    by (apply (key_words_truthy query); rewrite Hw; left; reflexivity).
  cbn [List.filter]. rewrite Ht.
  destruct (truthy (join " " (firstn 2 (w0 :: ws)))); cbn; eauto.
Qed.

Lemma originalQuery_trim query aiResult :
  originalQuery (processSearchQuery query aiResult) = trim query.
Proof.
  unfold processSearchQuery.
  destruct (_ && _); [reflexivity|].
  destruct aiResult as [[| | | | |fields]|]; try reflexivity.
  destruct (get "searchTerms" fields) as [[| | | |[|term terms]|]|];
    reflexivity.
Qed.

Ltac direct_source :=
  cbn [source]; unfold direct_search_sources;
  repeat (first [left; reflexivity | right]).

Ltac all_direct :=
  repeat (apply List.Forall_cons; [direct_source|]);
  try apply List.Forall_nil.

Section Fallback.
Variable lower : string -> string.
Variable encodeURIComponent : string -> option string.

Lemma encode_all_encodes terms :
  encodes encodeURIComponent terms = true ->
  exists encoded, encode_all encodeURIComponent terms = Some encoded
                  /\ map fst encoded = terms.
Proof.
  unfold encodes. induction terms as [|term terms IH]; cbn.
  - intros _. exists []. split; reflexivity.
  - destruct (encodeURIComponent term) as [e|]; [|discriminate]. cbn.
    intros H. destruct (IH H) as (encoded & -> & Hfst).
    exists ((term, e) :: encoded). cbn. rewrite Hfst. split; reflexivity.
Qed.

Lemma encode_all_throws terms :
  encodes encodeURIComponent terms = false ->
  encode_all encodeURIComponent terms = None.
Proof.
  unfold encodes. induction terms as [|term terms IH]; cbn; [discriminate|].
  destruct (encodeURIComponent term) as [e|]; [|reflexivity]. cbn.
  intros H. rewrite (IH H). reflexivity.
Qed.

(** When nothing throws, the fallback starts with the Google and the
    Bing link of its first term. *)
Lemma fallback_results_head query :
  encodes encodeURIComponent (query :: fallback_terms query) = true ->
  exists term encoded rest,
    fallback_results encodeURIComponent query
    = (links term encoded ++ rest)%list.
Proof.
  unfold encodes. cbn [forallb]. unfold fallback_results.
  destruct (encodeURIComponent query) as [e|]; [|discriminate]. cbn [andb].
  intros H. destruct (encode_all_encodes _ H) as (encoded & -> & Hfst).
  destruct (fallback_terms_first query) as (term & rest & Hterms).
  rewrite Hterms in Hfst. destruct encoded as [|[t0 e0] encoded]; [discriminate|].
  eauto.
Qed.

Lemma fallback_results_throws query :
  encodes encodeURIComponent (query :: fallback_terms query) = false ->
  fallback_results encodeURIComponent query = [].
Proof.
  unfold encodes. cbn [forallb]. unfold fallback_results.
  destruct (encodeURIComponent query) as [e|]; [|reflexivity]. cbn [andb].
  intros H. rewrite (encode_all_throws _ H). reflexivity.
Qed.

Lemma links_sources term encoded :
  List.Forall (fun r => In (source r) direct_search_sources)
              (links term encoded).
Proof. unfold links. all_direct. Qed.

Lemma fallback_results_sources query :
  List.Forall (fun r => In (source r) direct_search_sources)
              (fallback_results encodeURIComponent query).
Proof.
  unfold fallback_results.
  destruct (encodeURIComponent query) as [e|]; [|constructor].
  destruct (encode_all _ _) as [[|[t0 e0] rest]|];
    [apply List.Forall_nil | | apply List.Forall_nil].
  apply List.Forall_app. split; [apply links_sources|].
  apply List.Forall_app. split.
  - unfold specialized. apply List.Forall_app. split;
      match goal with
      | |- List.Forall _ (if ?c then _ else _) => destruct c
      end; all_direct.
  - induction rest as [|te rest IH]; [constructor|].
    cbn [flat_map]. apply List.Forall_app. split; [apply links_sources | exact IH].
Qed.

Lemma uniqueResults_two a b rest :
  collides lower b a = false ->
  exists rest', uniqueResults lower (a :: b :: rest) = a :: b :: rest'.
Proof.
  intros H. rewrite uniqueResults_first. cbn. rewrite H. cbn. eauto.
Qed.

Lemma google_bing_differ (a b : SearchResult) x y :
  url a = "https://www.google.com/search?q=" ++ x ->
  url b = "https://www.bing.com/search?q=" ++ y ->
  source a = "Google Search" -> source b = "Bing Search" ->
  collides lower b a = false.
Proof.
  intros Ha Hb Hsa Hsb. unfold collides. rewrite Ha, Hb, Hsa, Hsb.
  assert (String.eqb ("https://www.google.com/search?q=" ++ x)
                     ("https://www.bing.com/search?q=" ++ y) = false) as ->
    by reflexivity.
  assert (String.eqb "Google Search" "Bing Search" = false) as ->
    by reflexivity.
  rewrite andb_false_r. reflexivity.
Qed.

Lemma fallback_results_unique_two query :
  encodes encodeURIComponent (query :: fallback_terms query) = true ->
  exists a b rest,
    uniqueResults lower (fallback_results encodeURIComponent query)
    = a :: b :: rest.
Proof.
  intros H. destruct (fallback_results_head query H) as (term & e & rest & ->).
  unfold links. cbn [app].
  match goal with
  | |- exists _ _ _, uniqueResults lower (?g :: ?h :: ?r) = _ =>
      destruct (uniqueResults_two g h r
                  (google_bing_differ g h _ _ eq_refl eq_refl eq_refl eq_refl))
        as (rest' & Hu)
  end.
  eauto.
Qed.

Lemma relevance_non_string terms : forall score r,
  forallb is_string terms = false -> relevance lower terms score r = None.
Proof.
  induction terms as [|[] terms IH]; intros score r H; try reflexivity.
  - discriminate.
  - cbn. apply IH. exact H.
Qed.

Lemma sort_by_relevance_non_string terms a b l :
  forallb is_string terms = false ->
  sort_by_relevance lower terms (a :: b :: l) = None.
Proof.
  intros H. cbn [sort_by_relevance].
  destruct (sort_by_relevance lower terms l) as [s|]; [|reflexivity].
  destruct (insert_sorted lower terms b s) as [[|c s']|] eqn:Hins;
    [|cbn; rewrite (relevance_non_string terms 0 a H); reflexivity
     |reflexivity].
  apply insert_sorted_perm, Permutation_length in Hins. discriminate.
Qed.

End Fallback.

(** A search to which no engine contributes, for a query that is not
    blank.  The ['Fallback'] engine makes up direct links to search
    engines from the query.  When [encodeURIComponent] throws on the
    query or on one of the terms of these links, the engine gives
    nothing and the search returns no result and no citation.
    Otherwise, when the search terms are strings, the search returns at
    least two results, all of them such links, and no citation; when one
    of the terms is not a string, the sort of these links throws. *)
Theorem search_without_engine_results
        (lower : string -> string)
        (encodeURIComponent : string -> option string)
        (query : string) (aiResult : option Json.t)
        (engines : Json.t -> string -> EngineOutcome) :
  trim query <> "" ->
  collect (processSearchQuery query aiResult) engines = [] ->
  if encodes encodeURIComponent (trim query :: fallback_terms (trim query))
  then
    if forallb is_string (searchTerms (processSearchQuery query aiResult))
    then exists results,
        performWebSearch lower encodeURIComponent query aiResult engines
        = Resolved (results, [])
        /\ (2 <= length results)%nat
        /\ List.Forall (fun r => In (source r) direct_search_sources) results
    else performWebSearch lower encodeURIComponent query aiResult engines
         = Rejected "TypeError: term.toLowerCase is not a function"
  else performWebSearch lower encodeURIComponent query aiResult engines
       = Resolved ([], []).
Proof.
  intros Hq Hc. unfold performWebSearch. rewrite (nonblank query Hq).
  cbv zeta. set (pq := processSearchQuery query aiResult) in *.
  unfold allResults, allCitations. rewrite Hc. cbn [map].
  assert (originalQuery pq = trim query) as ->
    by apply originalQuery_trim.
  destruct (encodes encodeURIComponent
              (trim query :: fallback_terms (trim query))) eqn:He.
  2:{ rewrite (fallback_results_throws encodeURIComponent _ He). reflexivity. }
  pose proof (fallback_results_sources encodeURIComponent (trim query))
    as Hsrc.
  assert (forall r,
             In r (uniqueResults lower
                     (fallback_results encodeURIComponent (trim query))) ->
             In (source r) direct_search_sources) as Hin.
  { intros r Hr. rewrite uniqueResults_first in Hr.
    apply first_occurrences_split in Hr as (l1 & l2 & Hl & _).
    rewrite List.Forall_forall in Hsrc. apply Hsrc. rewrite Hl.
    apply in_or_app. right. left. reflexivity. }
  destruct (fallback_results_unique_two lower encodeURIComponent
              (trim query) He) as (a & b & rest' & Hu).
  rewrite Hu in *.
  destruct (forallb is_string (searchTerms pq)) eqn:Hs.
  - destruct (sort_by_relevance_strings lower (searchTerms pq) (a :: b :: rest') Hs)
      as [sorted Hsort].
    rewrite Hsort. exists (formatSearchResults sorted).
    split; [reflexivity|]. rewrite formatSearchResults_id.
    apply sort_by_relevance_perm in Hsort. split.
    + rewrite (Permutation_length Hsort). cbn. lia.
    + apply List.Forall_forall. intros r Hr. apply Hin.
      exact (Permutation_in _ Hsort Hr).
  - rewrite (sort_by_relevance_non_string lower _ _ _ _ Hs). reflexivity.
Qed.

Lemma search_without_engine_results_witness :
  (exists results,
      performWebSearch toLowerCase encodeURIComponent "gold" None
                       all_engines_fail
      = Resolved (results, [])
      /\ (2 <= length results)%nat
      /\ List.Forall (fun r => In (source r) direct_search_sources) results)
  /\ performWebSearch toLowerCase encodeURIComponent cut_query None
                      all_engines_fail
     = Resolved ([], []).
Proof.
  split.
  - apply (search_without_engine_results toLowerCase encodeURIComponent
             "gold" None all_engines_fail).
    + vm_compute. discriminate.
    + vm_compute. reflexivity.
  - apply (search_without_engine_results toLowerCase encodeURIComponent
             cut_query None all_engines_fail).
    + vm_compute. discriminate.
    + vm_compute. reflexivity.
Defined.

(** *** The search terms *)

Lemma substring0_nonempty n s : s <> "" -> substring0 (S n) s <> "".
Proof.
  destruct s as [|c s]; [contradiction|]. intros _.
  unfold substring0. cbn [chars list_ascii_of_string take_units].
  assert (forall l, l <> [] -> of_chars l <> "") as Hne
    by (intros [|x l] H; [contradiction | discriminate]).
  apply Hne.
  destruct (nat_of_ascii c <? 240)%nat; [discriminate|].
  destruct n; [|discriminate].
  unfold high_surrogate.
  destruct (list_ascii_of_string s) as [|b1 [|b2 l]]; discriminate.
Qed.

Lemma append_nonempty (s1 s2 : string) : s1 <> "" -> s1 ++ s2 <> "".
Proof. destruct s1; [contradiction|]. intros _. discriminate. Qed.

Lemma key_word_nonempty w : truthy w = true -> w <> "".
Proof. destruct w; [discriminate|]. intros _. discriminate. Qed.

Lemma manual_terms_proper originalQuery :
  originalQuery <> "" ->
  (1 <= length (manual_terms originalQuery) <= 3)%nat
  /\ List.Forall proper_term (map JStr (manual_terms originalQuery)).
Proof.
  intros Hne. unfold manual_terms.
  pose proof (key_words_truthy originalQuery) as Hw.
  destruct (key_words originalQuery) as [|w0 [|w1 [|w2 ws]]].
  - split; [cbn; lia|]. repeat constructor.
    eexists. split; [reflexivity | apply substring0_nonempty, Hne].
  - assert (w0 <> "") as H0 by (apply key_word_nonempty, Hw; left; reflexivity).
    split; [cbn; lia|]. repeat constructor. eexists. split; [reflexivity | exact H0].
  - assert (w0 <> "") as H0 by (apply key_word_nonempty, Hw; left; reflexivity).
    split; [cbn; lia|].
    repeat constructor; eexists; (split; [reflexivity|]);
      [exact H0 | apply append_nonempty, H0].
  - assert (w0 <> "") as H0 by (apply key_word_nonempty, Hw; left; reflexivity).
    split; [cbn; lia|].
    repeat constructor; eexists; (split; [reflexivity|]);
      [exact H0 | apply append_nonempty, H0 | apply append_nonempty, H0].
Qed.

(** What [processSearchQuery] gives for a query that is not blank: the
    trimmed query, with one to four search terms.  When the reply of the
    model is not used (the query is short, the call fails or its reply
    does not parse) there are at most three terms, each a non-empty
    string, so that the sort of [performWebSearch] cannot throw and no
    engine is asked for an empty term. *)
Theorem search_terms_of_a_query (query : string) (aiResult : option Json.t) :
  trim query <> "" ->
  let processedQuery := processSearchQuery query aiResult in
  originalQuery processedQuery = trim query
  /\ (1 <= length (searchTerms processedQuery) <= 4)%nat
  /\ (aiResult = None ->
      (length (searchTerms processedQuery) <= 3)%nat
      /\ List.Forall proper_term (searchTerms processedQuery))
  /\ ((str_length (trim query) <= 30)%nat ->
      (length (split_spaces (trim query)) <= 3)%nat ->
      searchTerms processedQuery = [JStr (trim query)]).
Proof.
  intros Hne. cbv zeta.
  assert (forall P Q R S : Prop, S -> P /\ Q /\ R -> P /\ Q /\ R /\ S)
    as Hlast by tauto.
  apply Hlast; clear Hlast.
  { intros H30%Nat.leb_le H3%Nat.leb_le. unfold processSearchQuery.
    rewrite H30, H3. reflexivity. }
  unfold processSearchQuery.
  destruct (manual_terms_proper (trim query) Hne) as [Hlen Hproper].
  destruct ((str_length (trim query) <=? 30)%nat
            && (length (split_spaces (trim query)) <=? 3)%nat).
  { cbn. split; [reflexivity|]. split; [lia|]. intros _. split; [lia|].
    repeat constructor. eexists. split; [reflexivity | exact Hne]. }
  assert (forall l, l = map JStr (manual_terms (trim query)) ->
                    (1 <= length l <= 4)%nat) as Hmanual
    by (intros l ->; rewrite length_map; lia).
  destruct aiResult as [[| | | | |fields]|]; cbn [originalQuery searchTerms];
    try (split; [reflexivity|]; split; [apply Hmanual; reflexivity|];
         discriminate).
  - destruct (get "searchTerms" fields) as [[| | | |[|term terms]|]|];
      cbn [originalQuery searchTerms];
      (split; [reflexivity|]; split; [|discriminate]);
      try (apply Hmanual; reflexivity).
    rewrite length_firstn. cbn [length]. lia.
  - split; [reflexivity|]. split; [apply Hmanual; reflexivity|].
    intros _. rewrite length_map in *. split; [lia | exact Hproper].
Qed.

Lemma search_terms_of_a_query_witness :
  searchTerms (processSearchQuery long_request None)
  = [JStr "gold"; JStr "gold price"; JStr "gold inflation"]
  /\ List.Forall proper_term (searchTerms (processSearchQuery long_request None)).
Proof.
  split; [vm_compute; reflexivity|].
  apply (search_terms_of_a_query long_request None);
    [vm_compute; discriminate | reflexivity].
Defined.

(** A query of eleven characters outside ASCII, and one padded with
    no-break spaces: both are short queries and go out as they are,
    trimmed, whatever the model would say. *)
Example short_queries_outside_ascii (aiResult : option Json.t) :
  str_length "日本語の検索クエリです" = 11%nat
  /\ searchTerms (processSearchQuery "日本語の検索クエリです" aiResult)
     = [JStr "日本語の検索クエリです"]
  /\ processSearchQuery (nbsp ++ "gold price" ++ nbsp) aiResult
     = {| originalQuery := "gold price"; searchTerms := [JStr "gold price"] |}.
Proof. repeat split. Qed.

End WebSearchMoreSpec.

(** ** One search for the research loop *)

Module SingleSearchSpec.
Import JsString Json WebSearch SingleSearch.

Lemma key_eqb_eq k1 k2 : key_eqb k1 k2 = true <-> k1 = k2.
Proof.
  destruct k1 as [a|], k2 as [b|]; cbn; try (split; congruence).
  rewrite String.eqb_eq. split; congruence.
Qed.

Section MapSet.
Context {V : Type}.

Lemma map_set_In k v (m : list (option string * V)) k' v' :
  List.NoDup (map fst m) ->
  In (k', v') (map_set k v m) <->
  (k' = k /\ v' = v) \/ (k' <> k /\ In (k', v') m).
Proof.
  induction m as [|[k0 v0] m IH]; cbn [map_set map fst].
  - intros _. cbn. split.
    + intros [[= <- <-]|[]]. left. auto.
    + intros [[-> ->]|[_ []]]. left. reflexivity.
  - intros Hnd. apply List.NoDup_cons_iff in Hnd as [Hk0 Hnd].
    destruct (key_eqb k0 k) eqn:E.
    + apply key_eqb_eq in E. subst k0. cbn [In]. split.
      * intros [[= <- <-]|Hin]; [left; auto|].
        right. split; [|right; exact Hin].
        intros ->. apply Hk0. apply in_map_iff. exists (k, v'). auto.
      * intros [[-> ->]|[Hne [[= <- <-]|Hin]]]; [left; reflexivity | | right; exact Hin].
        contradiction.
    + assert (k0 <> k) as Hne by (intros ->; rewrite (proj2 (key_eqb_eq k k) eq_refl) in E; discriminate).
      cbn [In]. rewrite (IH Hnd). split.
      * intros [[= <- <-]|[[-> ->]|[Hn Hin]]]; [right; auto | left; auto | right; auto].
      * intros [[-> ->]|[Hn [[= <- <-]|Hin]]]; [right; left; auto | left; reflexivity | right; right; auto].
Qed.

Lemma map_set_keys k v (m : list (option string * V)) x :
  In x (map fst (map_set k v m)) <-> x = k \/ In x (map fst m).
Proof.
  induction m as [|[k0 v0] m IH]; cbn [map_set map fst].
  - cbn. split; [intros [<-|[]]; auto | intros [->|[]]; auto].
  - destruct (key_eqb k0 k) eqn:E.
    + apply key_eqb_eq in E. subst k0. cbn. split; [intros [<-|H]; auto | intros [->|[<-|H]]; auto].
    + cbn [map fst In]. rewrite IH. split; [intros [<-|[->|H]]; auto | intros [->|[<-|H]]; auto].
Qed.

Lemma map_set_NoDup k v (m : list (option string * V)) :
  List.NoDup (map fst m) -> List.NoDup (map fst (map_set k v m)).
Proof.
  induction m as [|[k0 v0] m IH]; cbn [map_set map fst].
  - intros _. repeat constructor. intros [].
  - intros Hnd. pose proof Hnd as [Hk0 Hnd']%List.NoDup_cons_iff.
    destruct (key_eqb k0 k) eqn:E; [exact Hnd|].
    cbn [map fst]. constructor; [|exact (IH Hnd')].
    rewrite map_set_keys. intros [->|Hin]; [|contradiction].
    rewrite (proj2 (key_eqb_eq k k) eq_refl) in E. discriminate.
Qed.

Lemma new_Map_snoc (entries : list (option string * V)) e :
  new_Map (entries ++ [e]) = map_set (fst e) (snd e) (new_Map entries).
Proof. unfold new_Map. rewrite fold_left_app. reflexivity. Qed.

(** A [Map] made from a list of entries has every key once, and holds
    for each key the last entry of the list with that key. *)
Lemma new_Map_last (entries : list (option string * V)) :
  List.NoDup (map fst (new_Map entries))
  /\ forall k v,
       In (k, v) (new_Map entries) <->
       exists l1 l2, entries = (l1 ++ (k, v) :: l2)%list
                     /\ List.Forall (fun e => fst e <> k) l2.
Proof.
  induction entries as [|[k0 v0] entries [IHn IHi]] using rev_ind.
  - split; [constructor|]. intros k v. cbn. split; [intros []|].
    intros (l1 & l2 & H & _). destruct l1; discriminate.
  - rewrite new_Map_snoc. cbn [fst snd].
    split; [apply map_set_NoDup, IHn|].
    intros k v. rewrite (map_set_In _ _ _ _ _ IHn), IHi. split.
    + intros [[-> ->]|[Hne (l1 & l2 & -> & Hl2)]].
      * exists entries, []. split; [reflexivity | constructor].
      * exists l1, (l2 ++ [(k0, v0)])%list.
        split; [rewrite <- app_assoc; reflexivity|].
        apply List.Forall_app. split; [exact Hl2|].
        repeat constructor. cbn. congruence.
    + intros (l1 & l2 & Heq & Hl2).
      destruct l2 as [|e l2 _] using rev_ind.
      * apply app_inj_tail in Heq as [_ [= <- <-]]. left. auto.
      * right. rewrite app_comm_cons, app_assoc in Heq.
        apply app_inj_tail in Heq as [-> <-].
        apply List.Forall_app in Hl2 as [Hl2 Hlast].
        apply List.Forall_inv in Hlast. cbn in Hlast.
        split; [congruence|]. exists l1, l2. split; [reflexivity | exact Hl2].
Qed.

End MapSet.

(** The merge of line 676: every url once, and for each url the last
    citation of the list that has it. *)
Lemma merge_last (l : list MergedCitation) :
  NoDup (map m_url (merge l))
  /\ forall c, In c (merge l) <-> last_for_its_url c l.
Proof.
  unfold merge, values.
  destruct (new_Map_last (map (fun c => (m_url c, c)) l)) as [Hn Hi].
  assert (forall k c, In (k, c) (new_Map (map (fun c => (m_url c, c)) l)) ->
                      k = m_url c) as Hkey.
  { intros k c (l1 & l2 & Heq & _)%Hi.
    assert (In (k, c) (map (fun c => (m_url c, c)) l)) as Hin
      by (rewrite Heq; apply in_or_app; right; left; reflexivity).
    apply in_map_iff in Hin as (c' & [= <- <-] & _). reflexivity. }
  split.
  - apply NoDup_ListNoDup.
    replace (map m_url (map snd (new_Map (map (fun c => (m_url c, c)) l))))
      with (map fst (new_Map (map (fun c => (m_url c, c)) l))); [exact Hn|].
    rewrite List.map_map. apply map_ext_in. intros [k c] Hin.
    exact (Hkey k c Hin).
  - intros c. split.
    + intros ([k c'] & Hc & Hin)%in_map_iff. cbn in Hc. subst c'.
      pose proof (Hkey k c Hin) as ->.
      apply Hi in Hin as (e1 & e2 & Heq & He2).
      apply map_eq_app in Heq as (l1 & l2' & -> & <- & Heq).
      apply map_eq_cons in Heq as (c0 & l2 & -> & Hc0 & <-).
      injection Hc0 as _ ->.
      exists l1, l2. split; [reflexivity|].
      rewrite List.Forall_map in He2. exact He2.
    + intros (l1 & l2 & -> & Hl2).
      apply in_map_iff. exists (m_url c, c). split; [reflexivity|].
      apply Hi. exists (map (fun c => (m_url c, c)) l1),
                       (map (fun c => (m_url c, c)) l2).
      split; [rewrite map_app; reflexivity|].
      rewrite List.Forall_map. exact Hl2.
Qed.


Lemma modelCitations_source chunks : forall fromModel,
  modelCitations chunks = Some fromModel ->
  List.Forall (fun c => m_source c = None) fromModel.
Proof.
  induction chunks as [|[web|] chunks IH]; intros fromModel; cbn.
  - intros [= <-]. constructor.
  - destruct (modelCitations chunks) as [l|]; [|discriminate].
    intros [= <-]. constructor; [reflexivity | exact (IH l eq_refl)].
  - discriminate.
Qed.

(** A citation of the web search that is the last one for its url: the
    model cites that url nowhere. *)
Lemma web_citation_is_last ws fromModel w :
  List.Forall (fun c => m_source c = None) fromModel ->
  last_for_its_url (of_web w) (map of_web ws ++ fromModel) ->
  forall c, In c fromModel -> m_url c <> Some (c_url w).
Proof.
  intros Hsrc (l1 & l2 & Heq & Hl2) c Hc.
  rewrite List.Forall_forall in Hsrc.
  symmetry in Heq. apply app_eq_app in Heq as (l & [[-> Heq]|[Heq Heq']]).
  - assert (In (of_web w) fromModel) as Hbad
      by (rewrite Heq; apply in_or_app; right; left; reflexivity).
    apply Hsrc in Hbad. discriminate.
  - destruct l as [|x l].
    + cbn in Heq'. assert (In (of_web w) fromModel) as Hbad
        by (rewrite <- Heq'; left; reflexivity).
      apply Hsrc in Hbad. discriminate.
    + injection Heq' as _ ->. rewrite List.Forall_forall in Hl2.
      apply (Hl2 c). apply in_or_app. right. exact Hc.
Qed.

(** The citations [executeSingleSearch] returns, made of those of the web
    search followed by those of the grounding of the model: every url
    occurs once, and the citation kept for a url is the last one that has
    it.  Hence a citation of the web search is returned only when the
    model does not cite the same url: where it does, the citation of the
    model, which has no source, takes its place. *)
Theorem merged_citations_keep_the_last
        (searchQuery : string)
        (webSearch : Outcome (list SearchResult * list Citation))
        (generateContent : string -> Outcome Response)
        (text' : string) (citations : list MergedCitation) :
  executeSingleSearch searchQuery webSearch generateContent
  = Resolved (text', citations) ->
  exists response fromModel,
    grounding response = Some fromModel
    /\ text' = summary searchQuery (text response)
    /\ NoDup (map m_url citations)
    /\ (forall c, In c citations <->
                  last_for_its_url c
                    (map of_web (snd (webResults webSearch)) ++ fromModel))
    /\ (forall w, In (of_web w) citations ->
                  forall c, In c fromModel -> m_url c <> Some (c_url w)).
Proof.
  unfold executeSingleSearch.
  destruct (generateContent _) as [response|]; [|discriminate].
  destruct (grounding response) as [fromModel|] eqn:Hg; [|discriminate].
  intros [= <- <-]. exists response, fromModel.
  destruct (merge_last (map of_web (snd (webResults webSearch)) ++ fromModel))
    as [Hn Hi].
  split; [exact Hg|]. split; [reflexivity|]. split; [exact Hn|].
  split; [exact Hi|].
  intros w Hin c Hc.
  assert (List.Forall (fun c => m_source c = None) fromModel) as Hsrc.
  { unfold grounding in Hg. destruct (groundingChunks response) as [chunks|].
    - exact (modelCitations_source chunks fromModel Hg).
    - injection Hg as <-. constructor. }
  exact (web_citation_is_last _ _ _ Hsrc (proj1 (Hi _) Hin) c Hc).
Qed.

Lemma merged_citations_keep_the_last_witness :
  exists citations,
    executeSingleSearch "gold" gold_run (fun _ => Resolved grounded_reply)
    = Resolved ("Summary for " ++ dq ++ "gold" ++ dq
                  ++ ": Gold is a chemical element.", citations)
    /\ NoDup (map m_url citations)
    /\ nth_error citations 0
       = Some {| m_url := Some "https://en.wikipedia.org/wiki/Gold";
                 m_title := Some "wikipedia.org"; m_source := None |}.
Proof.
  destruct (executeSingleSearch "gold" gold_run
              (fun _ => Resolved grounded_reply))
    as [[text' citations]|] eqn:Hrun; [|discriminate].
  destruct (merged_citations_keep_the_last _ _ _ _ _ Hrun)
    as (response & fromModel & _ & _ & Hn & _).
  exists citations. vm_compute in Hrun. injection Hrun as <- <-.
  split; [reflexivity|]. split; [exact Hn | reflexivity].
Defined.

End SingleSearchSpec.

(** ** The list of available models *)

Module AvailableModelsSpec.
Import JsString ApiKeyService KeyServiceMore Models WebSearch AvailableModels.











End AvailableModelsSpec.

(** ** The request of the OpenRouter executor *)

Module OpenRouterRequestSpec.
Import JsString Json WebSearch WebSearchObservations SingleSearch
       SingleSearchSpec OpenRouterRequest.

Lemma wrap_first_user_spec l :
  (no_user l /\ wrap_first_user l = l)
  \/ exists l1 m l2,
      l = (l1 ++ m :: l2)%list /\ no_user l1 /\ role m = "user"
      /\ wrap_first_user l
         = (l1 ++ {| role := "user"; content := search_wrapper (content m) |}
               :: l2)%list.
Proof.
  induction l as [|m l IH]; cbn.
  - left. split; [constructor | reflexivity].
  - destruct (String.eqb_spec (role m) "user") as [Hu|Hu].
    + right. exists [], m, l. rewrite Hu.
      split; [reflexivity|]. split; [constructor|]. split; reflexivity.
    + destruct IH as [[Hn ->]|(l1 & m' & l2 & -> & Hn & Hm & ->)].
      * left. split; [constructor; assumption | reflexivity].
      * right. exists (m :: l1), m', l2.
        split; [reflexivity|]. split; [constructor; assumption|].
        split; [exact Hm | reflexivity].
Qed.

Lemma no_user_rev l : no_user l -> no_user (rev l).
Proof.
  unfold no_user. rewrite !List.Forall_forall.
  intros H m Hm. apply H, in_rev, Hm.
Qed.

Lemma wrap_last_user_spec l :
  (no_user l /\ wrap_last_user l = l)
  \/ exists l1 m l2,
      l = (l1 ++ m :: l2)%list /\ role m = "user" /\ no_user l2
      /\ wrap_last_user l
         = (l1 ++ {| role := "user"; content := search_wrapper (content m) |}
               :: l2)%list.
Proof.
  unfold wrap_last_user.
  destruct (wrap_first_user_spec (rev l))
    as [[Hn ->]|(l1 & m & l2 & Hl & Hn & Hm & ->)].
  - left. rewrite rev_involutive. split; [|reflexivity].
    rewrite <- (rev_involutive l). apply no_user_rev, Hn.
  - right. exists (rev l2), m, (rev l1).
    assert (l = (rev l2 ++ m :: rev l1)%list) as Hl'.
    { rewrite <- (rev_involutive l), Hl, rev_app_distr. cbn [rev].
      rewrite <- app_assoc. reflexivity. }
    split; [exact Hl'|]. split; [exact Hm|]. split; [apply no_user_rev, Hn|].
    rewrite rev_app_distr. cbn [rev]. rewrite <- app_assoc. reflexivity.
Qed.

Lemma system_messages_system stringify params :
  List.Forall (fun m => role m = "system") (system_messages stringify params)
  /\ (length (system_messages stringify params) <= 2)%nat.
Proof.
  unfold system_messages. destruct (config params) as [c|];
    [|split; [constructor | cbn; lia]].
  destruct (systemInstruction c) as [s|]; [destruct (truthy s)|];
    destruct (_ || _); cbn; split; repeat constructor.
Qed.

Lemma conversation_roles params :
  List.Forall (fun m => role m = "user" \/ role m = "assistant")
              (conversation params).
Proof.
  assert (forall c, List.Forall (fun m => role m = "user" \/ role m = "assistant")
                                (content_messages c)) as Hc.
  { intros [s|r [parts|]]; cbn [content_messages];
      [repeat constructor; left; reflexivity | | constructor].
    constructor; [|constructor]. cbn [role].
    destruct r as [r'|]; [destruct (String.eqb r' "model")|]; auto. }
  unfold conversation. destruct (contents params) as [|[s|r parts]|cs].
  - constructor.
  - destruct (truthy s); [apply Hc | constructor].
  - apply Hc.
  - induction cs as [|c cs IH]; [constructor|].
    cbn [flat_map]. apply List.Forall_app. split; [apply Hc | exact IH].
Qed.

(** The messages [convertToOpenAIParams] makes: at most two messages of
    the system, then one message of a user or of the assistant for each
    content.  A Google-search tool among the tools changes one message at
    most: the last message of a user has its content wrapped into the
    request to answer from knowledge, every other message is left as it
    is; without such a tool nothing is changed. *)
Theorem search_tool_rewrites_last_user_message
        (stringify : Json.t -> option string) (params : Params) :
  let plain := (system_messages stringify params ++ conversation params)%list in
  let sent := messages (convertToOpenAIParams stringify params) in
  List.Forall (fun m => role m = "system") (system_messages stringify params)
  /\ (length (system_messages stringify params) <= 2)%nat
  /\ List.Forall (fun m => role m = "user" \/ role m = "assistant")
                 (conversation params)
  /\ (if isSearchRequest params
      then (no_user plain /\ sent = plain)
           \/ exists before m after,
               plain = (before ++ m :: after)%list
               /\ role m = "user" /\ no_user after
               /\ sent = (before
                            ++ {| role := "user";
                                  content := search_wrapper (content m) |}
                            :: after)%list
      else sent = plain).
Proof.
  cbv zeta.
  destruct (system_messages_system stringify params) as [Hs Hl].
  split; [exact Hs|]. split; [exact Hl|].
  split; [apply conversation_roles|].
  unfold convertToOpenAIParams. cbn [messages].
  destruct (isSearchRequest params); [|reflexivity].
  apply wrap_last_user_spec.
Qed.

Lemma formatSearchResults_id_again l : formatSearchResults l = l.
Proof.
  unfold formatSearchResults. induction l as [|[] l IH]; [reflexivity|].
  cbn. rewrite IH. reflexivity.
Qed.

Lemma enhancedContent_truthy params searchResults :
  truthy (enhancedContent params searchResults) = true.
Proof.
  unfold enhancedContent. destruct (contents_text (contents params));
    reflexivity.
Qed.

Lemma map_constant {A B} (b : B) (l l' : list A) :
  length l = length l' -> map (fun _ => b) l = map (fun _ => b) l'.
Proof.
  revert l'. induction l as [|x l IH]; intros [|y l']; cbn;
    try discriminate; [reflexivity|].
  intros [= H]. rewrite (IH l' H). reflexivity.
Qed.

(** A search request through the OpenRouter executor whose web search
    returns: the attempts send the messages of the system followed by
    one message of the user, and of the results only their number
    reaches the model, each result being printed as [[object Object]]:
    two searches with as many results give the same messages. *)
Theorem openrouter_search_prompt_ignores_results
        (stringify : Json.t -> option string) (params : Params)
        (searchResults searchResults' : list SearchResult)
        (searchCitations searchCitations' : list Citation) :
  isSearchRequest params = true ->
  request_messages stringify params (Resolved (searchResults, searchCitations))
  = (system_messages stringify params
       ++ [ {| role := "user";
               content :=
                 search_wrapper (enhancedContent params searchResults) |} ])%list
  /\ (length searchResults = length searchResults' ->
      request_messages stringify params
                       (Resolved (searchResults', searchCitations'))
      = request_messages stringify params
                         (Resolved (searchResults, searchCitations))).
Proof.
  intros Hs.
  assert (forall results citations,
             request_messages stringify params (Resolved (results, citations))
             = (system_messages stringify params
                  ++ [ {| role := "user";
                          content :=
                            search_wrapper (enhancedContent params results) |} ])%list)
    as Hsent.
  { intros results citations.
    unfold request_messages, with_search. rewrite Hs. cbn [fst].
    unfold convertToOpenAIParams, isSearchRequest in *. cbn [config messages].
    rewrite Hs. unfold conversation. cbn [contents].
    rewrite enhancedContent_truthy. cbn [content_messages].
    unfold wrap_last_user. rewrite rev_app_distr. cbn [rev app wrap_first_user].
    cbn [role String.eqb Ascii.eqb Bool.eqb content].
    cbn [rev]. rewrite rev_involutive. reflexivity. }
  split; [apply Hsent|].
  intros Hlen. rewrite !Hsent. unfold enhancedContent.
  rewrite !formatSearchResults_id_again.
  rewrite (map_constant "[object Object]" searchResults' searchResults);
    [reflexivity | symmetry; exact Hlen].
Qed.

Lemma openrouter_search_prompt_ignores_results_witness :
  request_messages (fun _ => None) summarize_gold
                   (Resolved (gold_results, gold_citations))
  = request_messages (fun _ => None) summarize_gold
                     (Resolved (three_articles_results, [])).
Proof.
  apply (openrouter_search_prompt_ignores_results (fun _ => None)
           summarize_gold three_articles_results gold_results
           [] gold_citations eq_refl).
  reflexivity.
Defined.


Lemma grounding_of_search searchCitations responseText :
  grounding (geminiLikeResponse true searchCitations responseText)
  = Some (map regrounded searchCitations).
Proof.
  unfold grounding, geminiLikeResponse. cbn [groundingChunks andb].
  destruct searchCitations as [|c cs]; [reflexivity|].
  cbn [length Nat.ltb Nat.leb].
  generalize (c :: cs). intros l. induction l as [|x l IH]; [reflexivity|].
  cbn [map modelCitations]. rewrite IH. reflexivity.
Qed.

(** A search of the research loop answered through the OpenRouter
    executor: the reply carries the citations of the web search of the
    executor as grounding.  When these cover the urls cited by the web
    search of [executeSingleSearch] itself (as they do when both searches
    give the same), every citation returned is one made from the
    grounding: none has a source. *)
Theorem openrouter_citations_lose_their_source
        (searchQuery : string)
        (results : list SearchResult) (citations searchCitations : list Citation)
        (responseText text' : string) (merged : list MergedCitation) :
  executeSingleSearch searchQuery (Resolved (results, citations))
    (fun _ => Resolved (geminiLikeResponse true searchCitations responseText))
  = Resolved (text', merged) ->
  (forall w, In w citations ->
             exists w', In w' searchCitations /\ c_url w' = c_url w) ->
  text' = summary searchQuery (Some responseText)
  /\ List.Forall (fun c => m_source c = None) merged
  /\ forall c, In c merged -> exists w', In w' searchCitations
                                         /\ c = regrounded w'.
Proof.
  unfold executeSingleSearch. rewrite grounding_of_search.
  cbn [webResults fst snd]. intros [= <- <-] Hcover.
  destruct (merge_last (map of_web citations ++ map regrounded searchCitations))
    as [_ Hi].
  assert (List.Forall (fun c => m_source c = None)
                      (map regrounded searchCitations)) as Hsrc
    by (apply List.Forall_forall; intros c (w & <- & _)%in_map_iff; reflexivity).
  assert (forall c,
             In c (merge (map of_web citations ++ map regrounded searchCitations)) ->
             exists w', In w' searchCitations /\ c = regrounded w') as Hfrom.
  { intros c Hc. pose proof (proj1 (Hi c) Hc) as Hlast.
    assert (In c (map of_web citations ++ map regrounded searchCitations))
      as Hin
      by (destruct Hlast as (l1 & l2 & -> & _); apply in_or_app; right; left;
          reflexivity).
    apply in_app_or in Hin as [(w & <- & Hw)%in_map_iff|(w' & <- & Hw')%in_map_iff].
    - destruct (Hcover w Hw) as (w' & Hw' & Hurl).
      exfalso.
      apply (web_citation_is_last _ _ _ Hsrc Hlast (regrounded w')).
      + apply in_map, Hw'.
      + cbn. rewrite Hurl. reflexivity.
    - exists w'. split; [exact Hw' | reflexivity]. }
  split; [reflexivity|]. split; [|exact Hfrom].
  apply List.Forall_forall. intros c Hc.
  destruct (Hfrom c Hc) as (w' & _ & ->). reflexivity.
Qed.

Lemma openrouter_citations_lose_their_source_witness :
  exists merged,
    executeSingleSearch "gold" gold_run
      (fun _ => Resolved (geminiLikeResponse true gold_citations "Gold."))
    = Resolved (summary "gold" (Some "Gold."), merged)
    /\ length merged = length gold_citations
    /\ List.Forall (fun c => m_source c = None) merged.
Proof.
  destruct (executeSingleSearch "gold" gold_run
              (fun _ => Resolved (geminiLikeResponse true gold_citations "Gold.")))
    as [[text' merged]|] eqn:Hrun; [|discriminate].
  assert (gold_run = Resolved (gold_results, gold_citations)) as Hgold
    by (vm_compute; reflexivity).
  pose proof Hrun as Hrun'. rewrite Hgold in Hrun'.
  destruct (openrouter_citations_lose_their_source _ _ _ _ _ _ _ Hrun')
    as (Ht & Hs & _).
  { intros w Hw. exists w. split; [exact Hw | reflexivity]. }
  exists merged. subst text'. split; [reflexivity|].
  split; [|exact Hs]. vm_compute in Hrun. injection Hrun as <-. reflexivity.
Defined.

End OpenRouterRequestSpec.
